(** * Tuna tunnel session core: a shallow embedding and its properties

    The development follows [tuna.go] (the session aggregate [Common], the
    provider negotiation loop, the descriptor codec, the publisher loop, the
    relay copy loop and the close helper) and the reverse entry program that
    shares one UDP socket between many writer pumps.

    Go values are modelled as follows.
    - [string] is a Go string (a sequence of bytes); [list ascii] is a
      [[]byte]; the conversions [[]byte(s)] and [string(b)] are
      [list_ascii_of_string] and [string_of_list_ascii].
    - [int], [int64], [time.Duration] and [common.Fixed64] are [Z] in the
      signed 64-bit range, [uint32] and [uint64] are [Z] in their unsigned
      ranges; wrap-around is written out where the code computes.
    - [[]int] in a descriptor is [int_slice], which keeps the nil slice and
      the slice [[]int{}] apart: the encoder leaves both out under
      [omitempty], and the decoder gives nil for a member that is left out.
      The port lists of a [Service], of which the code takes the length
      only, are [list Z].
    - [*Metadata] is a location of a heap of records. *)

From Stdlib Require Import ZArith Lia Ascii String Decimal DecimalString DecimalZ DecimalN DecimalPos DecimalFacts.
From stdpp Require Import base option list strings gmap relations.

#[local] Set Warnings "-register-all".

Local Open Scope Z_scope.

(** ** Bytes *)

Definition byte_val (c : ascii) : Z := Z.of_N (N_of_ascii c).
Definition byte_of (z : Z) : ascii := ascii_of_N (Z.to_N z).

(** Go [error] values that the embedded code creates, compares or returns. *)
Inductive error : Type :=
| EOF
| ErrShortWrite
| SyntaxError
| UnmarshalTypeError (what : string)
| errorString (msg : string).

(** Integer wrap-around of Go's fixed-width types. *)
Definition wrap_uint32 (z : Z) : Z := z mod 2 ^ 32.
Definition wrap_uint64 (z : Z) : Z := z mod 2 ^ 64.
Definition wrap_int64 (z : Z) : Z := (z + 2 ^ 63) mod 2 ^ 64 - 2 ^ 63.
Definition in_int64 (z : Z) : bool := (- 2 ^ 63 <=? z) && (z <? 2 ^ 63).
Definition in_uint8 (z : Z) : bool := (0 <=? z) && (z <? 256).

(** ** unicode/utf8 as encoding/json uses it

    [DecodeRune] and [EncodeRune] are written with subtraction, division and
    remainder in place of the library's masks and shifts; on bytes in the
    tested ranges the two agree. *)
Module utf8.

Definition RuneError : Z := 65533.
Definition MaxRune : Z := 1114111.
Definition RuneSelf : Z := 128.

Definition between (lo hi : Z) (c : ascii) : bool :=
  (lo <=? byte_val c) && (byte_val c <=? hi).

(** The continuation bits of a following byte. *)
Definition low6 (c : ascii) : Z := byte_val c - 128.

(** First rune of [p] and its width in bytes; [(RuneError, 1)] on an
    encoding that is invalid, too short, over-long or a surrogate. *)
Definition DecodeRune (p : list ascii) : Z * nat :=
  match p with
  | [] => (RuneError, 0%nat)
  | c0 :: p1 =>
    let b0 := byte_val c0 in
    if b0 <? 128 then (b0, 1%nat)
    else if (b0 <? 194) || (244 <? b0) then (RuneError, 1%nat)
    else if b0 <? 224 then
      match p1 with
      | c1 :: _ =>
        if between 128 191 c1 then ((b0 - 192) * 64 + low6 c1, 2%nat)
        else (RuneError, 1%nat)
      | _ => (RuneError, 1%nat)
      end
    else if b0 <? 240 then
      match p1 with
      | c1 :: c2 :: _ =>
        let lo := if b0 =? 224 then 160 else 128 in
        let hi := if b0 =? 237 then 159 else 191 in
        if between lo hi c1 && between 128 191 c2
        then ((b0 - 224) * 4096 + low6 c1 * 64 + low6 c2, 3%nat)
        else (RuneError, 1%nat)
      | _ => (RuneError, 1%nat)
      end
    else
      match p1 with
      | c1 :: c2 :: c3 :: _ =>
        let lo := if b0 =? 240 then 144 else 128 in
        let hi := if b0 =? 244 then 143 else 191 in
        if between lo hi c1 && between 128 191 c2 && between 128 191 c3
        then ((b0 - 240) * 262144 + low6 c1 * 4096 + low6 c2 * 64 + low6 c3, 4%nat)
        else (RuneError, 1%nat)
      | _ => (RuneError, 1%nat)
      end
  end.

Definition surrogate (r : Z) : bool := (55296 <=? r) && (r <=? 57343).

(** The UTF-8 encoding of rune [r]; an invalid rune is written as U+FFFD. *)
Definition EncodeRune (r : Z) : list ascii :=
  if (0 <=? r) && (r <? 128) then [byte_of r]
  else if (0 <=? r) && (r <? 2048) then [byte_of (192 + r / 64); byte_of (128 + r mod 64)]
  else if (r <? 0) || (MaxRune <? r) || surrogate r
  then [byte_of 239; byte_of 191; byte_of 189]
  else if r <? 65536
  then [byte_of (224 + r / 4096); byte_of (128 + (r / 64) mod 64); byte_of (128 + r mod 64)]
  else [byte_of (240 + r / 262144); byte_of (128 + (r / 4096) mod 64);
        byte_of (128 + (r / 64) mod 64); byte_of (128 + r mod 64)].

(** [utf8.Valid]: no position decodes to [(RuneError, 1)].  [skip] counts the
    bytes of the current rune that are still to be passed over. *)
Fixpoint valid_from (skip : nat) (p : list ascii) : bool :=
  match p with
  | [] => true
  | _ :: rest =>
    match skip with
    | S k => valid_from k rest
    | O =>
      let '(r, size) := DecodeRune p in
      if (r =? RuneError) && (size =? 1)%nat then false
      else valid_from (size - 1) rest
    end
  end.

Definition Valid (p : list ascii) : bool := valid_from 0 p.
Definition ValidString (s : string) : bool := Valid (list_ascii_of_string s).

End utf8.

(** ** encoding/json, the part that the descriptor exercises

    [Marshal] of a struct walks its fields in declaration order and writes a
    compact object; [Unmarshal] first checks the whole input against the JSON
    grammar, then stores the members one by one, keeps the first type error
    and goes on with the remaining members. *)
Module json.

Definition bytes (s : string) : list ascii := list_ascii_of_string s.

Definition quote : ascii := byte_of 34.
Definition backslash : ascii := byte_of 92.

Inductive value : Type :=
| Null
| Bool (b : bool)
| Number (lit : list ascii)
| Str (s : list ascii)
| Array (vs : list value)
| Object (ms : list (list ascii * value)).

(** *** Strings *)

Definition hexdigit (n : Z) : ascii := byte_of (if n <? 10 then 48 + n else 87 + n).

Definition hexval (c : ascii) : option Z :=
  let b := byte_val c in
  if (48 <=? b) && (b <=? 57) then Some (b - 48)
  else if (97 <=? b) && (b <=? 102) then Some (b - 87)
  else if (65 <=? b) && (b <=? 70) then Some (b - 55)
  else None.

Definition getu4 (h1 h2 h3 h4 : ascii) : option Z :=
  match hexval h1, hexval h2, hexval h3, hexval h4 with
  | Some a, Some b, Some c, Some d => Some (((a * 16 + b) * 16 + c) * 16 + d)
  | _, _, _, _ => None
  end.

(** Bytes below 0x80 that [Marshal] writes as they are (its escaping of
    [<], [>] and [&] is on). *)
Definition htmlSafe (b : Z) : bool :=
  (32 <=? b) && negb (b =? 34) && negb (b =? 92)
  && negb (b =? 60) && negb (b =? 62) && negb (b =? 38).

Definition escape (b : Z) : list ascii :=
  if (b =? 92) || (b =? 34) then [backslash; byte_of b]
  else if b =? 10 then [backslash; "n"%char]
  else if b =? 13 then [backslash; "r"%char]
  else if b =? 9 then [backslash; "t"%char]
  else [backslash; "u"%char; "0"%char; "0"%char; hexdigit (b / 16); hexdigit (b mod 16)].

(** The body of a string literal.  [skip] counts the bytes of a rune already
    written that are still to be passed over. *)
Fixpoint encode_bytes (skip : nat) (s : list ascii) : list ascii :=
  match s with
  | [] => []
  | c :: rest =>
    match skip with
    | S k => encode_bytes k rest
    | O =>
      let b := byte_val c in
      if b <? utf8.RuneSelf then
        (if htmlSafe b then [c] else escape b) ++ encode_bytes 0 rest
      else
        let '(r, size) := utf8.DecodeRune s in
        if (r =? utf8.RuneError) && (size =? 1)%nat
        then backslash :: bytes "ufffd" ++ encode_bytes 0 rest
        else if (r =? 8232) || (r =? 8233)
        then backslash :: bytes "u202" ++ hexdigit (r mod 16) :: encode_bytes (size - 1) rest
        else take size s ++ encode_bytes (size - 1) rest
    end
  end.

Definition encode_string (s : list ascii) : list ascii :=
  quote :: encode_bytes 0 s ++ [quote].

Definition simple_escape (e : ascii) : option ascii :=
  let b := byte_val e in
  if (b =? 34) || (b =? 92) || (b =? 47) then Some e
  else if b =? 98 then Some (byte_of 8)
  else if b =? 102 then Some (byte_of 12)
  else if b =? 110 then Some (byte_of 10)
  else if b =? 114 then Some (byte_of 13)
  else if b =? 116 then Some (byte_of 9)
  else None.

(** The rune of a UTF-16 surrogate pair, U+FFFD when the pair is invalid. *)
Definition utf16_DecodeRune (r1 r2 : Z) : Z :=
  if (55296 <=? r1) && (r1 <? 56320) && (56320 <=? r2) && (r2 <? 57344)
  then (r1 - 55296) * 1024 + (r2 - 56320) + 65536
  else utf8.RuneError.

Definition is_u_escape (a1 a2 : ascii) : bool :=
  (byte_val a1 =? 92) && (byte_val a2 =? 117).

(** Reads a string literal after its opening quote: the decoded bytes and
    the input after the closing quote.  [None] is a syntax error. *)
Fixpoint unquote_body (skip : nat) (s : list ascii) : option (list ascii * list ascii) :=
  match s with
  | [] => None
  | c :: rest =>
    match skip with
    | S k => unquote_body k rest
    | O =>
      let b := byte_val c in
      if b =? 34 then Some ([], rest)
      else if b <? 32 then None
      else if b =? 92 then
        match rest with
        | [] => None
        | e :: rest1 =>
          if byte_val e =? 117 then
            match rest1 with
            | h1 :: h2 :: h3 :: h4 :: rest2 =>
              match getu4 h1 h2 h3 h4 with
              | None => None
              | Some rr =>
                if utf8.surrogate rr then
                  match rest2 with
                  | a1 :: a2 :: g1 :: g2 :: g3 :: g4 :: rest3 =>
                    match (if is_u_escape a1 a2 then getu4 g1 g2 g3 g4 else None) with
                    | Some rr1 =>
                      let dec := utf16_DecodeRune rr rr1 in
                      if dec =? utf8.RuneError
                      then '(out, tl) ← unquote_body 0 rest2;
                           Some (utf8.EncodeRune utf8.RuneError ++ out, tl)
                      else '(out, tl) ← unquote_body 0 rest3;
                           Some (utf8.EncodeRune dec ++ out, tl)
                    | None =>
                      '(out, tl) ← unquote_body 0 rest2;
                      Some (utf8.EncodeRune utf8.RuneError ++ out, tl)
                    end
                  | _ =>
                    '(out, tl) ← unquote_body 0 rest2;
                    Some (utf8.EncodeRune utf8.RuneError ++ out, tl)
                  end
                else
                  '(out, tl) ← unquote_body 0 rest2;
                  Some (utf8.EncodeRune rr ++ out, tl)
              end
            | _ => None
            end
          else
            match simple_escape e with
            | None => None
            | Some d => '(out, tl) ← unquote_body 0 rest1; Some (d :: out, tl)
            end
        end
      else if b <? utf8.RuneSelf then
        '(out, tl) ← unquote_body 0 rest; Some (c :: out, tl)
      else
        let '(r, size) := utf8.DecodeRune s in
        '(out, tl) ← unquote_body (size - 1) rest;
        Some (utf8.EncodeRune r ++ out, tl)
    end
  end.

(** *** Numbers *)

Definition is_digit (c : ascii) : bool := (48 <=? byte_val c) && (byte_val c <=? 57).

Fixpoint chars_of_uint (d : Decimal.uint) : list ascii :=
  match d with
  | Nil => []
  | D0 d => "0"%char :: chars_of_uint d
  | D1 d => "1"%char :: chars_of_uint d
  | D2 d => "2"%char :: chars_of_uint d
  | D3 d => "3"%char :: chars_of_uint d
  | D4 d => "4"%char :: chars_of_uint d
  | D5 d => "5"%char :: chars_of_uint d
  | D6 d => "6"%char :: chars_of_uint d
  | D7 d => "7"%char :: chars_of_uint d
  | D8 d => "8"%char :: chars_of_uint d
  | D9 d => "9"%char :: chars_of_uint d
  end.

(** [strconv.FormatInt z 10]. *)
Definition FormatInt (z : Z) : list ascii :=
  match Z.to_int z with
  | Decimal.Pos d => chars_of_uint d
  | Decimal.Neg d => "-"%char :: chars_of_uint d
  end.

Definition digit_cons (c : ascii) : option (Decimal.uint -> Decimal.uint) :=
  let b := byte_val c in
  if b =? 48 then Some D0 else if b =? 49 then Some D1
  else if b =? 50 then Some D2 else if b =? 51 then Some D3
  else if b =? 52 then Some D4 else if b =? 53 then Some D5
  else if b =? 54 then Some D6 else if b =? 55 then Some D7
  else if b =? 56 then Some D8 else if b =? 57 then Some D9
  else None.

(** The decimal number that [s] spells, when every byte of [s] is a digit. *)
Fixpoint uint_of_chars (s : list ascii) : option Decimal.uint :=
  match s with
  | [] => Some Nil
  | c :: rest =>
    match digit_cons c, uint_of_chars rest with
    | Some k, Some d => Some (k d)
    | _, _ => None
    end
  end.

Definition ParseUint (lit : list ascii) : option Z :=
  match lit with
  | [] => None
  | _ => Z.of_uint <$> uint_of_chars lit
  end.

(** [strconv.ParseInt lit 10 64] on a JSON number literal (which never
    starts with a plus sign). *)
Definition ParseInt (lit : list ascii) : option Z :=
  z ← match lit with
      | c :: ds => if byte_val c =? 45 then Z.opp <$> ParseUint ds else ParseUint lit
      | [] => None
      end;
  if in_int64 z then Some z else None.

(** Splits off the longest prefix of digits. *)
Fixpoint span_digits (s : list ascii) : list ascii * list ascii :=
  match s with
  | c :: rest =>
    if is_digit c then let '(ds, tl) := span_digits rest in (c :: ds, tl) else ([], s)
  | [] => ([], [])
  end.

Definition scan_sign (s : list ascii) : list ascii * list ascii :=
  match s with
  | c :: rest => if byte_val c =? 45 then ([c], rest) else ([], s)
  | [] => ([], [])
  end.

Definition scan_int (s : list ascii) : option (list ascii * list ascii) :=
  match s with
  | c :: rest =>
    if byte_val c =? 48 then Some ([c], rest)
    else if is_digit c then Some (span_digits s)
    else None
  | [] => None
  end.

Definition scan_frac (s : list ascii) : option (list ascii * list ascii) :=
  match s with
  | c :: rest =>
    if byte_val c =? 46 then
      match span_digits rest with
      | ([], _) => None
      | (ds, tl) => Some (c :: ds, tl)
      end
    else Some ([], s)
  | [] => Some ([], [])
  end.

Definition scan_exp (s : list ascii) : option (list ascii * list ascii) :=
  match s with
  | c :: rest =>
    if (byte_val c =? 101) || (byte_val c =? 69) then
      let '(sg, rest1) :=
        match rest with
        | c1 :: r1 => if (byte_val c1 =? 43) || (byte_val c1 =? 45) then ([c1], r1) else ([], rest)
        | [] => ([], [])
        end in
      match span_digits rest1 with
      | ([], _) => None
      | (ds, tl) => Some (c :: sg ++ ds, tl)
      end
    else Some ([], s)
  | [] => Some ([], [])
  end.

(** A number literal of the JSON grammar at the head of [s], and the rest. *)
Definition scan_number (s : list ascii) : option (list ascii * list ascii) :=
  let '(sg, s1) := scan_sign s in
  '(ip, s2) ← scan_int s1;
  '(fp, s3) ← scan_frac s2;
  '(ep, s4) ← scan_exp s3;
  Some (sg ++ ip ++ fp ++ ep, s4).

(** *** Values *)

Definition is_space (c : ascii) : bool :=
  let b := byte_val c in (b =? 32) || (b =? 9) || (b =? 13) || (b =? 10).

Fixpoint skip_space (s : list ascii) : list ascii :=
  match s with
  | c :: rest => if is_space c then skip_space rest else s
  | [] => []
  end.

Fixpoint strip_prefix (p s : list ascii) : option (list ascii) :=
  match p, s with
  | [], _ => Some s
  | a :: p', b :: s' => if Ascii.eqb a b then strip_prefix p' s' else None
  | _ :: _, [] => None
  end.

Fixpoint parse_value (fuel : nat) (s : list ascii) : option (value * list ascii) :=
  match fuel with
  | O => None
  | S f =>
    match skip_space s with
    | [] => None
    | c :: rest =>
      let b := byte_val c in
      if b =? 123 then
        match skip_space rest with
        | c' :: rest' =>
          if byte_val c' =? 125 then Some (Object [], rest')
          else '(ms, tl) ← parse_members f rest; Some (Object ms, tl)
        | [] => None
        end
      else if b =? 91 then
        match skip_space rest with
        | c' :: rest' =>
          if byte_val c' =? 93 then Some (Array [], rest')
          else '(vs, tl) ← parse_elements f rest; Some (Array vs, tl)
        | [] => None
        end
      else if b =? 34 then
        '(str, tl) ← unquote_body 0 rest; Some (Str str, tl)
      else if (b =? 45) || is_digit c then
        '(lit, tl) ← scan_number (c :: rest); Some (Number lit, tl)
      else if b =? 116 then tl ← strip_prefix (bytes "rue") rest; Some (Bool true, tl)
      else if b =? 102 then tl ← strip_prefix (bytes "alse") rest; Some (Bool false, tl)
      else if b =? 110 then tl ← strip_prefix (bytes "ull") rest; Some (Null, tl)
      else None
    end
  end
with parse_elements (fuel : nat) (s : list ascii) : option (list value * list ascii) :=
  match fuel with
  | O => None
  | S f =>
    '(v, s1) ← parse_value f s;
    match skip_space s1 with
    | c :: s2 =>
      if byte_val c =? 44 then '(vs, tl) ← parse_elements f s2; Some (v :: vs, tl)
      else if byte_val c =? 93 then Some ([v], s2)
      else None
    | [] => None
    end
  end
with parse_members (fuel : nat) (s : list ascii) : option (list (list ascii * value) * list ascii) :=
  match fuel with
  | O => None
  | S f =>
    match skip_space s with
    | q :: s0 =>
      if byte_val q =? 34 then
        '(key, s1) ← unquote_body 0 s0;
        match skip_space s1 with
        | colon :: s2 =>
          if byte_val colon =? 58 then
            '(v, s3) ← parse_value f s2;
            match skip_space s3 with
            | c :: s4 =>
              if byte_val c =? 44 then '(ms, tl) ← parse_members f s4; Some ((key, v) :: ms, tl)
              else if byte_val c =? 125 then Some ([(key, v)], s4)
              else None
            | [] => None
            end
          else None
        | [] => None
        end
      else None
    | [] => None
    end
  end.

(** The value that the whole of [data] spells; [None] is a syntax error.
    Every step of the parser takes at least one byte, so the length of the
    input is fuel enough. *)
Definition parse (data : list ascii) : option value :=
  match parse_value (S (length data)) data with
  | Some (v, tl) => match skip_space tl with [] => Some v | _ => None end
  | None => None
  end.

Fixpoint render (v : value) : list ascii :=
  match v with
  | Null => bytes "null"
  | Bool true => bytes "true"
  | Bool false => bytes "false"
  | Number lit => lit
  | Str s => encode_string s
  | Array vs =>
    "["%char ::
    (fix elements (vs : list value) : list ascii :=
       match vs with
       | [] => []
       | [v] => render v
       | v :: vs' => render v ++ ","%char :: elements vs'
       end) vs ++ ["]"%char]
  | Object ms =>
    "{"%char ::
    (fix members (ms : list (list ascii * value)) : list ascii :=
       match ms with
       | [] => []
       | [(k, v)] => encode_string k ++ ":"%char :: render v
       | (k, v) :: ms' => encode_string k ++ ":"%char :: render v ++ ","%char :: members ms'
       end) ms ++ ["}"%char]
  end.

End json.

(** ** The data model of [tuna.go] *)

Module Protocol.
Definition TCP : string := "tcp".
Definition UDP : string := "udp".
End Protocol.

Definition DefaultSubscriptionPrefix : string := "tuna+1.".
Definition DefaultReverseServiceName : string := "reverse".

Record Service : Type := {
  Name : string;
  TCP : list Z;
  UDP : list Z
}.

(** A value of type [[]int]: the nil slice, or a slice that is not nil with
    its elements, of which there may be none ([[]int{}]).  Both have length
    zero then, and [reflect.DeepEqual] tells them apart. *)
Inductive int_slice : Type :=
| nil_slice
| make_slice (elems : list Z).

Definition elements (s : int_slice) : list Z :=
  match s with
  | nil_slice => []
  | make_slice elems => elems
  end.

Definition len (s : int_slice) : nat := length (elements s).

(** The published descriptor.  The JSON name of a field and whether it is
    [omitempty] are given by [field_name] and [to_value] below. *)
Record Metadata : Type := {
  IP : string;
  TCPPort : Z;
  UDPPort : Z;
  ServiceId : Z;
  ServiceTCP : int_slice;
  ServiceUDP : int_slice;
  Price : string;
  BeneficiaryAddr : string
}.

(** [Metadata{}]: every field at its zero value. *)
Definition zero_Metadata : Metadata :=
  {| IP := ""; TCPPort := 0; UDPPort := 0; ServiceId := 0;
     ServiceTCP := nil_slice; ServiceUDP := nil_slice; Price := ""; BeneficiaryAddr := "" |}.

(** *** The descriptor codec: [json.Marshal] and [json.Unmarshal] at type [Metadata] *)

Inductive field : Type :=
| fIP | fTCPPort | fUDPPort | fServiceId
| fServiceTCP | fServiceUDP | fPrice | fBeneficiaryAddr.

Definition field_name (f : field) : string :=
  match f with
  | fIP => "ip"
  | fTCPPort => "tcpPort"
  | fUDPPort => "udpPort"
  | fServiceId => "serviceId"
  | fServiceTCP => "serviceTcp"
  | fServiceUDP => "serviceUdp"
  | fPrice => "price"
  | fBeneficiaryAddr => "beneficiaryAddr"
  end.

Definition fields : list field :=
  [fIP; fTCPPort; fUDPPort; fServiceId; fServiceTCP; fServiceUDP; fPrice; fBeneficiaryAddr].

Definition int_value (z : Z) : json.value := json.Number (json.FormatInt z).
Definition string_value (s : string) : json.value := json.Str (list_ascii_of_string s).
Definition member (f : field) (v : json.value) : list ascii * json.value :=
  (list_ascii_of_string (field_name f), v).

(** The object that [json.Marshal] writes for [m]: the fields in declaration
    order, an [omitempty] field left out when its slice or string has length
    zero. *)
Definition to_value (m : Metadata) : json.value :=
  json.Object
    ([member fIP (string_value (IP m));
      member fTCPPort (int_value (TCPPort m));
      member fUDPPort (int_value (UDPPort m));
      member fServiceId (int_value (ServiceId m))]
     ++ (if (len (ServiceTCP m) =? 0)%nat then []
         else [member fServiceTCP (json.Array (int_value <$> elements (ServiceTCP m)))])
     ++ (if (len (ServiceUDP m) =? 0)%nat then []
         else [member fServiceUDP (json.Array (int_value <$> elements (ServiceUDP m)))])
     ++ (if (String.length (Price m) =? 0)%nat then []
         else [member fPrice (string_value (Price m))])
     ++ (if (String.length (BeneficiaryAddr m) =? 0)%nat then []
         else [member fBeneficiaryAddr (string_value (BeneficiaryAddr m))])).

(** Marshalling a struct of strings, integers and integer slices has no
    failing case. *)
Definition json_Marshal (m : Metadata) : list ascii * option error :=
  (json.render (to_value m), None).

Definition lower (c : ascii) : Z :=
  let b := byte_val c in if (65 <=? b) && (b <=? 90) then b + 32 else b.

(** The decoder's case-insensitive comparison of a field name [s] (ASCII
    letters) with an object key [t]: letters match in either case, and the
    long s (U+017F) and the Kelvin sign (U+212A) match [s] and [k]. *)
Fixpoint equalFold (s t : list ascii) : bool :=
  match s, t with
  | [], [] => true
  | sb :: s', tb :: t' =>
    if byte_val tb <? utf8.RuneSelf then (lower sb =? lower tb) && equalFold s' t'
    else
      match t' with
      | t1 :: t'' =>
        if (lower sb =? 115) && (byte_val tb =? 197) && (byte_val t1 =? 191)
        then equalFold s' t''
        else
          match t'' with
          | t2 :: t''' =>
            (lower sb =? 107) && (byte_val tb =? 226) && (byte_val t1 =? 132)
            && (byte_val t2 =? 170) && equalFold s' t'''
          | [] => false
          end
      | [] => false
      end
  | _, _ => false
  end.

Definition bytes_eqb (s t : list ascii) : bool :=
  bool_decide (s = t).

(** The field that receives the member named [key]: an exact match if there
    is one, else the first field that matches case-insensitively. *)
Definition find_field (key : list ascii) : option field :=
  match List.find (fun f => bytes_eqb (list_ascii_of_string (field_name f)) key) fields with
  | Some f => Some f
  | None => List.find (fun f => equalFold (list_ascii_of_string (field_name f)) key) fields
  end.

Definition kind_of (v : json.value) : string :=
  match v with
  | json.Null => "null"
  | json.Bool _ => "bool"
  | json.Number _ => "number"
  | json.Str _ => "string"
  | json.Array _ => "array"
  | json.Object _ => "object"
  end.

(** Storing a value into a [string], an [int], a [byte] and a [[]int]: the
    new content of the target and the type error, if any.  A [null] leaves a
    string or an integer as it is and empties a slice. *)
Definition store_string (v : json.value) (old : string) : string * option error :=
  match v with
  | json.Null => (old, None)
  | json.Str s => (string_of_list_ascii s, None)
  | _ => (old, Some (UnmarshalTypeError (kind_of v)))
  end.

Definition store_int (v : json.value) (old : Z) : Z * option error :=
  match v with
  | json.Null => (old, None)
  | json.Number lit =>
    match json.ParseInt lit with
    | Some z => (z, None)
    | None => (old, Some (UnmarshalTypeError "number"))
    end
  | _ => (old, Some (UnmarshalTypeError (kind_of v)))
  end.

Definition store_byte (v : json.value) (old : Z) : Z * option error :=
  match v with
  | json.Null => (old, None)
  | json.Number lit =>
    match json.ParseUint lit with
    | Some z => if in_uint8 z then (z, None) else (old, Some (UnmarshalTypeError "number"))
    | None => (old, Some (UnmarshalTypeError "number"))
    end
  | _ => (old, Some (UnmarshalTypeError (kind_of v)))
  end.

(** The decoder keeps the first error it meets. *)
Definition first_error (e1 e2 : option error) : option error :=
  match e1 with Some _ => e1 | None => e2 end.

(** Elements are stored slot by slot over the slice that is there: a slot
    whose element fails to decode keeps its content, a slot past the old
    length starts at zero (the stale tail of a reused backing array is not
    tracked). *)
Fixpoint store_elements (vs : list json.value) (old : list Z) : list Z * option error :=
  match vs with
  | [] => ([], None)
  | v :: vs' =>
    let '(z, e1) := store_int v (List.hd 0 old) in
    let '(zs, e2) := store_elements vs' (List.tl old) in
    (z :: zs, first_error e1 e2)
  end.

(** A [null] makes the slice nil; an array makes it a slice that is not nil,
    also when the array has no element. *)
Definition store_ints (v : json.value) (old : int_slice) : int_slice * option error :=
  match v with
  | json.Null => (nil_slice, None)
  | json.Array vs =>
    let '(zs, e) := store_elements vs (elements old) in (make_slice zs, e)
  | _ => (old, Some (UnmarshalTypeError (kind_of v)))
  end.

Definition store_field (f : field) (v : json.value) (m : Metadata) : Metadata * option error :=
  match f with
  | fIP =>
    let '(x, e) := store_string v (IP m) in
    ({| IP := x; TCPPort := TCPPort m; UDPPort := UDPPort m; ServiceId := ServiceId m;
        ServiceTCP := ServiceTCP m; ServiceUDP := ServiceUDP m; Price := Price m;
        BeneficiaryAddr := BeneficiaryAddr m |}, e)
  | fTCPPort =>
    let '(x, e) := store_int v (TCPPort m) in
    ({| IP := IP m; TCPPort := x; UDPPort := UDPPort m; ServiceId := ServiceId m;
        ServiceTCP := ServiceTCP m; ServiceUDP := ServiceUDP m; Price := Price m;
        BeneficiaryAddr := BeneficiaryAddr m |}, e)
  | fUDPPort =>
    let '(x, e) := store_int v (UDPPort m) in
    ({| IP := IP m; TCPPort := TCPPort m; UDPPort := x; ServiceId := ServiceId m;
        ServiceTCP := ServiceTCP m; ServiceUDP := ServiceUDP m; Price := Price m;
        BeneficiaryAddr := BeneficiaryAddr m |}, e)
  | fServiceId =>
    let '(x, e) := store_byte v (ServiceId m) in
    ({| IP := IP m; TCPPort := TCPPort m; UDPPort := UDPPort m; ServiceId := x;
        ServiceTCP := ServiceTCP m; ServiceUDP := ServiceUDP m; Price := Price m;
        BeneficiaryAddr := BeneficiaryAddr m |}, e)
  | fServiceTCP =>
    let '(x, e) := store_ints v (ServiceTCP m) in
    ({| IP := IP m; TCPPort := TCPPort m; UDPPort := UDPPort m; ServiceId := ServiceId m;
        ServiceTCP := x; ServiceUDP := ServiceUDP m; Price := Price m;
        BeneficiaryAddr := BeneficiaryAddr m |}, e)
  | fServiceUDP =>
    let '(x, e) := store_ints v (ServiceUDP m) in
    ({| IP := IP m; TCPPort := TCPPort m; UDPPort := UDPPort m; ServiceId := ServiceId m;
        ServiceTCP := ServiceTCP m; ServiceUDP := x; Price := Price m;
        BeneficiaryAddr := BeneficiaryAddr m |}, e)
  | fPrice =>
    let '(x, e) := store_string v (Price m) in
    ({| IP := IP m; TCPPort := TCPPort m; UDPPort := UDPPort m; ServiceId := ServiceId m;
        ServiceTCP := ServiceTCP m; ServiceUDP := ServiceUDP m; Price := x;
        BeneficiaryAddr := BeneficiaryAddr m |}, e)
  | fBeneficiaryAddr =>
    let '(x, e) := store_string v (BeneficiaryAddr m) in
    ({| IP := IP m; TCPPort := TCPPort m; UDPPort := UDPPort m; ServiceId := ServiceId m;
        ServiceTCP := ServiceTCP m; ServiceUDP := ServiceUDP m; Price := Price m;
        BeneficiaryAddr := x |}, e)
  end.

(** The members of an object are stored in input order; a member with no
    matching field is skipped. *)
Fixpoint store_members (ms : list (list ascii * json.value)) (m : Metadata) : Metadata * option error :=
  match ms with
  | [] => (m, None)
  | (key, v) :: ms' =>
    match find_field key with
    | None => store_members ms' m
    | Some f =>
      let '(m1, e1) := store_field f v m in
      let '(m2, e2) := store_members ms' m1 in
      (m2, first_error e1 e2)
    end
  end.

(** [json.Unmarshal data m]: what [m] holds afterwards, and the error. *)
Definition json_Unmarshal (data : list ascii) (m : Metadata) : Metadata * option error :=
  match json.parse data with
  | None => (m, Some SyntaxError)
  | Some json.Null => (m, None)
  | Some (json.Object ms) => store_members ms m
  | Some v => (m, Some (UnmarshalTypeError (kind_of v)))
  end.

(** *** The heap of descriptors *)

Definition loc : Type := positive.

(** [&Metadata{...}]: a location that no live record has. *)
Definition alloc (m : Metadata) (h : gmap loc Metadata) : loc * gmap loc Metadata :=
  let l := fresh (dom h) in (l, <[l := m]> h).

Definition ReadMetadata (metadataString : string) (h : gmap loc Metadata)
  : (loc * option error) * gmap loc Metadata :=
  let '(metadata, h1) := alloc zero_Metadata h in
  let '(m, err) := json_Unmarshal (list_ascii_of_string metadataString) zero_Metadata in
  ((metadata, err), <[metadata := m]> h1).

(** [None] stands for the process abort of [log.Fatalln] on a marshalling
    error. *)
Definition CreateRawMetadata (serviceId : Z) (serviceTCP serviceUDP : int_slice) (ip : string)
    (tcpPort udpPort : Z) (price beneficiaryAddr : string) : option (list ascii) :=
  let metadata :=
    {| IP := ip; TCPPort := tcpPort; UDPPort := udpPort; ServiceId := serviceId;
       ServiceTCP := serviceTCP; ServiceUDP := serviceUDP; Price := price;
       BeneficiaryAddr := beneficiaryAddr |} in
  match json_Marshal metadata with
  | (metadataRaw, None) => Some metadataRaw
  | (_, Some _) => None
  end.

(** ** Transport handles and the [Close] helper *)

Definition handle : Type := positive.
Definition chan : Type := positive.

(** The kinds of [reflect] that can hold a dynamic value of an interface.
    [IsNil] is defined on the first six. *)
Inductive Kind : Type :=
| Chan | Func | Map | Ptr | Slice | UnsafePointer | Struct | Array_ | Basic.

Definition nilable (k : Kind) : bool :=
  match k with
  | Chan | Func | Map | Ptr | Slice | UnsafePointer => true
  | Struct | Array_ | Basic => false
  end.

(** A value of interface type [io.Closer]: the nil interface, or a dynamic
    value of some kind that is nil ([None]) or stands for connection [h]. *)
Inductive Closer : Type :=
| nil_Closer
| dyn (k : Kind) (target : option handle).

(** A [net.Conn] as the program holds it: the nil interface or a pointer
    (the connection types of package [net] are pointers). *)
Inductive NetConn : Type :=
| no_conn
| conn_ptr (target : option handle).

Definition Closer_of_NetConn (conn : NetConn) : Closer :=
  match conn with
  | no_conn => nil_Closer
  | conn_ptr t => dyn Ptr t
  end.

(** A [*net.UDPConn] passed as an [io.Closer] is never the nil interface. *)
Definition Closer_of_UDPConn (conn : option handle) : Closer := dyn Ptr conn.

(** ** The session aggregate *)

Module Common.
Record t : Type := {

  Service : Service;
  EntryToExitMaxPrice : Z;
  ExitToEntryMaxPrice : Z;
  DialTimeout : Z;
  SubscriptionPrefix : string;
  Reverse : bool;
  ReverseMetadata : option loc;
  EntryToExitPrice : Z;
  ExitToEntryPrice : Z;
  PaymentReceiver : string;
  Metadata : option loc;
  connected : bool;
  tcpConn : NetConn;
  udpConn : option handle;
  udpReadChan : option chan;
  udpWriteChan : option chan;
  udpCloseChan : option chan;
  tcpListener : option handle

}.

Definition set_PaymentReceiver (v : string) (c : t) : t :=
  {| Service := Service c;
     EntryToExitMaxPrice := EntryToExitMaxPrice c;
     ExitToEntryMaxPrice := ExitToEntryMaxPrice c;
     DialTimeout := DialTimeout c;
     SubscriptionPrefix := SubscriptionPrefix c;
     Reverse := Reverse c;
     ReverseMetadata := ReverseMetadata c;
     EntryToExitPrice := EntryToExitPrice c;
     ExitToEntryPrice := ExitToEntryPrice c;
     PaymentReceiver := v;
     Metadata := Metadata c;
     connected := connected c;
     tcpConn := tcpConn c;
     udpConn := udpConn c;
     udpReadChan := udpReadChan c;
     udpWriteChan := udpWriteChan c;
     udpCloseChan := udpCloseChan c;
     tcpListener := tcpListener c |}.

Definition set_Metadata (v : option loc) (c : t) : t :=
  {| Service := Service c;
     EntryToExitMaxPrice := EntryToExitMaxPrice c;
     ExitToEntryMaxPrice := ExitToEntryMaxPrice c;
     DialTimeout := DialTimeout c;
     SubscriptionPrefix := SubscriptionPrefix c;
     Reverse := Reverse c;
     ReverseMetadata := ReverseMetadata c;
     EntryToExitPrice := EntryToExitPrice c;
     ExitToEntryPrice := ExitToEntryPrice c;
     PaymentReceiver := PaymentReceiver c;
     Metadata := v;
     connected := connected c;
     tcpConn := tcpConn c;
     udpConn := udpConn c;
     udpReadChan := udpReadChan c;
     udpWriteChan := udpWriteChan c;
     udpCloseChan := udpCloseChan c;
     tcpListener := tcpListener c |}.

Definition set_EntryToExitPrice (v : Z) (c : t) : t :=
  {| Service := Service c;
     EntryToExitMaxPrice := EntryToExitMaxPrice c;
     ExitToEntryMaxPrice := ExitToEntryMaxPrice c;
     DialTimeout := DialTimeout c;
     SubscriptionPrefix := SubscriptionPrefix c;
     Reverse := Reverse c;
     ReverseMetadata := ReverseMetadata c;
     EntryToExitPrice := v;
     ExitToEntryPrice := ExitToEntryPrice c;
     PaymentReceiver := PaymentReceiver c;
     Metadata := Metadata c;
     connected := connected c;
     tcpConn := tcpConn c;
     udpConn := udpConn c;
     udpReadChan := udpReadChan c;
     udpWriteChan := udpWriteChan c;
     udpCloseChan := udpCloseChan c;
     tcpListener := tcpListener c |}.

Definition set_ExitToEntryPrice (v : Z) (c : t) : t :=
  {| Service := Service c;
     EntryToExitMaxPrice := EntryToExitMaxPrice c;
     ExitToEntryMaxPrice := ExitToEntryMaxPrice c;
     DialTimeout := DialTimeout c;
     SubscriptionPrefix := SubscriptionPrefix c;
     Reverse := Reverse c;
     ReverseMetadata := ReverseMetadata c;
     EntryToExitPrice := EntryToExitPrice c;
     ExitToEntryPrice := v;
     PaymentReceiver := PaymentReceiver c;
     Metadata := Metadata c;
     connected := connected c;
     tcpConn := tcpConn c;
     udpConn := udpConn c;
     udpReadChan := udpReadChan c;
     udpWriteChan := udpWriteChan c;
     udpCloseChan := udpCloseChan c;
     tcpListener := tcpListener c |}.

Definition set_connected (v : bool) (c : t) : t :=
  {| Service := Service c;
     EntryToExitMaxPrice := EntryToExitMaxPrice c;
     ExitToEntryMaxPrice := ExitToEntryMaxPrice c;
     DialTimeout := DialTimeout c;
     SubscriptionPrefix := SubscriptionPrefix c;
     Reverse := Reverse c;
     ReverseMetadata := ReverseMetadata c;
     EntryToExitPrice := EntryToExitPrice c;
     ExitToEntryPrice := ExitToEntryPrice c;
     PaymentReceiver := PaymentReceiver c;
     Metadata := Metadata c;
     connected := v;
     tcpConn := tcpConn c;
     udpConn := udpConn c;
     udpReadChan := udpReadChan c;
     udpWriteChan := udpWriteChan c;
     udpCloseChan := udpCloseChan c;
     tcpListener := tcpListener c |}.

Definition set_tcpConn (v : NetConn) (c : t) : t :=
  {| Service := Service c;
     EntryToExitMaxPrice := EntryToExitMaxPrice c;
     ExitToEntryMaxPrice := ExitToEntryMaxPrice c;
     DialTimeout := DialTimeout c;
     SubscriptionPrefix := SubscriptionPrefix c;
     Reverse := Reverse c;
     ReverseMetadata := ReverseMetadata c;
     EntryToExitPrice := EntryToExitPrice c;
     ExitToEntryPrice := ExitToEntryPrice c;
     PaymentReceiver := PaymentReceiver c;
     Metadata := Metadata c;
     connected := connected c;
     tcpConn := v;
     udpConn := udpConn c;
     udpReadChan := udpReadChan c;
     udpWriteChan := udpWriteChan c;
     udpCloseChan := udpCloseChan c;
     tcpListener := tcpListener c |}.

Definition set_udpConn (v : option handle) (c : t) : t :=
  {| Service := Service c;
     EntryToExitMaxPrice := EntryToExitMaxPrice c;
     ExitToEntryMaxPrice := ExitToEntryMaxPrice c;
     DialTimeout := DialTimeout c;
     SubscriptionPrefix := SubscriptionPrefix c;
     Reverse := Reverse c;
     ReverseMetadata := ReverseMetadata c;
     EntryToExitPrice := EntryToExitPrice c;
     ExitToEntryPrice := ExitToEntryPrice c;
     PaymentReceiver := PaymentReceiver c;
     Metadata := Metadata c;
     connected := connected c;
     tcpConn := tcpConn c;
     udpConn := v;
     udpReadChan := udpReadChan c;
     udpWriteChan := udpWriteChan c;
     udpCloseChan := udpCloseChan c;
     tcpListener := tcpListener c |}.

Definition set_udpReadChan (v : option chan) (c : t) : t :=
  {| Service := Service c;
     EntryToExitMaxPrice := EntryToExitMaxPrice c;
     ExitToEntryMaxPrice := ExitToEntryMaxPrice c;
     DialTimeout := DialTimeout c;
     SubscriptionPrefix := SubscriptionPrefix c;
     Reverse := Reverse c;
     ReverseMetadata := ReverseMetadata c;
     EntryToExitPrice := EntryToExitPrice c;
     ExitToEntryPrice := ExitToEntryPrice c;
     PaymentReceiver := PaymentReceiver c;
     Metadata := Metadata c;
     connected := connected c;
     tcpConn := tcpConn c;
     udpConn := udpConn c;
     udpReadChan := v;
     udpWriteChan := udpWriteChan c;
     udpCloseChan := udpCloseChan c;
     tcpListener := tcpListener c |}.

Definition set_udpWriteChan (v : option chan) (c : t) : t :=
  {| Service := Service c;
     EntryToExitMaxPrice := EntryToExitMaxPrice c;
     ExitToEntryMaxPrice := ExitToEntryMaxPrice c;
     DialTimeout := DialTimeout c;
     SubscriptionPrefix := SubscriptionPrefix c;
     Reverse := Reverse c;
     ReverseMetadata := ReverseMetadata c;
     EntryToExitPrice := EntryToExitPrice c;
     ExitToEntryPrice := ExitToEntryPrice c;
     PaymentReceiver := PaymentReceiver c;
     Metadata := Metadata c;
     connected := connected c;
     tcpConn := tcpConn c;
     udpConn := udpConn c;
     udpReadChan := udpReadChan c;
     udpWriteChan := v;
     udpCloseChan := udpCloseChan c;
     tcpListener := tcpListener c |}.

End Common.

(** ** Program state, events and control flow *)

Inductive result (A : Type) : Type :=
| Ok (a : A)
| Err (e : error).
Arguments Ok {A} a.
Arguments Err {A} e.

(** One constructor for each logging statement of the code. *)
Inductive logline : Type :=
| CouldntUnmarshalMetadata (e : error)
| LogError (e : error)
| EntryToExitTooHigh (price max : Z)
| ExitToEntryTooHigh (price max : Z)
| CouldntConnectTCP (address : string) (e : error)
| ConnectedTCP (address : string)
| CouldntConnectUDP (ip : string) (port : Z) (e : error)
| ConnectedUDP (ip : string) (port : Z)
| ErrorWhileClosing (e : error)
| CouldntSubscribe (topic : string) (e : error)
| Subscribed (topic : string) (txid : string).

(** What the session does to its environment, in program order. *)
Inductive event : Type :=
| EvLog (l : logline)
| EvGetSubscribersCount (topic : string)
| EvGetSubscribers (topic : string) (offset limit : Z) (meta txPool : bool)
| EvCloseConn (h : handle)
| EvDialTimeout (network address : string) (timeout : Z)
| EvDialUDP (network ip : string) (port : Z)
| EvStartUDPReaderWriter (conn : handle).

(** [conns] tells which connections are open; [clock] counts the rounds of
    the negotiation loop and indexes the answers of the environment. *)
Record State : Type := {
  common : Common.t;
  heap : gmap loc Metadata;
  conns : gmap handle bool;
  trace : list event;
  clock : nat
}.

(** How a block of the negotiation loop is left other than by falling off
    its end. *)
Inductive exit : Type :=
| ContinueRandomSubscriber
| BreakRandomSubscriber
| Return (err : error)
| Panic (msg : string).

Definition M (A : Type) : Type := State -> (A + exit) * State.

#[global] Instance M_ret : MRet M := fun A a st => (inl a, st).
#[global] Instance M_bind : MBind M := fun A B f m st =>
  match m st with
  | (inl a, st') => f a st'
  | (inr x, st') => (inr x, st')
  end.

Definition leave {A : Type} (x : exit) : M A := fun st => (inr x, st).
Definition get : M State := fun st => (inl st, st).
Definition modify (f : State -> State) : M unit := fun st => (inl tt, f st).

Definition with_common (f : Common.t -> Common.t) (st : State) : State :=
  {| common := f (common st); heap := heap st; conns := conns st;
     trace := trace st; clock := clock st |}.
Definition with_heap (f : gmap loc Metadata -> gmap loc Metadata) (st : State) : State :=
  {| common := common st; heap := f (heap st); conns := conns st;
     trace := trace st; clock := clock st |}.
Definition with_conns (f : gmap handle bool -> gmap handle bool) (st : State) : State :=
  {| common := common st; heap := heap st; conns := f (conns st);
     trace := trace st; clock := clock st |}.
Definition record (ev : event) (st : State) : State :=
  {| common := common st; heap := heap st; conns := conns st;
     trace := trace st ++ [ev]; clock := clock st |}.
Definition tick (st : State) : State :=
  {| common := common st; heap := heap st; conns := conns st;
     trace := trace st; clock := S (clock st) |}.

Definition emit (ev : event) : M unit := modify (record ev).
Definition log_Println (l : logline) : M unit := emit (EvLog l).

(** [*p] for a descriptor pointer. *)
Definition deref (p : option loc) : M Metadata := fun st =>
  match p with
  | Some l =>
    match heap st !! l with
    | Some m => (inl m, st)
    | None => (inr (Panic "invalid memory address or nil pointer dereference"), st)
    end
  | None => (inr (Panic "invalid memory address or nil pointer dereference"), st)
  end.

(** *** [Close] *)

Definition closed_error : error := errorString "use of closed network connection".

(** The [Close] method of a connection: closes an open connection, fails on
    one that is closed already. *)
Definition conn_Close (h : handle) : M (option error) := fun st =>
  match conns st !! h with
  | Some true => (inl None, record (EvCloseConn h) (with_conns <[h := false]> st))
  | _ => (inl (Some closed_error), record (EvCloseConn h) st)
  end.

Definition method_Close (conn : Closer) : M (option error) :=
  match conn with
  | dyn _ (Some h) => conn_Close h
  | _ => leave (Panic "invalid memory address or nil pointer dereference")
  end.

(** [reflect.ValueOf(conn).IsNil()]. *)
Definition reflect_IsNil (conn : Closer) : M bool :=
  match conn with
  | nil_Closer => leave (Panic "reflect: call of reflect.Value.IsNil on zero Value")
  | dyn k target =>
    if nilable k then mret (match target with None => true | Some _ => false end)
    else leave (Panic "reflect: call of reflect.Value.IsNil on a Value that cannot be nil")
  end.

(** [conn == nil] on an interface value. *)
Definition is_nil_interface (conn : Closer) : bool :=
  match conn with nil_Closer => true | dyn _ _ => false end.

Definition Close (conn : Closer) : M unit :=
  isnil ← (if is_nil_interface conn then mret true else reflect_IsNil conn);
  if isnil : bool then mret tt
  else
    err ← method_Close conn;
    match err with
    | Some e => log_Println (ErrorWhileClosing e)
    | None => mret tt
    end.

(** ** Metadata of the session *)

Definition SetMetadata (metadataString : string) : M bool := fun st =>
  let '((metadata, err), h) := ReadMetadata metadataString (heap st) in
  let st1 := with_common (Common.set_Metadata (Some metadata)) (with_heap (fun _ => h) st) in
  match err with
  | Some e => (inl false, record (EvLog (CouldntUnmarshalMetadata e)) st1)
  | None => (inl true, st1)
  end.

(** ** The environment of a session

    The wallet's directory queries, the address and key functions of the
    chain libraries, [ParsePrice] (a function of this package whose file is
    not part of the sources at hand), the random source and the dialler.
    The first argument of a query is the round of the negotiation loop in
    which it is asked, so that answers may change from round to round. *)
Record Env : Type := {
  GetSubscribersCount : nat -> string -> result Z;
  GetSubscribers : nat -> string -> Z -> Z -> bool -> bool -> result (list (string * string));
  rand_source : nat -> Z;
  ParseClientAddress : string -> result (list ascii);
  NewPubKeyFromBytes : list ascii -> result (list ascii);
  CreateProgramHash : list ascii -> result (list ascii);
  ToAddress : list ascii -> result string;
  ParsePrice : string -> result (Z * Z);
  DialTimeout : nat -> string -> string -> Z -> option error;
  DialUDP : nat -> string -> string -> Z -> option error
}.

Definition Itoa (z : Z) : string := string_of_list_ascii (json.FormatInt z).
Definition Second : Z := 1000000000.

(** The two pumps that [StartUDPReaderWriter] spawns are modelled in module
    [pumps]; here the call is an event. *)
Definition StartUDPReaderWriter (conn : handle) : M unit :=
  emit (EvStartUDPReaderWriter conn).

Section Negotiation.

Variable E : Env.

(** [rand.Intn n] for [n > 0]. *)
Definition rand_Intn (round : nat) (n : Z) : Z := rand_source E round mod n.

Definition is_set {A : Type} (p : option A) : bool :=
  match p with Some _ => true | None => false end.

Definition dial_TCP : M bool :=
  st0 ← get;
  Close (Closer_of_NetConn (Common.tcpConn (common st0)));;
  st1 ← get;
  md ← deref (Common.Metadata (common st1));
  let address := (IP md +:+ ":" +:+ Itoa (TCPPort md))%string in
  let timeout := wrap_int64 (Common.DialTimeout (common st1) * Second) in
  emit (EvDialTimeout Protocol.TCP address timeout);;
  match DialTimeout E (clock st1) Protocol.TCP address timeout with
  | Some err =>
    modify (with_common (Common.set_tcpConn no_conn));;
    log_Println (CouldntConnectTCP address err);;
    mret false
  | None =>
    st2 ← get;
    let h := fresh (dom (conns st2)) in
    modify (with_conns <[h := true]>);;
    modify (with_common (Common.set_tcpConn (conn_ptr (Some h))));;
    log_Println (ConnectedTCP address);;
    mret true
  end.

Definition dial_UDP : M bool :=
  st0 ← get;
  Close (Closer_of_UDPConn (Common.udpConn (common st0)));;
  st1 ← get;
  md ← deref (Common.Metadata (common st1));
  emit (EvDialUDP Protocol.UDP (IP md) (UDPPort md));;
  match DialUDP E (clock st1) Protocol.UDP (IP md) (UDPPort md) with
  | Some err =>
    modify (with_common (Common.set_udpConn None));;
    log_Println (CouldntConnectUDP (IP md) (UDPPort md) err);;
    mret false
  | None =>
    st2 ← get;
    let h := fresh (dom (conns st2)) in
    modify (with_conns <[h := true]>);;
    modify (with_common (Common.set_udpConn (Some h)));;
    log_Println (ConnectedUDP (IP md) (UDPPort md));;
    StartUDPReaderWriter h;;
    mret true
  end.

Definition UpdateServerConn : M bool :=
  st ← get;
  let hasTCP := (0 <? length (TCP (Common.Service (common st))))%nat in
  let hasUDP := (0 <? length (UDP (Common.Service (common st))))%nat in
  let reverse := is_set (Common.ReverseMetadata (common st)) in
  okTCP ← (if hasTCP || reverse then dial_TCP else mret true);
  if negb okTCP then mret false
  else
    okUDP ← (if hasUDP || reverse then dial_UDP else mret true);
    if negb okUDP then mret false
    else
      modify (with_common (Common.set_connected true));;
      mret true.

(** A failing step of the receiver derivation or of the price parse is
    logged and ends the round. *)
Definition or_next {A : Type} (r : result A) : M A :=
  match r with
  | Ok a => mret a
  | Err e => log_Println (LogError e);; leave ContinueRandomSubscriber
  end.

(** [c.Metadata.ServiceTCP = c.ReverseMetadata.ServiceTCP] and the same for
    UDP: an update of the record that [c.Metadata] points to. *)
Definition copy_reverse_services (rm m : Metadata) : Metadata :=
  {| IP := IP m; TCPPort := TCPPort m; UDPPort := UDPPort m; ServiceId := ServiceId m;
     ServiceTCP := ServiceTCP rm; ServiceUDP := ServiceUDP rm; Price := Price m;
     BeneficiaryAddr := BeneficiaryAddr m |}.

(** The loop body over the fetched subscribers, in its four blocks. *)

(** Lines 237-265: the payment receiver is the beneficiary of the
    descriptor if it names one, else the address derived from the
    subscriber's public key. *)
Definition choose_receiver (subscriber : string) (md : Metadata) : M unit :=
  if (0 <? String.length (BeneficiaryAddr md))%nat
  then modify (with_common (Common.set_PaymentReceiver (BeneficiaryAddr md)))
  else
    publicKey ← or_next (ParseClientAddress E subscriber);
    pubKey ← or_next (NewPubKeyFromBytes E publicKey);
    programHash ← or_next (CreateProgramHash E pubKey);
    address ← or_next (ToAddress E programHash);
    modify (with_common (Common.set_PaymentReceiver address)).

(** Lines 267-283: the price of the descriptor is parsed, compared with
    the two ceilings of the session and, if it passes, stored. *)
Definition price_gate (md : Metadata) : M unit :=
  st ← get;
  '(entryToExitPrice, exitToEntryPrice) ← or_next (ParsePrice E (Price md));
  if Common.EntryToExitMaxPrice (common st) <? entryToExitPrice then
    log_Println (EntryToExitTooHigh entryToExitPrice (Common.EntryToExitMaxPrice (common st)));;
    leave ContinueRandomSubscriber
  else if Common.ExitToEntryMaxPrice (common st) <? exitToEntryPrice then
    log_Println (ExitToEntryTooHigh exitToEntryPrice (Common.ExitToEntryMaxPrice (common st)));;
    leave ContinueRandomSubscriber
  else
    modify (with_common (Common.set_EntryToExitPrice entryToExitPrice));;
    modify (with_common (Common.set_ExitToEntryPrice exitToEntryPrice)).

(** Lines 285-288: with a reverse descriptor, its service lists are written
    into the record that [c.Metadata] points to. *)
Definition adopt_reverse_services : M unit :=
  st ← get;
  match Common.ReverseMetadata (common st) with
  | Some r =>
    rm ← deref (Some r);
    md ← deref (Common.Metadata (common st));
    match Common.Metadata (common st) with
    | Some l => modify (with_heap (<[l := copy_reverse_services rm md]>))
    | None => leave (Panic "invalid memory address or nil pointer dereference")
    end
  | None => mret tt
  end.

(** Every path through the body leaves the enclosing loop or restarts it,
    so only the first entry of the map is ever looked at. *)
Definition candidate (subscriber metadataString : string) : M unit :=
  ok ← SetMetadata metadataString;
  if negb ok then leave ContinueRandomSubscriber
  else
    st ← get;
    md ← deref (Common.Metadata (common st));
    choose_receiver subscriber md;;
    price_gate md;;
    adopt_reverse_services;;
    connected ← UpdateServerConn;
    if negb connected then leave ContinueRandomSubscriber
    else leave BreakRandomSubscriber.

(** One round of the loop labelled [RandomSubscriber]. *)
Definition round (topic : string) : M unit :=
  modify (with_common (Common.set_PaymentReceiver ""));;
  st ← get;
  emit (EvGetSubscribersCount topic);;
  match GetSubscribersCount E (clock st) topic with
  | Err err => leave (Return err)
  | Ok subscribersCount =>
    if subscribersCount =? 0 then
      leave (Return (errorString
        ("there is no service providers for " +:+ Name (Common.Service (common st)))))
    else
      let offset := wrap_uint32 (rand_Intn (clock st) subscribersCount) in
      emit (EvGetSubscribers topic offset 1 true false);;
      match GetSubscribers E (clock st) topic offset 1 true false with
      | Err err => leave (Return err)
      | Ok subscribers =>
        match subscribers with
        | [] => mret tt
        | (subscriber, metadataString) :: _ => candidate subscriber metadataString
        end
      end
  end.

(** What a call of [CreateServerConn] comes to. *)
Inductive outcome : Type :=
| Returned (err : option error)
| Panicked (msg : string)
| OutOfFuel.

(** The loop [RandomSubscriber]; [fuel] bounds the number of rounds. *)
Fixpoint negotiate (fuel : nat) (topic : string) (st : State) : outcome * State :=
  match fuel with
  | O => (OutOfFuel, st)
  | S fuel' =>
    let '(r, st1) := round topic st in
    let st2 := tick st1 in
    match r with
    | inl tt | inr ContinueRandomSubscriber => negotiate fuel' topic st2
    | inr BreakRandomSubscriber => (Returned None, st2)
    | inr (Return err) => (Returned (Some err), st2)
    | inr (Panic msg) => (Panicked msg, st2)
    end
  end.

Definition CreateServerConn (fuel : nat) (force : bool) (st : State) : outcome * State :=
  let c := common st in
  if negb (Common.Reverse c) && (negb (Common.connected c) || force) then
    let topic := (Common.SubscriptionPrefix c +:+ Name (Common.Service c))%string in
    negotiate fuel topic st
  else (Returned None, st).

End Negotiation.

(** ** The publisher: [UpdateMetadata] *)

Module publisher.

Inductive event : Type :=
| Subscribe (identifier topic : string) (duration : Z) (meta fee : string)
| Log (l : logline)
| Sleep (d : Z).

Section Republish.

(** [config.ConsensusDuration] of the chain's configuration package, in
    nanoseconds, and the wallet's [Subscribe]; the first argument of the
    latter is the round of the loop. *)
Variable ConsensusDuration : Z.
Variable wallet_Subscribe : nat -> string -> string -> Z -> string -> string -> result string.

(** The value of [waitTime] at the call of [time.Sleep]: [subscriptionDuration]
    is a [uint32], the product is a [time.Duration]. *)
Definition waitTime (subscriptionDuration : Z) (r : result string) : Z :=
  match r with
  | Err _ => Second
  | Ok _ =>
    if 3 <? subscriptionDuration
    then wrap_int64 (wrap_uint32 (subscriptionDuration - 3) * ConsensusDuration)
    else ConsensusDuration
  end.

(** What the rounds [i, i + n) of the loop do.  The loop of the code has no
    exit: [n] only says how far it is observed. *)
Fixpoint republish (n i : nat) (topic : string) (subscriptionDuration : Z)
    (metadataRaw subscriptionFee : string) : list event :=
  match n with
  | O => []
  | S n' =>
    let r := wallet_Subscribe i "" topic subscriptionDuration metadataRaw subscriptionFee in
    Subscribe "" topic subscriptionDuration metadataRaw subscriptionFee
    :: Log (match r with
            | Err err => CouldntSubscribe topic err
            | Ok txid => Subscribed topic txid
            end)
    :: Sleep (waitTime subscriptionDuration r)
    :: republish n' (S i) topic subscriptionDuration metadataRaw subscriptionFee
  end.


End Republish.

(** The durations slept, in order. *)
Definition sleeps (evs : list event) : list Z :=
  omap (fun ev => match ev with Sleep d => Some d | _ => None end) evs.

End publisher.

(** ** The relay: [copyBuffer] and [Pipe] *)

Module relay.

(** [io.Reader], [io.Writer] and [io.Closer] as interfaces over a state: a
    read is given the length of the buffer and answers the bytes it put
    there, a write answers the count it reports. *)
Class io_Reader (R : Type) : Type := Read : R -> Z -> (list ascii * option error) * R.
Class io_Writer (W : Type) : Type := Write : W -> list ascii -> (Z * option error) * W.
Class io_Closer (C : Type) : Type := close : C -> C.

Inductive copy_result : Type :=
| CopyReturned (err : option error)
| CopyPanicked (msg : string)
| CopyOutOfFuel.

Definition bufsize : Z := 32768.

(** [atomic.AddUint64(written, uint64(nw))] behind the test [written != nil]. *)
Definition add_written (written : option Z) (nw : Z) : option Z :=
  match written with
  | Some w => Some (wrap_uint64 (w + wrap_uint64 nw))
  | None => None
  end.

Section Copy.

Context {W R : Type} `{!io_Writer W, !io_Reader R}.

(** [written] is the cell that the pointer refers to, [None] for a nil
    pointer; [fuel] bounds the number of reads. *)
Fixpoint copyBuffer (fuel : nat) (dest : W) (src : R) (written : option Z)
  : copy_result * W * R * option Z :=
  match fuel with
  | O => (CopyOutOfFuel, dest, src, written)
  | S fuel' =>
    let '((data, err), src1) := Read src bufsize in
    let nr := Z.of_nat (length data) in
    if bufsize <? nr
    then (CopyPanicked "slice bounds out of range", dest, src1, written)
    else
      let after_write (dest1 : W) (written1 : option Z) :=
        match err with
        | Some EOF => (CopyReturned None, dest1, src1, written1)
        | Some e => (CopyReturned (Some e), dest1, src1, written1)
        | None => copyBuffer fuel' dest1 src1 written1
        end in
      if 0 <? nr then
        let '((nw, errw), dest1) := Write dest data in
        let written1 := if 0 <? nw then add_written written nw else written in
        match errw with
        | Some e => (CopyReturned (Some e), dest1, src1, written1)
        | None =>
          if negb (nr =? nw) then (CopyReturned (Some ErrShortWrite), dest1, src1, written1)
          else after_write dest1 written1
        end
      else after_write dest written
  end.

(** [Pipe] closes the source, then the destination, whatever the copy came
    to, and drops its result. *)
Definition Pipe `{!io_Closer W, !io_Closer R} (fuel : nat) (dest : W) (src : R)
    (written : option Z) : W * R * option Z :=
  let '(_, dest1, src1, written1) := copyBuffer fuel dest src written in
  let src2 := close src1 in
  let dest2 := close dest1 in
  (dest2, src2, written1).

(** [src] hands out the chunks [ds] one per read, without error, and ends
    the last one (which may be empty) with [io.EOF]. *)
Inductive delivers : R -> list (list ascii) -> Prop :=
| delivers_last src src' d :
    Read src bufsize = ((d, Some EOF), src') ->
    Z.of_nat (length d) <= bufsize ->
    delivers src [d]
| delivers_more src src' d ds :
    Read src bufsize = ((d, None), src') ->
    Z.of_nat (length d) <= bufsize ->
    delivers src' ds ->
    delivers src (d :: ds).


End Copy.

(** A source that plays a script of reads, then reports [io.EOF] for ever. *)
Record script_reader : Type := {
  script : list (list ascii * option error);
  reader_closed : bool
}.

#[global] Instance script_Read : io_Reader script_reader := fun r _ =>
  match script r with
  | [] => (([], Some EOF), r)
  | step :: rest => (step, {| script := rest; reader_closed := reader_closed r |})
  end.

#[global] Instance script_close : io_Closer script_reader := fun r =>
  {| script := script r; reader_closed := true |}.

(** A destination that appends what it is given. *)
Record buffer_writer : Type := {
  contents : list ascii;
  writer_closed : bool
}.

#[global] Instance buffer_Write : io_Writer buffer_writer := fun w p =>
  ((Z.of_nat (length p), None),
   {| contents := contents w ++ p; writer_closed := writer_closed w |}).

#[global] Instance buffer_close : io_Closer buffer_writer := fun w =>
  {| contents := contents w; writer_closed := true |}.

End relay.

(** ** The UDP pumps that share one close channel

    The reverse entry program starts one reader task on the shared socket
    and one writer task for each accepted peer that declares a UDP port;
    [StartUDPReaderWriter] starts one reader and one writer.  All of them
    use the same unbuffered channel [udpCloseChan]: the reader sends one
    value on it when a read fails because the socket is closed, and each
    writer waits on it in its [select].  A [system] is one socket with the
    tasks that are tied to it. *)
Module pumps.

Inductive reader_state : Type :=
| Reading
| Announcing
| ReaderDone.

Inductive writer_state : Type :=
| Selecting
| WriterDone.

#[global] Instance writer_state_eq_dec : EqDecision writer_state.
Proof. solve_decision. Defined.

Record system : Type := {
  socket_open : bool;
  reader : reader_state;
  writers : list writer_state
}.

Inductive step : system -> system -> Prop :=
| close_socket s :
    socket_open s = true ->
    step s {| socket_open := false; reader := reader s; writers := writers s |}
| read_datagram s :
    socket_open s = true -> reader s = Reading ->
    step s s
| read_fails s :
    reader s = Reading ->
    step s s
| read_closed s :
    socket_open s = false -> reader s = Reading ->
    step s {| socket_open := false; reader := Announcing; writers := writers s |}
| write_datagram s i :
    writers s !! i = Some Selecting ->
    step s s
| receive_close s i :
    reader s = Announcing -> writers s !! i = Some Selecting ->
    step s {| socket_open := socket_open s; reader := ReaderDone;
              writers := <[i := WriterDone]> (writers s) |}
| spawn_writer s :
    step s {| socket_open := socket_open s; reader := reader s;
              writers := writers s ++ [Selecting] |}.

Inductive steps : system -> system -> Prop :=
| steps_refl s : steps s s
| steps_step s1 s2 s3 : step s1 s2 -> steps s2 s3 -> steps s1 s3.

(** The socket is open, the reader reads and [n] writers wait. *)
Definition start (n : nat) : system :=
  {| socket_open := true; reader := Reading; writers := replicate n Selecting |}.

Definition finished (s : system) : nat :=
  length (filter (fun w => w = WriterDone) (writers s)).

Definition waiting (s : system) : nat :=
  length (filter (fun w => w = Selecting) (writers s)).

End pumps.

(** ** A price parser and a worked session for the examples *)

(** Modelled from the spec: [ParsePrice] belongs to this package, but its
    file is not among the sources.  The spec says that a price string holds
    two fixed-point decimal amounts separated by a delimiter, the
    entry-to-exit rate first; its example is [0.001,0.002].  Amounts are
    held in units of 10^-8, the scale of the chain's [Fixed64].  The
    theorems below take [ParsePrice] from the environment and do not depend
    on this definition; only the worked examples use it. *)
Module price.

Definition amount (s : list ascii) : option Z :=
  let '(ip, rest) := json.span_digits s in
  whole ← json.ParseUint ip;
  match rest with
  | [] => Some (whole * 10 ^ 8)
  | dot :: fp =>
    if (byte_val dot =? 46) && (0 <? length fp)%nat && (length fp <=? 8)%nat then
      frac ← json.ParseUint fp;
      Some (whole * 10 ^ 8 + frac * 10 ^ (8 - Z.of_nat (length fp)))
    else None
  end.

Fixpoint split_comma (s : list ascii) : option (list ascii * list ascii) :=
  match s with
  | [] => None
  | c :: rest =>
    if byte_val c =? 44 then Some ([], rest)
    else '(a, b) ← split_comma rest; Some (c :: a, b)
  end.

Definition ParsePrice (priceStr : string) : result (Z * Z) :=
  match split_comma (list_ascii_of_string priceStr) with
  | Some (a, b) =>
    match amount a, amount b with
    | Some entryToExit, Some exitToEntry => Ok (entryToExit, exitToEntry)
    | _, _ => Err (errorString "invalid price")
    end
  | None => Err (errorString "invalid price")
  end.

End price.

Module example.

(** JSON text written with apostrophes in place of double quotes. *)
Definition text (s : string) : string :=
  string_of_list_ascii
    ((fun c => if Ascii.eqb c "'"%char then json.quote else c) <$> list_ascii_of_string s).

Definition descriptor : string :=
  text "{'ip':'203.0.113.5','tcpPort':30020,'udpPort':30021,'serviceId':3,'price':'0.001,0.002'}".

Definition costly : string :=
  text "{'ip':'198.51.100.7','tcpPort':30020,'udpPort':30021,'serviceId':3,'price':'0.5,0.5','beneficiaryAddr':'NKNcostly'}".

(** A descriptor whose port has the wrong type: the address is stored, the
    port is not, and decoding reports an error. *)
Definition half_decoded : string := text "{'ip':'203.0.113.5','tcpPort':'x'}".

Definition unavailable : error := errorString "directory unavailable".
Definition refused : error := errorString "connection refused".

(** A directory with a fixed list of subscribers, a given sequence of
    random draws and a dialler that refuses the rounds in [refusing].  A
    client address is taken to be its own payment address. *)
Definition world (directory : list (string * string)) (draws : nat -> Z)
    (refusing : nat -> bool) : Env :=
  {| GetSubscribersCount := fun _ _ => Ok (Z.of_nat (length directory));
     GetSubscribers := fun _ _ offset _ _ _ =>
       Ok (match directory !! Z.to_nat offset with Some sub => [sub] | None => [] end);
     rand_source := draws;
     ParseClientAddress := fun subscriber => Ok (list_ascii_of_string subscriber);
     NewPubKeyFromBytes := fun publicKey => Ok publicKey;
     CreateProgramHash := fun pubKey => Ok pubKey;
     ToAddress := fun programHash => Ok (string_of_list_ascii programHash);
     ParsePrice := price.ParsePrice;
     DialTimeout := fun round _ _ _ => if refusing round then Some refused else None;
     DialUDP := fun round _ _ _ => if refusing round then Some refused else None |}.

(** A directory whose queries fail: the count query when [count_fails],
    else the list query. *)
Definition broken_world (count_fails : bool) : Env :=
  {| GetSubscribersCount := fun _ _ => if count_fails then Err unavailable else Ok 5;
     GetSubscribers := fun _ _ _ _ _ _ => Err unavailable;
     rand_source := fun _ => 0;
     ParseClientAddress := fun subscriber => Ok (list_ascii_of_string subscriber);
     NewPubKeyFromBytes := fun publicKey => Ok publicKey;
     CreateProgramHash := fun pubKey => Ok pubKey;
     ToAddress := fun programHash => Ok (string_of_list_ascii programHash);
     ParsePrice := price.ParsePrice;
     DialTimeout := fun _ _ _ _ => None;
     DialUDP := fun _ _ _ _ => None |}.

(** A client session for a TCP service with the given price ceilings. *)
Definition session (entryToExitMaxPrice exitToEntryMaxPrice : Z) : Common.t :=
  {| Common.Service := {| Name := "ssh"; TCP := [22]; UDP := [] |};
     Common.EntryToExitMaxPrice := entryToExitMaxPrice;
     Common.ExitToEntryMaxPrice := exitToEntryMaxPrice;
     Common.DialTimeout := 5;
     Common.SubscriptionPrefix := DefaultSubscriptionPrefix;
     Common.Reverse := false;
     Common.ReverseMetadata := None;
     Common.EntryToExitPrice := 0;
     Common.ExitToEntryPrice := 0;
     Common.PaymentReceiver := "";
     Common.Metadata := None;
     Common.connected := false;
     Common.tcpConn := no_conn;
     Common.udpConn := None;
     Common.udpReadChan := None;
     Common.udpWriteChan := None;
     Common.udpCloseChan := None;
     Common.tcpListener := None |}.

Definition initial (c : Common.t) : State :=
  {| common := c; heap := ∅; conns := ∅; trace := []; clock := 0 |}.

(** The state of a session that has committed [descriptor]. *)
Definition committed : State :=
  (SetMetadata descriptor (initial (session 1000000 1000000))).2.

End example.

(** * Properties *)

(** ** The [Close] helper *)

Ltac run_M :=
  cbv beta iota zeta delta [mbind M_bind mret M_ret leave get modify emit log_Println].

(** A dynamic value of a kind on which [IsNil] is defined is closed without
    a panic; an error of its [Close] method goes to the log. *)
Lemma Close_nilable (k : Kind) (target : option handle) (st : State) :
  nilable k = true ->
  Close (dyn k target) st =
    (inl tt,
     match target with
     | None => st
     | Some h =>
       match conns st !! h with
       | Some true => record (EvCloseConn h) (with_conns <[h := false]> st)
       | _ => record (EvLog (ErrorWhileClosing closed_error)) (record (EvCloseConn h) st)
       end
     end).
Proof.
  intros Hk. unfold Close, reflect_IsNil. cbn [is_nil_interface]. rewrite Hk.
  destruct target as [h|]; [|reflexivity].
  unfold mbind, M_bind, mret, M_ret, method_Close, conn_Close.
  destruct (conns st !! h) as [[]|]; reflexivity.
Qed.

Lemma Close_nil_interface (st : State) : Close nil_Closer st = (inl tt, st).
Proof. reflexivity. Qed.

(** A value of a kind that cannot be nil makes [reflect] panic. *)
Example Close_struct_value_panics (st : State) :
  exists msg, Close (dyn Struct (Some 1%positive)) st = (inr (Panic msg), st).
Proof. eexists. reflexivity. Qed.

(** The state after [Close] on a connection value of the program. *)
Definition after_Close (conn : NetConn) (st : State) : State :=
  match conn with
  | no_conn | conn_ptr None => st
  | conn_ptr (Some h) =>
    match conns st !! h with
    | Some true => record (EvCloseConn h) (with_conns <[h := false]> st)
    | _ => record (EvLog (ErrorWhileClosing closed_error)) (record (EvCloseConn h) st)
    end
  end.

Lemma Close_NetConn (conn : NetConn) (st : State) :
  Close (Closer_of_NetConn conn) st = (inl tt, after_Close conn st).
Proof.
  destruct conn as [|target]; [reflexivity|].
  cbn [Closer_of_NetConn]. rewrite Close_nilable by reflexivity.
  destruct target; reflexivity.
Qed.

Lemma after_Close_common conn st : common (after_Close conn st) = common st.
Proof. destruct conn as [|[h|]]; cbn; try reflexivity. destruct (conns st !! h) as [[]|]; reflexivity. Qed.

Lemma after_Close_heap conn st : heap (after_Close conn st) = heap st.
Proof. destruct conn as [|[h|]]; cbn; try reflexivity. destruct (conns st !! h) as [[]|]; reflexivity. Qed.

Lemma after_Close_clock conn st : clock (after_Close conn st) = clock st.
Proof. destruct conn as [|[h|]]; cbn; try reflexivity. destruct (conns st !! h) as [[]|]; reflexivity. Qed.

(** C8. Idempotent close: for every transport handle (the nil interface, a
    typed nil pointer, a live connection, a connection that is closed
    already) [Close] returns normally; it has no result through which an
    error could leave, the session and its descriptors are untouched, and
    the error of a failing [Close] method appears in the log only.  Closing
    the same handle again returns normally as well. *)
Theorem Close_returns_quietly (conn : NetConn) (st : State) :
  exists st1 st2,
    Close (Closer_of_NetConn conn) st = (inl tt, st1)
    /\ Close (Closer_of_NetConn conn) st1 = (inl tt, st2)
    /\ common st2 = common st /\ heap st2 = heap st
    /\ (forall ev, ev ∈ trace st2 ->
          ev ∈ trace st
          \/ (exists h, conn = conn_ptr (Some h)
                /\ (ev = EvCloseConn h \/ ev = EvLog (ErrorWhileClosing closed_error)))).
Proof.
  exists (after_Close conn st), (after_Close conn (after_Close conn st)).
  rewrite !Close_NetConn, !after_Close_common, !after_Close_heap.
  repeat split.
  intros ev Hev.
  destruct conn as [|[h|]]; cbn in Hev; auto.
  assert (Hnew : forall x, x = EvCloseConn h \/ x = EvLog (ErrorWhileClosing closed_error) ->
            x ∈ trace st \/ exists h0, conn_ptr (Some h) = conn_ptr (Some h0)
              /\ (x = EvCloseConn h0 \/ x = EvLog (ErrorWhileClosing closed_error)))
    by (intros x Hx; right; exists h; auto).
  destruct (conns st !! h) as [[]|] eqn:Hh; cbn in Hev;
    rewrite ?lookup_insert_eq, ?Hh in Hev; cbn in Hev;
    rewrite ?elem_of_app, ?list_elem_of_singleton in Hev;
    intuition auto.
Qed.

(** Closing a live connection twice: the second call meets the error of the
    closed connection and logs it. *)
Example Close_twice :
  let st := with_conns (fun _ => {[ 7%positive := true ]})
              (example.initial (example.session 0 0)) in
  trace (Close (dyn Ptr (Some 7%positive)) (Close (dyn Ptr (Some 7%positive)) st).2).2
  = [EvCloseConn 7%positive; EvCloseConn 7%positive; EvLog (ErrorWhileClosing closed_error)].
Proof. vm_compute. reflexivity. Qed.

(** ** [SetMetadata] *)

Lemma ReadMetadata_eq (metadataString : string) (h : gmap loc Metadata) :
  ReadMetadata metadataString h =
    let l := fresh (dom h) in
    let r := json_Unmarshal (list_ascii_of_string metadataString) zero_Metadata in
    ((l, r.2), <[l := r.1]> h).
Proof.
  unfold ReadMetadata, alloc.
  destruct (json_Unmarshal _ _) as [m err]. cbn.
  by rewrite insert_insert_eq.
Qed.

Lemma SetMetadata_eq (metadataString : string) (st : State) :
  SetMetadata metadataString st =
    let l := fresh (dom (heap st)) in
    let r := json_Unmarshal (list_ascii_of_string metadataString) zero_Metadata in
    let st1 := with_common (Common.set_Metadata (Some l)) (with_heap (fun _ => <[l := r.1]> (heap st)) st) in
    match r.2 with
    | Some e => (inl false, record (EvLog (CouldntUnmarshalMetadata e)) st1)
    | None => (inl true, st1)
    end.
Proof.
  unfold SetMetadata. rewrite ReadMetadata_eq. cbn.
  destruct (json_Unmarshal _ _) as [m [e|]]; reflexivity.
Qed.

(** C10. Whatever the input string, [SetMetadata] makes the session point
    to a record allocated by this very call, which holds what the decoder
    stored before it stopped; the pointer differs from the one committed
    before, the call answers [false] exactly when decoding failed, and the
    overwrite happens on that path too. *)
Theorem SetMetadata_always_overwrites (metadataString : string) (st : State) :
  (forall l, Common.Metadata (common st) = Some l -> l ∈ dom (heap st)) ->
  exists (ok : bool) (l : loc) (st' : State),
    SetMetadata metadataString st = (inl ok, st')
    /\ Common.Metadata (common st') = Some l
    /\ (l ∉ dom (heap st))
    /\ Common.Metadata (common st') <> Common.Metadata (common st)
    /\ heap st' !! l = Some (json_Unmarshal (list_ascii_of_string metadataString) zero_Metadata).1
    /\ (ok = false <-> (json_Unmarshal (list_ascii_of_string metadataString) zero_Metadata).2 <> None)
    /\ (forall l0, Common.Metadata (common st) = Some l0 -> heap st' !! l0 = heap st !! l0).
Proof.
  intros Hlive.
  pose proof (is_fresh (dom (heap st))) as Hfresh.
  rewrite SetMetadata_eq. cbn zeta.
  set (l := fresh (dom (heap st))) in *.
  destruct (json_Unmarshal _ _) as [m err] eqn:Hr. cbn [fst snd].
  assert (Hne : Some l <> Common.Metadata (common st)).
  { intros Heq. symmetry in Heq. apply Hlive in Heq. contradiction. }
  assert (Hold : forall l0, Common.Metadata (common st) = Some l0 ->
                   <[l := m]> (heap st) !! l0 = heap st !! l0).
  { intros l0 Hl0. apply lookup_insert_ne. intros ->. apply Hne. by rewrite Hl0. }
  destruct err as [e|]; eexists _, l, _; (split; [reflexivity|]); cbn;
    rewrite lookup_insert_eq; repeat split; auto; try discriminate; try congruence.
Qed.

Lemma SetMetadata_always_overwrites_witness :
  (forall l, Common.Metadata (common example.committed) = Some l ->
             l ∈ dom (heap example.committed))
  /\ exists (ok : bool) (l : loc) (st' : State),
       SetMetadata example.half_decoded example.committed = (inl ok, st')
       /\ Common.Metadata (common st') = Some l
       /\ (l ∉ dom (heap example.committed))
       /\ Common.Metadata (common st') <> Common.Metadata (common example.committed)
       /\ heap st' !! l
          = Some (json_Unmarshal (list_ascii_of_string example.half_decoded) zero_Metadata).1
       /\ (ok = false <->
            (json_Unmarshal (list_ascii_of_string example.half_decoded) zero_Metadata).2 <> None)
       /\ (forall l0, Common.Metadata (common example.committed) = Some l0 ->
              heap st' !! l0 = heap example.committed !! l0).
Proof.
  assert (H : forall l, Common.Metadata (common example.committed) = Some l ->
                        l ∈ dom (heap example.committed)).
  { intros l Hl. vm_compute in Hl. injection Hl as <-.
    apply elem_of_dom. eexists. vm_compute. reflexivity. }
  split; [exact H|].
  exact (SetMetadata_always_overwrites example.half_decoded example.committed H).
Defined.

(** The decoder stops at the port of [example.half_decoded], yet the
    address it had stored is what the session now points to, while the
    descriptor committed before is still in the heap, unreferenced. *)
Example SetMetadata_half_decoded :
  let '(ok, st') := SetMetadata example.half_decoded example.committed in
  ok = inl false
  /\ Common.Metadata (common example.committed) = Some 1%positive
  /\ Common.Metadata (common st') = Some 2%positive
  /\ IP <$> heap st' !! 2%positive = Some "203.0.113.5"%string
  /\ TCPPort <$> heap st' !! 2%positive = Some 0
  /\ TCPPort <$> heap st' !! 1%positive = Some 30020.
Proof. vm_compute. repeat split. Qed.

(** ** The negotiation loop: directory answers that end it *)

Section Directory.

Variable E : Env.

(** The state in which a round asks for the number of subscribers. *)
Definition asking (topic : string) (st : State) : State :=
  record (EvGetSubscribersCount topic) (with_common (Common.set_PaymentReceiver "") st).

Definition no_providers (st : State) : error :=
  errorString ("there is no service providers for " +:+ Name (Common.Service (common st))).

Lemma round_count_fails (topic : string) (st : State) (err : error) :
  GetSubscribersCount E (clock st) topic = Err err ->
  round E topic st = (inr (Return err), asking topic st).
Proof. intros H. unfold round. run_M. cbn. rewrite H. reflexivity. Qed.

Lemma round_count_zero (topic : string) (st : State) :
  GetSubscribersCount E (clock st) topic = Ok 0 ->
  round E topic st = (inr (Return (no_providers st)), asking topic st).
Proof. intros H. unfold round. run_M. cbn. rewrite H. reflexivity. Qed.

(** The offset that a round asks for when the directory counts [n]. *)
Definition sampled (round : nat) (n : Z) : Z := wrap_uint32 (rand_Intn E round n).

Definition fetching (topic : string) (n : Z) (st : State) : State :=
  record (EvGetSubscribers topic (sampled (clock st) n) 1 true false) (asking topic st).

Lemma round_list_fails (topic : string) (st : State) (n : Z) (err : error) :
  GetSubscribersCount E (clock st) topic = Ok n -> n <> 0 ->
  GetSubscribers E (clock st) topic (sampled (clock st) n) 1 true false = Err err ->
  round E topic st = (inr (Return err), fetching topic n st).
Proof.
  intros H Hn Hl. unfold round. run_M. cbn. rewrite H.
  destruct (Z.eqb_spec n 0) as [|_]; [contradiction|].
  run_M. cbn. unfold sampled in Hl. rewrite Hl. reflexivity.
Qed.

Lemma round_list_empty (topic : string) (st : State) (n : Z) :
  GetSubscribersCount E (clock st) topic = Ok n -> n <> 0 ->
  GetSubscribers E (clock st) topic (sampled (clock st) n) 1 true false = Ok [] ->
  round E topic st = (inl tt, fetching topic n st).
Proof.
  intros H Hn Hl. unfold round. run_M. cbn. rewrite H.
  destruct (Z.eqb_spec n 0) as [|_]; [contradiction|].
  run_M. cbn. unfold sampled in Hl. rewrite Hl. reflexivity.
Qed.

Lemma round_candidate (topic : string) (st : State) (n : Z) subscriber metadataString rest :
  GetSubscribersCount E (clock st) topic = Ok n -> n <> 0 ->
  GetSubscribers E (clock st) topic (sampled (clock st) n) 1 true false
    = Ok ((subscriber, metadataString) :: rest) ->
  round E topic st = candidate E subscriber metadataString (fetching topic n st).
Proof.
  intros H Hn Hl. unfold round. run_M. cbn. rewrite H.
  destruct (Z.eqb_spec n 0) as [|_]; [contradiction|].
  run_M. cbn. unfold sampled in Hl. rewrite Hl. reflexivity.
Qed.

(** C4. No provider: in whatever round the directory counts zero
    subscribers for the topic, the loop ends there and [CreateServerConn]
    returns the error that names the service.  Since the last round began,
    the session has asked for the count and nothing else: no page of
    subscribers is fetched, nothing is dialled, no provider is committed. *)
Theorem CreateServerConn_no_providers (fuel : nat) (force : bool) (st : State) :
  let topic := (Common.SubscriptionPrefix (common st) +:+ Name (Common.Service (common st)))%string in
  Common.Reverse (common st) = false ->
  Common.connected (common st) = false \/ force = true ->
  GetSubscribersCount E (clock st) topic = Ok 0 ->
  exists st',
    CreateServerConn E (S fuel) force st = (Returned (Some (no_providers st)), st')
    /\ trace st' = trace st ++ [EvGetSubscribersCount topic]
    /\ common st' = Common.set_PaymentReceiver "" (common st)
    /\ Common.connected (common st') = Common.connected (common st)
    /\ Common.Metadata (common st') = Common.Metadata (common st)
    /\ heap st' = heap st /\ conns st' = conns st.
Proof.
  intros topic Hrev Hneed Hzero.
  exists (tick (asking topic st)).
  split; [|repeat split].
  unfold CreateServerConn. rewrite Hrev.
  replace (negb false && (negb (Common.connected (common st)) || force)) with true
    by (destruct Hneed as [-> | ->]; cbn; [reflexivity | by rewrite orb_true_r]).
  fold topic. cbn [negotiate]. rewrite (round_count_zero topic st Hzero). reflexivity.
Qed.

(** The same in a later round: the rounds before it do not matter. *)
Lemma negotiate_no_providers (fuel : nat) (topic : string) (st : State) :
  GetSubscribersCount E (clock st) topic = Ok 0 ->
  negotiate E (S fuel) topic st = (Returned (Some (no_providers st)), tick (asking topic st)).
Proof. intros H. cbn [negotiate]. by rewrite (round_count_zero topic st H). Qed.

(** C5, as the code has it.  A failing directory query is not retried: the
    round in which the count query or the list query fails is the last one,
    and [CreateServerConn] returns that very error to its caller, after the
    failing query and with nothing logged. *)
Theorem CreateServerConn_directory_error (fuel : nat) (topic : string) (st : State) (err : error) :
  GetSubscribersCount E (clock st) topic = Err err
  \/ (exists n, GetSubscribersCount E (clock st) topic = Ok n /\ n <> 0
        /\ GetSubscribers E (clock st) topic (sampled (clock st) n) 1 true false = Err err) ->
  exists st',
    negotiate E (S fuel) topic st = (Returned (Some err), st')
    /\ clock st' = S (clock st)
    /\ (trace st' = trace st ++ [EvGetSubscribersCount topic]
        \/ exists n, trace st' = trace st ++ [EvGetSubscribersCount topic;
                                               EvGetSubscribers topic (sampled (clock st) n) 1 true false]).
Proof.
  intros [H | (n & H & Hn & Hl)].
  - exists (tick (asking topic st)). cbn [negotiate].
    rewrite (round_count_fails topic st err H). repeat split. by left.
  - exists (tick (fetching topic n st)). cbn [negotiate].
    rewrite (round_list_fails topic st n err H Hn Hl). repeat split.
    right. exists n. cbn. by rewrite <- app_assoc.
Qed.

End Directory.

Lemma CreateServerConn_no_providers_witness :
  let E := example.world [] (fun _ => 0) (fun _ => false) in
  let st := example.initial (example.session 1000000 1000000) in
  let topic := (Common.SubscriptionPrefix (common st) +:+ Name (Common.Service (common st)))%string in
  (Common.Reverse (common st) = false
   /\ (Common.connected (common st) = false \/ false = true)
   /\ GetSubscribersCount E (clock st) topic = Ok 0)
  /\ exists st',
       CreateServerConn E 1 false st = (Returned (Some (no_providers st)), st')
       /\ trace st' = trace st ++ [EvGetSubscribersCount topic]
       /\ common st' = Common.set_PaymentReceiver "" (common st)
       /\ Common.connected (common st') = Common.connected (common st)
       /\ Common.Metadata (common st') = Common.Metadata (common st)
       /\ heap st' = heap st /\ conns st' = conns st.
Proof.
  intros E st topic.
  assert (H1 : Common.Reverse (common st) = false) by reflexivity.
  assert (H2 : Common.connected (common st) = false \/ false = true) by (left; reflexivity).
  assert (H3 : GetSubscribersCount E (clock st) topic = Ok 0) by reflexivity.
  split; [auto|].
  exact (CreateServerConn_no_providers E 0 false st H1 H2 H3).
Defined.

(** C5 as claimed fails: with a directory whose count query fails, and with
    one whose list query fails, [CreateServerConn] returns the error of the
    query after a single round. *)
Lemma directory_error_is_returned :
  let st := example.initial (example.session 1000000 1000000) in
  (CreateServerConn (example.broken_world true) 100 false st).1
    = Returned (Some example.unavailable)
  /\ clock (CreateServerConn (example.broken_world true) 100 false st).2 = 1%nat
  /\ (CreateServerConn (example.broken_world false) 100 false st).1
    = Returned (Some example.unavailable)
  /\ clock (CreateServerConn (example.broken_world false) 100 false st).2 = 1%nat.
Proof. vm_compute. repeat split. Qed.

Lemma CreateServerConn_directory_error_witness :
  let E := example.broken_world false in
  let st := example.initial (example.session 1000000 1000000) in
  let topic := "tuna+1.ssh"%string in
  (GetSubscribersCount E (clock st) topic = Err example.unavailable
   \/ (exists n, GetSubscribersCount E (clock st) topic = Ok n /\ n <> 0
         /\ GetSubscribers E (clock st) topic (sampled E (clock st) n) 1 true false
            = Err example.unavailable))
  /\ exists st',
       negotiate E 1 topic st = (Returned (Some example.unavailable), st')
       /\ clock st' = S (clock st)
       /\ (trace st' = trace st ++ [EvGetSubscribersCount topic]
           \/ exists n, trace st' = trace st ++ [EvGetSubscribersCount topic;
                                                  EvGetSubscribers topic (sampled E (clock st) n) 1 true false]).
Proof.
  intros E st topic.
  assert (H : GetSubscribersCount E (clock st) topic = Err example.unavailable
              \/ (exists n, GetSubscribersCount E (clock st) topic = Ok n /\ n <> 0
                    /\ GetSubscribers E (clock st) topic (sampled E (clock st) n) 1 true false
                       = Err example.unavailable)).
  { right. exists 5. repeat split. discriminate. }
  split; [exact H|].
  exact (CreateServerConn_directory_error E 0 topic st example.unavailable H).
Defined.

(** ** The publisher's schedule *)

Section Schedule.

Variable ConsensusDuration : Z.
Variable wallet_Subscribe : nat -> string -> string -> Z -> string -> string -> result string.

(** The pause that the schedule asks for after a publish attempt:
    [max (duration - 3) 1] rounds of consensus after a success, one second
    after a failure. *)
Definition scheduled (subscriptionDuration : Z) (r : result string) : Z :=
  match r with
  | Ok _ => Z.max (subscriptionDuration - 3) 1 * ConsensusDuration
  | Err _ => Second
  end.

Lemma wrap_int64_id (z : Z) : in_int64 z = true -> wrap_int64 z = z.
Proof.
  unfold in_int64, wrap_int64. intros H.
  apply andb_true_iff in H as [H1 H2]. apply Z.leb_le in H1. apply Z.ltb_lt in H2.
  rewrite Z.mod_small; lia.
Qed.

Lemma waitTime_scheduled (subscriptionDuration : Z) (r : result string) :
  0 <= subscriptionDuration < 2 ^ 32 ->
  in_int64 (Z.max (subscriptionDuration - 3) 1 * ConsensusDuration) = true ->
  publisher.waitTime ConsensusDuration subscriptionDuration r = scheduled subscriptionDuration r.
Proof.
  intros Hd Hfit. unfold publisher.waitTime, scheduled. destruct r as [txid|err]; [|reflexivity].
  destruct (Z.ltb_spec 3 subscriptionDuration) as [Hgt|Hle].
  - unfold wrap_uint32. rewrite Z.mod_small by lia.
    rewrite Z.max_l in * by lia. by apply wrap_int64_id.
  - rewrite Z.max_r by lia. lia.
Qed.

(** C6, as the code has it.  Whenever the pause [max (duration - 3) 1]
    rounds of consensus fits the signed 64-bit nanoseconds of a
    [time.Duration], every round of the publisher's loop sleeps that pause
    after a successful publish and one second after a failed one; and the
    loop has no last round: observed for [n] rounds, for any [n], it has
    published [n] times and slept [n] times. *)
Theorem republish_schedule (n i : nat) (topic : string) (subscriptionDuration : Z)
    (metadataRaw subscriptionFee : string) :
  0 <= subscriptionDuration < 2 ^ 32 ->
  in_int64 (Z.max (subscriptionDuration - 3) 1 * ConsensusDuration) = true ->
  publisher.sleeps
    (publisher.republish ConsensusDuration wallet_Subscribe n i topic subscriptionDuration
       metadataRaw subscriptionFee)
  = (fun j => scheduled subscriptionDuration
                (wallet_Subscribe j "" topic subscriptionDuration metadataRaw subscriptionFee))
    <$> seq i n.
Proof.
  intros Hd Hfit. revert i. induction n as [|n IH]; intros i; [reflexivity|].
  cbn [publisher.republish seq fmap list_fmap].
  unfold publisher.sleeps in *. cbn [omap list_omap].
  rewrite waitTime_scheduled by assumption. f_equal. apply IH.
Qed.

End Schedule.

(** A chain whose round of consensus takes twenty seconds, and a wallet
    that publishes at every second attempt. *)
Definition twenty_seconds : Z := 20 * Second.
Definition every_second_attempt (i : nat) (_ _ : string) (_ : Z) (_ _ : string) : result string :=
  if Nat.even i then Err example.unavailable else Ok "txid"%string.

Lemma republish_schedule_witness :
  (0 <= 10 < 2 ^ 32 /\ in_int64 (Z.max (10 - 3) 1 * twenty_seconds) = true)
  /\ publisher.sleeps
       (publisher.republish twenty_seconds every_second_attempt 4 0 "tuna+1.reverse" 10 "{}" "0")
     = (fun j => scheduled twenty_seconds 10
                   (every_second_attempt j "" "tuna+1.reverse" 10 "{}" "0"))
       <$> seq 0 4.
Proof.
  assert (H1 : 0 <= 10 < 2 ^ 32) by lia.
  assert (H2 : in_int64 (Z.max (10 - 3) 1 * twenty_seconds) = true) by reflexivity.
  split; [auto|].
  exact (republish_schedule twenty_seconds every_second_attempt 4 0 "tuna+1.reverse" 10 "{}" "0" H1 H2).
Defined.

(** C6 as claimed fails for long validity durations: with the largest
    [uint32] and rounds of twenty seconds the product leaves the range of a
    [time.Duration], and the pause that follows a successful publish is a
    negative duration instead of 4294967292 rounds. *)
Lemma republish_pause_overflows :
  let slept :=
    publisher.sleeps
      (publisher.republish twenty_seconds (fun _ _ _ _ _ _ => Ok "txid"%string) 1 0
         "tuna+1.reverse" 4294967295 "{}" "0") in
  slept = [-6334374528547758080]
  /\ slept <> [Z.max (4294967295 - 3) 1 * twenty_seconds].
Proof. vm_compute. split; [reflexivity | discriminate]. Qed.

(** ** The relay's byte count *)

Section Accounting.

Context {W R : Type} `{!relay.io_Writer W, !relay.io_Reader R}.














End Accounting.

(** A payload of eleven bytes that arrives in three reads, the last of
    them together with the end of input. *)
Definition hello_source : relay.script_reader :=
  {| relay.script := [(json.bytes "hello", None); (json.bytes " wor", None);
                      (json.bytes "ld", Some EOF)];
     relay.reader_closed := false |}.

Definition empty_buffer : relay.buffer_writer :=
  {| relay.contents := []; relay.writer_closed := false |}.

Lemma hello_source_delivers :
  relay.delivers hello_source [json.bytes "hello"; json.bytes " wor"; json.bytes "ld"].
Proof.
  eapply relay.delivers_more; [reflexivity | cbn; unfold relay.bufsize; lia |].
  eapply relay.delivers_more; [reflexivity | cbn; unfold relay.bufsize; lia |].
  eapply relay.delivers_last; [reflexivity | cbn; unfold relay.bufsize; lia].
Defined.



(** The same run computed: the destination holds the payload, the counter
    went from 100 to 111, and [Pipe] leaves both ends closed. *)
Example Pipe_hello :
  relay.Pipe 3 empty_buffer hello_source (Some 100)
  = ({| relay.contents := json.bytes "hello world"; relay.writer_closed := true |},
     {| relay.script := []; relay.reader_closed := true |},
     Some 111).
Proof. vm_compute. reflexivity. Qed.

(** ** One close signal among the writer pumps *)

Section Pumps.

Import pumps.

Lemma finished_insert (ws : list writer_state) (i : nat) :
  ws !! i = Some Selecting ->
  length (filter (fun w => w = WriterDone) (<[i := WriterDone]> ws))
  = S (length (filter (fun w => w = WriterDone) ws)).
Proof.
  revert i. induction ws as [|w ws IH]; intros [|i] Hi; try discriminate.
  - cbn in Hi. injection Hi as ->. cbn [list_insert].
    rewrite !filter_cons. repeat case_decide; try discriminate; try contradiction; reflexivity.
  - cbn in Hi. change (<[S i := WriterDone]> (w :: ws)) with (w :: <[i := WriterDone]> ws).
    rewrite !filter_cons.
    destruct (decide (w = WriterDone)); cbn [length]; rewrite IH by assumption; reflexivity.
Qed.

Lemma waiting_insert (ws : list writer_state) (i : nat) :
  ws !! i = Some Selecting ->
  S (length (filter (fun w => w = Selecting) (<[i := WriterDone]> ws)))
  = length (filter (fun w => w = Selecting) ws).
Proof.
  revert i. induction ws as [|w ws IH]; intros [|i] Hi; try discriminate.
  - cbn in Hi. injection Hi as ->. cbn [list_insert].
    rewrite !filter_cons. repeat case_decide; try discriminate; try contradiction; reflexivity.
  - cbn in Hi. change (<[S i := WriterDone]> (w :: ws)) with (w :: <[i := WriterDone]> ws).
    rewrite !filter_cons.
    destruct (decide (w = Selecting)); cbn [length]; rewrite <- (IH i) by assumption; reflexivity.
Qed.

(** As long as the reader has not handed its signal over, no writer has
    finished; once it has, exactly one has. *)
Definition signal_accounted (s : system) : Prop :=
  finished s = match reader s with ReaderDone => 1%nat | _ => 0%nat end.

Lemma step_signal_accounted (s s' : system) :
  step s s' -> signal_accounted s -> signal_accounted s'.
Proof.
  unfold signal_accounted, finished.
  intros Hstep Hs. destruct Hstep as [s Ho | s Ho Hr | s Hr | s Ho Hr | s i Hi | s i Hr Hi | s];
    cbn [reader writers]; try assumption.
  - rewrite Hr in Hs. assumption.
  - rewrite Hr in Hs. rewrite finished_insert by assumption. by rewrite Hs.
  - rewrite filter_app, length_app, Hs.
    rewrite filter_cons_False by discriminate. cbn. lia.
Qed.

Lemma step_waiting (s s' : system) :
  step s s' -> (waiting s <= S (waiting s'))%nat.
Proof.
  unfold waiting.
  intros Hstep. destruct Hstep as [s Ho | s Ho Hr | s Hr | s Ho Hr | s i Hi | s i Hr Hi | s];
    cbn [writers]; try lia.
  - rewrite waiting_insert by assumption. lia.
  - rewrite filter_app, length_app. lia.
Qed.

(** From two accounted states on, the number of waiting writers never
    drops by more than the one signal allows. *)
Lemma steps_signal_accounted (s s' : system) :
  steps s s' -> signal_accounted s ->
  signal_accounted s' /\ (finished s + waiting s <= finished s' + waiting s')%nat.
Proof.
  induction 1 as [s | s1 s2 s3 Hstep Hsteps IH]; intros Hs; [split; [assumption|lia]|].
  pose proof (step_signal_accounted _ _ Hstep Hs) as Hs2.
  destruct (IH Hs2) as [Hs3 Hle]. split; [assumption|].
  assert (finished s1 + waiting s1 <= finished s2 + waiting s2)%nat; [|lia].
  clear IH Hsteps Hs3 Hle. unfold signal_accounted in *.
  unfold finished, waiting in *.
  destruct Hstep as [s Ho | s Ho Hr | s Hr | s Ho Hr | s i Hi | s i Hr Hi | s];
    cbn [reader writers] in *; try lia.
  - rewrite finished_insert by assumption.
    pose proof (waiting_insert (writers s) i Hi). lia.
  - rewrite !filter_app, !length_app. lia.
Qed.

Lemma start_counts (n : nat) : finished (start n) = 0%nat /\ waiting (start n) = n.
Proof.
  unfold finished, waiting, start. cbn [writers].
  induction n as [|n [IH1 IH2]]; [split; reflexivity|].
  cbn [replicate]. rewrite filter_cons_False by discriminate.
  rewrite filter_cons_True by reflexivity. cbn [length]. by rewrite IH1, IH2.
Qed.

(** C9, as the code has it.  Whatever the tasks do after [n] writer pumps
    were started on the shared close channel, at most one pump has ever
    finished and at least [n - 1] are still waiting: the reader sends one
    value, one receiver takes it, and nothing reaches the others. *)
Theorem close_signal_reaches_one_writer (n : nat) (s : system) :
  steps (start n) s ->
  (finished s <= 1)%nat /\ (n - 1 <= waiting s)%nat.
Proof.
  intros Hsteps.
  destruct (start_counts n) as [Hf Hw].
  assert (Hstart : signal_accounted (start n)) by (unfold signal_accounted; by rewrite Hf).
  destruct (steps_signal_accounted _ _ Hsteps Hstart) as [Hs Hle].
  unfold signal_accounted in Hs. rewrite Hf, Hw in Hle.
  destruct (reader s); lia.
Qed.

End Pumps.

(** Two peers are wired, the socket is closed, the reader meets the closed
    socket and announces it, and the first writer takes the signal. *)
Definition after_close_of_two : pumps.system :=
  {| pumps.socket_open := false; pumps.reader := pumps.ReaderDone;
     pumps.writers := [pumps.WriterDone; pumps.Selecting] |}.

Lemma after_close_of_two_reachable : pumps.steps (pumps.start 2) after_close_of_two.
Proof.
  eapply pumps.steps_step; [apply pumps.close_socket; reflexivity|].
  eapply pumps.steps_step; [apply pumps.read_closed; reflexivity|].
  eapply pumps.steps_step; [apply (pumps.receive_close _ 0); reflexivity|].
  apply pumps.steps_refl.
Defined.

Lemma close_signal_reaches_one_writer_witness :
  pumps.steps (pumps.start 2) after_close_of_two
  /\ (pumps.finished after_close_of_two <= 1)%nat
  /\ (2 - 1 <= pumps.waiting after_close_of_two)%nat.
Proof.
  split; [exact after_close_of_two_reachable|].
  exact (close_signal_reaches_one_writer 2 after_close_of_two after_close_of_two_reachable).
Defined.

(** After that run the second writer waits for ever: no step changes it. *)
Lemma second_writer_leaks (s : pumps.system) :
  pumps.steps after_close_of_two s ->
  pumps.reader s = pumps.ReaderDone /\ pumps.writers s !! 1%nat = Some pumps.Selecting.
Proof.
  assert (Hgen : forall s0 s1, pumps.steps s0 s1 ->
            pumps.reader s0 = pumps.ReaderDone ->
            pumps.writers s0 !! 1%nat = Some pumps.Selecting ->
            pumps.reader s1 = pumps.ReaderDone /\ pumps.writers s1 !! 1%nat = Some pumps.Selecting).
  { induction 1 as [s0 | s1 s2 s3 Hstep Hsteps IH]; intros Hr Hw; [by split|].
    apply IH; destruct Hstep; cbn in *; try assumption; try congruence.
    apply lookup_app_l_Some. assumption. }
  intros Hs. by apply (Hgen _ _ Hs).
Qed.

(** ** The negotiation loop: what a candidate has to pass *)

Section Candidates.

Variable E : Env.

(** What the decoder makes of a descriptor string. *)
Definition decoded (metadataString : string) : Metadata * option error :=
  json_Unmarshal (list_ascii_of_string metadataString) zero_Metadata.

(** The payment receiver of a candidate: its beneficiary if it names one,
    else the address derived from the subscriber's public key. *)
Definition receiver (subscriber : string) (md : Metadata) : result string :=
  if (0 <? String.length (BeneficiaryAddr md))%nat then Ok (BeneficiaryAddr md)
  else
    match ParseClientAddress E subscriber with
    | Err e => Err e
    | Ok publicKey =>
      match NewPubKeyFromBytes E publicKey with
      | Err e => Err e
      | Ok pubKey =>
        match CreateProgramHash E pubKey with
        | Err e => Err e
        | Ok programHash => ToAddress E programHash
        end
      end
    end.

(** The part of the session that a negotiation never changes. *)
Definition config (c : Common.t) :=
  (Common.Service c, Common.EntryToExitMaxPrice c, Common.ExitToEntryMaxPrice c,
   Common.DialTimeout c, Common.SubscriptionPrefix c, Common.Reverse c,
   Common.ReverseMetadata c).

(** The part that a round commits before it dials. *)
Definition chosen (c : Common.t) :=
  (Common.EntryToExitPrice c, Common.ExitToEntryPrice c, Common.PaymentReceiver c,
   Common.Metadata c).

Definition needs_TCP (c : Common.t) : bool :=
  (0 <? length (TCP (Common.Service c)))%nat || is_set (Common.ReverseMetadata c).
Definition needs_UDP (c : Common.t) : bool :=
  (0 <? length (UDP (Common.Service c)))%nat || is_set (Common.ReverseMetadata c).

Definition tcp_answer (round : nat) (c : Common.t) (md : Metadata) : option error :=
  DialTimeout E round Protocol.TCP (IP md +:+ ":" +:+ Itoa (TCPPort md))%string
    (wrap_int64 (Common.DialTimeout c * Second)).
Definition udp_answer (round : nat) (md : Metadata) : option error :=
  DialUDP E round Protocol.UDP (IP md) (UDPPort md).

(** Whether the transports that the service needs can be dialled in
    [round]: UDP is tried only after TCP did not fail. *)
Definition dials (round : nat) (c : Common.t) (md : Metadata) : bool :=
  (negb (needs_TCP c) || negb (is_set (tcp_answer round c md)))
  && (negb (needs_UDP c) || negb (is_set (udp_answer round md))).

Lemma dial_TCP_spec (st : State) (l : loc) (md : Metadata) :
  Common.Metadata (common st) = Some l -> heap st !! l = Some md ->
  exists st',
    dial_TCP E st = (inl (negb (is_set (tcp_answer (clock st) (common st) md))), st')
    /\ config (common st') = config (common st) /\ chosen (common st') = chosen (common st)
    /\ Common.udpConn (common st') = Common.udpConn (common st)
    /\ Common.connected (common st') = Common.connected (common st)
    /\ heap st' = heap st /\ clock st' = clock st.
Proof.
  intros Hl Hmd. unfold dial_TCP. run_M.
  rewrite Close_NetConn. unfold deref.
  pose proof (after_Close_common (Common.tcpConn (common st)) st) as Hc.
  pose proof (after_Close_heap (Common.tcpConn (common st)) st) as Hh.
  pose proof (after_Close_clock (Common.tcpConn (common st)) st) as Hq.
  revert Hc Hh Hq.
  generalize (after_Close (Common.tcpConn (common st)) st). intros st1 Hc Hh Hq.
  rewrite Hc, Hh, Hq, Hl, Hmd.
  unfold tcp_answer.
  destruct (DialTimeout E _ _ _ _) as [err|]; eexists; (split; [reflexivity|]);
    cbn; rewrite ?Hc, ?Hh, ?Hq; repeat split.
Qed.

Lemma dial_UDP_spec (st : State) (l : loc) (md : Metadata) :
  Common.Metadata (common st) = Some l -> heap st !! l = Some md ->
  exists st',
    dial_UDP E st = (inl (negb (is_set (udp_answer (clock st) md))), st')
    /\ config (common st') = config (common st) /\ chosen (common st') = chosen (common st)
    /\ Common.connected (common st') = Common.connected (common st)
    /\ heap st' = heap st /\ clock st' = clock st.
Proof.
  intros Hl Hmd. unfold dial_UDP. run_M.
  change (Closer_of_UDPConn (Common.udpConn (common st)))
    with (Closer_of_NetConn (conn_ptr (Common.udpConn (common st)))).
  rewrite Close_NetConn. unfold deref.
  pose proof (after_Close_common (conn_ptr (Common.udpConn (common st))) st) as Hc.
  pose proof (after_Close_heap (conn_ptr (Common.udpConn (common st))) st) as Hh.
  pose proof (after_Close_clock (conn_ptr (Common.udpConn (common st))) st) as Hq.
  revert Hc Hh Hq.
  generalize (after_Close (conn_ptr (Common.udpConn (common st))) st). intros st1 Hc Hh Hq.
  rewrite Hc, Hh, Hq, Hl, Hmd.
  unfold udp_answer, StartUDPReaderWriter. run_M.
  destruct (DialUDP E _ _ _ _) as [err|]; eexists; (split; [reflexivity|]);
    cbn; rewrite ?Hc, ?Hh, ?Hq; repeat split.
Qed.

Lemma config_set_connected (b : bool) (c : Common.t) :
  config (Common.set_connected b c) = config c.
Proof. reflexivity. Qed.

Lemma chosen_set_connected (b : bool) (c : Common.t) :
  chosen (Common.set_connected b c) = chosen c.
Proof. reflexivity. Qed.

(** [UpdateServerConn] on a session whose descriptor pointer is live: it
    answers whether the dials went through, marks the session connected
    exactly then, and keeps the descriptor, the prices and the receiver. *)
Lemma UpdateServerConn_spec (st : State) (l : loc) (md : Metadata) :
  Common.Metadata (common st) = Some l -> heap st !! l = Some md ->
  exists st',
    UpdateServerConn E st = (inl (dials (clock st) (common st) md), st')
    /\ config (common st') = config (common st) /\ chosen (common st') = chosen (common st)
    /\ Common.connected (common st')
       = (if dials (clock st) (common st) md then true else Common.connected (common st))
    /\ heap st' = heap st /\ clock st' = clock st.
Proof.
  intros Hl Hmd. unfold UpdateServerConn, dials. run_M.
  fold (needs_TCP (common st)). fold (needs_UDP (common st)).
  destruct (needs_TCP (common st)) eqn:HT.
  - destruct (dial_TCP_spec st l md Hl Hmd) as (st1 & -> & Hc1 & Hk1 & Hu1 & Hn1 & Hh1 & Hq1).
    destruct (tcp_answer (clock st) (common st) md) as [err|] eqn:Ha; cbn [is_set negb orb andb].
    + exists st1. repeat split; assumption.
    + assert (Hl1 : Common.Metadata (common st1) = Some l) by (injection Hk1 as _ _ _ ->; assumption).
      assert (Hmd1 : heap st1 !! l = Some md) by (rewrite Hh1; assumption).
      assert (HU : needs_UDP (common st1) = needs_UDP (common st)).
      { unfold needs_UDP. injection Hc1 as -> _ _ _ _ _ ->. reflexivity. }
      destruct (needs_UDP (common st)) eqn:HU0.
      * destruct (dial_UDP_spec st1 l md Hl1 Hmd1) as (st2 & -> & Hc2 & Hk2 & Hn2 & Hh2 & Hq2).
        rewrite Hq1.
        destruct (udp_answer (clock st) md) as [err|]; cbn [is_set negb];
          eexists; (split; [reflexivity|]); cbn;
          rewrite ?config_set_connected, ?chosen_set_connected,
            ?Hc2, ?Hk2, ?Hn2, ?Hh2, ?Hq2, ?Hc1, ?Hk1, ?Hn1, ?Hh1, ?Hq1; repeat split.
      * eexists; (split; [reflexivity|]); cbn.
        rewrite ?config_set_connected, ?chosen_set_connected. repeat split; assumption.
  - cbn [negb orb andb].
    destruct (needs_UDP (common st)) eqn:HU0.
    + destruct (dial_UDP_spec st l md Hl Hmd) as (st2 & -> & Hc2 & Hk2 & Hn2 & Hh2 & Hq2).
      destruct (udp_answer (clock st) md) as [err|]; cbn [is_set negb];
        eexists; (split; [reflexivity|]); cbn;
        rewrite ?config_set_connected, ?chosen_set_connected; repeat split; assumption.
    + eexists; (split; [reflexivity|]); cbn. repeat split.
Qed.

(** A reverse descriptor, if the session has one, is a live record. *)
Definition reverse_live (st : State) : Prop :=
  forall r, Common.ReverseMetadata (common st) = Some r -> is_Some (heap st !! r).

(** The record that the session points to when it dials: the decoded
    descriptor, with the service lists of the reverse descriptor if there
    is one. *)
Definition dialled (st : State) (md : Metadata) : Metadata :=
  match Common.ReverseMetadata (common st) with
  | Some r =>
    match heap st !! r with
    | Some rm => copy_reverse_services rm md
    | None => md
    end
  | None => md
  end.

(** Both prices are within the ceilings of the session. *)
Definition within (c : Common.t) (entryToExitPrice exitToEntryPrice : Z) : bool :=
  negb (Common.EntryToExitMaxPrice c <? entryToExitPrice)
  && negb (Common.ExitToEntryMaxPrice c <? exitToEntryPrice).

Lemma dials_dialled (round : nat) (st : State) (c : Common.t) (md : Metadata) :
  dials round c (dialled st md) = dials round c md.
Proof.
  unfold dialled. destruct (Common.ReverseMetadata (common st)) as [r|]; [|reflexivity].
  destruct (heap st !! r); reflexivity.
Qed.

Lemma candidate_undecodable (subscriber metadataString : string) (st : State) (e : error) :
  (decoded metadataString).2 = Some e ->
  exists st',
    candidate E subscriber metadataString st = (inr ContinueRandomSubscriber, st')
    /\ config (common st') = config (common st) /\ clock st' = clock st
    /\ Common.connected (common st') = Common.connected (common st)
    /\ (forall l, l ∈ dom (heap st) -> heap st' !! l = heap st !! l).
Proof.
  intros He. unfold candidate. run_M. rewrite SetMetadata_eq. cbn zeta.
  fold (decoded metadataString). rewrite He. cbn [negb].
  eexists. split; [reflexivity|]. cbn. repeat split.
  intros l Hl. apply lookup_insert_ne. intros <-. by apply (is_fresh (dom (heap st))).
Qed.

Lemma choose_receiver_spec (subscriber : string) (md : Metadata) (st : State) :
  choose_receiver E subscriber md st =
    match receiver subscriber md with
    | Ok address => (inl tt, with_common (Common.set_PaymentReceiver address) st)
    | Err e => (inr ContinueRandomSubscriber, record (EvLog (LogError e)) st)
    end.
Proof.
  unfold choose_receiver, receiver.
  destruct (0 <? String.length (BeneficiaryAddr md))%nat; [reflexivity|].
  unfold or_next. run_M.
  destruct (ParseClientAddress E subscriber) as [publicKey|e]; [|reflexivity].
  destruct (NewPubKeyFromBytes E publicKey) as [pubKey|e]; [|reflexivity].
  destruct (CreateProgramHash E pubKey) as [programHash|e]; [|reflexivity].
  destruct (ToAddress E programHash) as [address|e]; reflexivity.
Qed.

(** The state after the price gate let a candidate through. *)
Definition priced (entryToExitPrice exitToEntryPrice : Z) (st : State) : State :=
  with_common (Common.set_ExitToEntryPrice exitToEntryPrice)
    (with_common (Common.set_EntryToExitPrice entryToExitPrice) st).

Lemma price_gate_spec (md : Metadata) (st : State) :
  price_gate E md st =
    match ParsePrice E (Price md) with
    | Err e => (inr ContinueRandomSubscriber, record (EvLog (LogError e)) st)
    | Ok (entryToExitPrice, exitToEntryPrice) =>
      if Common.EntryToExitMaxPrice (common st) <? entryToExitPrice then
        (inr ContinueRandomSubscriber,
         record (EvLog (EntryToExitTooHigh entryToExitPrice (Common.EntryToExitMaxPrice (common st)))) st)
      else if Common.ExitToEntryMaxPrice (common st) <? exitToEntryPrice then
        (inr ContinueRandomSubscriber,
         record (EvLog (ExitToEntryTooHigh exitToEntryPrice (Common.ExitToEntryMaxPrice (common st)))) st)
      else (inl tt, priced entryToExitPrice exitToEntryPrice st)
    end.
Proof.
  unfold price_gate, or_next. run_M.
  destruct (ParsePrice E (Price md)) as [[p1 p2]|e]; [|reflexivity].
  destruct (Common.EntryToExitMaxPrice (common st) <? p1); [reflexivity|].
  destruct (Common.ExitToEntryMaxPrice (common st) <? p2); reflexivity.
Qed.

Lemma adopt_reverse_services_spec (st : State) (l : loc) (md : Metadata) :
  reverse_live st ->
  Common.Metadata (common st) = Some l -> heap st !! l = Some md ->
  adopt_reverse_services st = (inl tt, with_heap (fun h => <[l := dialled st md]> h) st).
Proof.
  intros Hrev Hl Hmd. unfold adopt_reverse_services, dialled. run_M.
  destruct (Common.ReverseMetadata (common st)) as [r|] eqn:Hr.
  - destruct (Hrev r Hr) as [rm Hrm]. unfold deref. rewrite Hrm, Hl, Hmd. reflexivity.
  - unfold with_heap. rewrite insert_id by assumption. by destruct st.
Qed.

(** The state in which the body of a round, having decoded [md], chosen
    [address] and stored the prices, calls [UpdateServerConn]. *)
Definition before_dial (st : State) (md : Metadata) (address : string)
    (entryToExitPrice exitToEntryPrice : Z) : State :=
  let l := fresh (dom (heap st)) in
  with_heap (fun h => <[l := dialled st md]> h)
    (priced entryToExitPrice exitToEntryPrice
       (with_common (Common.set_PaymentReceiver address)
          (with_common (Common.set_Metadata (Some l))
             (with_heap (fun _ => <[l := md]> (heap st)) st)))).

Lemma candidate_priced (subscriber metadataString : string) (st : State)
    (md : Metadata) (address : string) (p1 p2 : Z) :
  reverse_live st ->
  decoded metadataString = (md, None) ->
  receiver subscriber md = Ok address ->
  ParsePrice E (Price md) = Ok (p1, p2) ->
  candidate E subscriber metadataString st =
    let l := fresh (dom (heap st)) in
    let st2 := with_common (Common.set_PaymentReceiver address)
                 (with_common (Common.set_Metadata (Some l))
                    (with_heap (fun _ => <[l := md]> (heap st)) st)) in
    if Common.EntryToExitMaxPrice (common st) <? p1 then
      (inr ContinueRandomSubscriber,
       record (EvLog (EntryToExitTooHigh p1 (Common.EntryToExitMaxPrice (common st)))) st2)
    else if Common.ExitToEntryMaxPrice (common st) <? p2 then
      (inr ContinueRandomSubscriber,
       record (EvLog (ExitToEntryTooHigh p2 (Common.ExitToEntryMaxPrice (common st)))) st2)
    else
      match UpdateServerConn E (before_dial st md address p1 p2) with
      | (inl true, st') => (inr BreakRandomSubscriber, st')
      | (inl false, st') => (inr ContinueRandomSubscriber, st')
      | (inr x, st') => (inr x, st')
      end.
Proof.
  intros Hrev Hdec Hrecv Hprice.
  pose proof (is_fresh (dom (heap st))) as Hfresh.
  unfold candidate. run_M. rewrite SetMetadata_eq. cbn zeta.
  fold (decoded metadataString). rewrite Hdec. cbn [fst snd negb].
  set (l := fresh (dom (heap st))) in *.
  unfold deref. cbn [common with_common with_heap heap Common.Metadata Common.set_Metadata].
  rewrite lookup_insert_eq.
  rewrite choose_receiver_spec, Hrecv.
  rewrite price_gate_spec, Hprice.
  set (st2 := with_common (Common.set_PaymentReceiver address) _).
  change (Common.EntryToExitMaxPrice (common st2)) with (Common.EntryToExitMaxPrice (common st)).
  change (Common.ExitToEntryMaxPrice (common st2)) with (Common.ExitToEntryMaxPrice (common st)).
  cbn zeta.
  destruct (Common.EntryToExitMaxPrice (common st) <? p1); [reflexivity|].
  destruct (Common.ExitToEntryMaxPrice (common st) <? p2); [reflexivity|].
  rewrite (adopt_reverse_services_spec _ l md).
  - assert (Hd : dialled (priced p1 p2 st2) md = dialled st md).
    { unfold dialled. cbn. destruct (Common.ReverseMetadata (common st)) as [r|] eqn:Hr; [|reflexivity].
      destruct (Hrev r Hr) as [rm Hrm].
      rewrite lookup_insert_ne, Hrm; [reflexivity|].
      intros <-. apply Hfresh. apply elem_of_dom. eauto. }
    rewrite Hd.
    change (with_heap _ (priced p1 p2 st2)) with (before_dial st md address p1 p2).
    destruct (UpdateServerConn E (before_dial st md address p1 p2)) as [[[]|x] st']; reflexivity.
  - intros r Hr. cbn in Hr. destruct (Hrev r Hr) as [rm Hrm]. exists rm. cbn.
    rewrite lookup_insert_ne; [assumption|].
    intros <-. apply Hfresh. apply elem_of_dom. eauto.
  - reflexivity.
  - cbn. apply lookup_insert_eq.
Qed.

Lemma dials_config (round : nat) (c c' : Common.t) (md : Metadata) :
  config c = config c' -> dials round c md = dials round c' md.
Proof.
  intros H. unfold dials, needs_TCP, needs_UDP, tcp_answer.
  injection H as -> _ _ -> _ _ ->. reflexivity.
Qed.

Lemma before_dial_facts (st : State) (md : Metadata) (address : string) (p1 p2 : Z) :
  let bd := before_dial st md address p1 p2 in
  Common.Metadata (common bd) = Some (fresh (dom (heap st)))
  /\ heap bd !! fresh (dom (heap st)) = Some (dialled st md)
  /\ config (common bd) = config (common st)
  /\ chosen (common bd) = (p1, p2, address, Some (fresh (dom (heap st))))
  /\ Common.connected (common bd) = Common.connected (common st)
  /\ clock bd = clock st /\ conns bd = conns st /\ trace bd = trace st
  /\ (forall l m, heap st !! l = Some m -> heap bd !! l = Some m).
Proof.
  cbn. rewrite lookup_insert_eq. repeat split.
  intros l m Hl. rewrite !lookup_insert_ne; [assumption| |];
    intros <-; apply (is_fresh (dom (heap st))); apply elem_of_dom; eauto.
Qed.

(** C1, as the code has it.  For a candidate whose descriptor decodes,
    whose payment receiver can be determined and whose price string parses
    to [(p1, p2)], the round skips it exactly if [p1] exceeds the
    entry-to-exit ceiling, or [p2] exceeds the exit-to-entry ceiling, or a
    transport that the service needs cannot be dialled; a price above a
    ceiling is rejected before anything is dialled; and a committed
    candidate has both prices within the ceilings, its parsed prices in
    [EntryToExitPrice] and [ExitToEntryPrice], and the session connected. *)
Theorem candidate_price_gate (subscriber metadataString : string) (st : State)
    (md : Metadata) (address : string) (p1 p2 : Z) :
  reverse_live st ->
  decoded metadataString = (md, None) ->
  receiver subscriber md = Ok address ->
  ParsePrice E (Price md) = Ok (p1, p2) ->
  exists (x : exit) (st' : State),
    candidate E subscriber metadataString st = (inr x, st')
    /\ (x = ContinueRandomSubscriber <->
          Common.EntryToExitMaxPrice (common st) < p1
          \/ Common.ExitToEntryMaxPrice (common st) < p2
          \/ dials (clock st) (common st) md = false)
    /\ (x = BreakRandomSubscriber <->
          p1 <= Common.EntryToExitMaxPrice (common st)
          /\ p2 <= Common.ExitToEntryMaxPrice (common st)
          /\ dials (clock st) (common st) md = true)
    /\ (x = BreakRandomSubscriber ->
          Common.EntryToExitPrice (common st') = p1
          /\ Common.ExitToEntryPrice (common st') = p2
          /\ Common.PaymentReceiver (common st') = address
          /\ Common.connected (common st') = true)
    /\ (Common.EntryToExitMaxPrice (common st) < p1
        \/ Common.ExitToEntryMaxPrice (common st) < p2 ->
          conns st' = conns st
          /\ Common.connected (common st') = Common.connected (common st)).
Proof.
  intros Hrev Hdec Hrecv Hprice.
  rewrite (candidate_priced _ _ _ md address p1 p2) by assumption. cbn zeta.
  destruct (Z.ltb_spec (Common.EntryToExitMaxPrice (common st)) p1) as [H1|H1].
  { eexists _, _. split; [reflexivity|]. cbn.
    repeat split; try discriminate; try lia; auto. }
  destruct (Z.ltb_spec (Common.ExitToEntryMaxPrice (common st)) p2) as [H2|H2].
  { eexists _, _. split; [reflexivity|]. cbn.
    repeat split; try discriminate; try lia; auto. }
  destruct (before_dial_facts st md address p1 p2) as (Hl & Hmd & Hc & Hk & Hn & Hq & _).
  destruct (UpdateServerConn_spec _ _ _ Hl Hmd) as (st' & -> & Hc' & Hk' & Hn' & _).
  rewrite Hq, dials_dialled, (dials_config _ _ (common st)) in * by assumption.
  rewrite Hk in Hk'. injection Hk' as He1 He2 Hpr _.
  destruct (dials (clock st) (common st) md) eqn:Hd; eexists _, st'; (split; [reflexivity|]).
  - repeat split; try discriminate; try lia; auto;
      try (intros [?|[?|?]]; first [lia | discriminate]).
  - repeat split; try discriminate; try lia; auto;
      try (intros (_ & _ & ?); discriminate).
Qed.

(** ** The negotiation loop: how long it runs *)

(** Whether the round [round] of a session with configuration [c] commits
    the candidate: the descriptor decodes, the receiver can be determined,
    the price parses and is within both ceilings, and the dials go
    through. *)
Definition accepts (round : nat) (c : Common.t) (subscriber metadataString : string) : bool :=
  match decoded metadataString with
  | (md, None) =>
    match receiver subscriber md with
    | Ok _ =>
      match ParsePrice E (Price md) with
      | Ok (p1, p2) => within c p1 p2 && dials round c md
      | Err _ => false
      end
    | Err _ => false
    end
  | (_, Some _) => false
  end.

Lemma accepts_config (round : nat) (c c' : Common.t) (subscriber metadataString : string) :
  config c = config c' ->
  accepts round c subscriber metadataString = accepts round c' subscriber metadataString.
Proof.
  intros H. unfold accepts.
  destruct (decoded metadataString) as [md [e|]]; [reflexivity|].
  destruct (receiver subscriber md); [|reflexivity].
  destruct (ParsePrice E (Price md)) as [[p1 p2]|]; [|reflexivity].
  rewrite (dials_config round c c' md H). unfold within.
  injection H as _ -> -> _ _ _ _. reflexivity.
Qed.

(** What a round leaves in place for the next one. *)
Definition carried_over (st st' : State) : Prop :=
  config (common st') = config (common st)
  /\ clock st' = clock st
  /\ (forall l m, heap st !! l = Some m -> heap st' !! l = Some m).

Lemma carried_over_reverse_live (st st' : State) :
  carried_over st st' -> reverse_live st -> reverse_live st'.
Proof.
  intros (Hc & _ & Hh) Hrev r Hr.
  assert (Hr0 : Common.ReverseMetadata (common st) = Some r).
  { injection Hc as _ _ _ _ _ _ <-. assumption. }
  destruct (Hrev r Hr0) as [rm Hrm]. exists rm. by apply Hh.
Qed.

Lemma fresh_kept (st : State) (m0 : Metadata) :
  forall l m, heap st !! l = Some m -> <[fresh (dom (heap st)) := m0]> (heap st) !! l = Some m.
Proof.
  intros l m Hl. rewrite lookup_insert_ne; [assumption|].
  intros <-. apply (is_fresh (dom (heap st))). apply elem_of_dom. eauto.
Qed.

Lemma candidate_verdict (subscriber metadataString : string) (st : State) :
  reverse_live st ->
  exists st',
    candidate E subscriber metadataString st
    = (inr (if accepts (clock st) (common st) subscriber metadataString
            then BreakRandomSubscriber else ContinueRandomSubscriber), st')
    /\ carried_over st st'
    /\ (accepts (clock st) (common st) subscriber metadataString = true ->
        Common.connected (common st') = true).
Proof.
  intros Hrev. unfold accepts.
  destruct (decoded metadataString) as [md [e|]] eqn:Hdec.
  { unfold candidate. run_M. rewrite SetMetadata_eq. cbn zeta.
    fold (decoded metadataString). rewrite Hdec. cbn [fst snd negb].
    eexists. split; [reflexivity|]. split; [|discriminate].
    repeat split. apply fresh_kept. }
  destruct (receiver subscriber md) as [address|e] eqn:Hrecv; cycle 1.
  { unfold candidate. run_M. rewrite SetMetadata_eq. cbn zeta.
    fold (decoded metadataString). rewrite Hdec. cbn [fst snd negb].
    unfold deref. cbn [common with_common with_heap heap Common.Metadata Common.set_Metadata].
    rewrite lookup_insert_eq, choose_receiver_spec, Hrecv.
    eexists. split; [reflexivity|]. split; [|discriminate].
    repeat split. apply fresh_kept. }
  destruct (ParsePrice E (Price md)) as [[p1 p2]|e] eqn:Hprice; cycle 1.
  { unfold candidate. run_M. rewrite SetMetadata_eq. cbn zeta.
    fold (decoded metadataString). rewrite Hdec. cbn [fst snd negb].
    unfold deref. cbn [common with_common with_heap heap Common.Metadata Common.set_Metadata].
    rewrite lookup_insert_eq, choose_receiver_spec, Hrecv, price_gate_spec, Hprice.
    eexists. split; [reflexivity|]. split; [|discriminate].
    repeat split. apply fresh_kept. }
  rewrite (candidate_priced _ _ _ md address p1 p2) by assumption. cbn zeta.
  unfold within.
  destruct (Common.EntryToExitMaxPrice (common st) <? p1).
  { eexists. split; [reflexivity|]. split; [|discriminate]. repeat split. apply fresh_kept. }
  destruct (Common.ExitToEntryMaxPrice (common st) <? p2).
  { eexists. split; [reflexivity|]. split; [|discriminate]. repeat split. apply fresh_kept. }
  cbn [negb andb].
  destruct (before_dial_facts st md address p1 p2) as (Hl & Hmd & Hc & Hk & Hn & Hq & _ & _ & Hh).
  destruct (UpdateServerConn_spec _ _ _ Hl Hmd) as (st' & -> & Hc' & Hk' & Hn' & Hh' & Hq').
  rewrite Hq, dials_dialled, (dials_config _ _ (common st)) in * by assumption.
  exists st'.
  assert (Hcarry : carried_over st st').
  { repeat split; [congruence | congruence |]. intros l m Hlm. rewrite Hh'. by apply Hh. }
  destruct (dials (clock st) (common st) md); repeat split; try apply Hcarry; auto.
  discriminate.
Qed.

(** The candidate that round [round] looks at. *)
Definition sample (round : nat) (topic : string) : option (string * string) :=
  match GetSubscribersCount E round topic with
  | Ok n =>
    if n =? 0 then None
    else
      match GetSubscribers E round topic (sampled E round n) 1 true false with
      | Ok (cand :: _) => Some cand
      | _ => None
      end
  | Err _ => None
  end.

(** The directory answers both queries of the round, with a count that is
    not zero. *)
Definition answers (round : nat) (topic : string) : bool :=
  match GetSubscribersCount E round topic with
  | Ok n =>
    negb (n =? 0)
    && match GetSubscribers E round topic (sampled E round n) 1 true false with
       | Ok _ => true
       | Err _ => false
       end
  | Err _ => false
  end.

Definition commits (round : nat) (c : Common.t) (topic : string) : bool :=
  match sample round topic with
  | Some (subscriber, metadataString) => accepts round c subscriber metadataString
  | None => false
  end.

Lemma round_verdict (topic : string) (st : State) :
  reverse_live st ->
  answers (clock st) topic = true ->
  exists r st',
    round E topic st = (r, st')
    /\ carried_over st st'
    /\ (if commits (clock st) (common st) topic
        then r = inr BreakRandomSubscriber /\ Common.connected (common st') = true
        else r = inl tt \/ r = inr ContinueRandomSubscriber).
Proof.
  intros Hrev Hans. unfold answers in Hans. unfold commits, sample.
  destruct (GetSubscribersCount E (clock st) topic) as [n|e] eqn:Hcount; [|discriminate].
  destruct (Z.eqb_spec n 0) as [|Hn]; [discriminate|]. cbn [negb andb] in Hans.
  destruct (GetSubscribers E (clock st) topic (sampled E (clock st) n) 1 true false)
    as [[|[subscriber metadataString] rest]|e] eqn:Hlist; [| |discriminate].
  - rewrite (round_list_empty E topic st n Hcount Hn Hlist).
    eexists _, _. split; [reflexivity|]. split; [|by left]. repeat split. auto.
  - rewrite (round_candidate E topic st n subscriber metadataString rest Hcount Hn Hlist).
    assert (Hrev1 : reverse_live (fetching E topic n st)) by exact Hrev.
    destruct (candidate_verdict subscriber metadataString _ Hrev1) as (st' & -> & Hcarry & Hconn).
    change (clock (fetching E topic n st)) with (clock st) in *.
    rewrite (accepts_config _ (common (fetching E topic n st)) (common st)) in * by reflexivity.
    eexists _, st'. split; [reflexivity|]. split; [exact Hcarry|].
    destruct (accepts (clock st) (common st) subscriber metadataString); [split|]; auto.
Qed.

Lemma commits_config (round : nat) (c c' : Common.t) (topic : string) :
  config c = config c' -> commits round c topic = commits round c' topic.
Proof.
  intros H. unfold commits. destruct (sample round topic) as [[subscriber metadataString]|]; [|reflexivity].
  by apply accepts_config.
Qed.

(** As long as the samples are turned down, the loop goes on. *)
Lemma negotiate_skips (k : nat) (topic : string) :
  forall (st : State) (fuel : nat),
    reverse_live st ->
    (forall j, (j < k)%nat ->
       answers (clock st + j) topic = true /\ commits (clock st + j) (common st) topic = false) ->
    exists st',
      negotiate E (k + fuel) topic st = negotiate E fuel topic st'
      /\ clock st' = (clock st + k)%nat
      /\ config (common st') = config (common st)
      /\ reverse_live st'.
Proof.
  induction k as [|k IH]; intros st fuel Hrev Hskip.
  - exists st. rewrite Nat.add_0_r. auto.
  - destruct (Hskip 0%nat ltac:(lia)) as [Hans Hno]. rewrite Nat.add_0_r in Hans, Hno.
    destruct (round_verdict topic st Hrev Hans) as (r & st1 & Hround & Hcarry & Hr).
    rewrite Hno in Hr.
    pose proof (carried_over_reverse_live _ _ Hcarry Hrev) as Hrev1.
    destruct Hcarry as (Hc & Hq & Hh).
    destruct (IH (tick st1) fuel) as (st' & Hneg & Hq' & Hc' & Hrev').
    { exact Hrev1. }
    { intros j Hj. cbn [clock tick]. rewrite Hq.
      replace (S (clock st) + j)%nat with (clock st + S j)%nat by lia.
      destruct (Hskip (S j) ltac:(lia)) as [Ha Hn]. split; [exact Ha|].
      rewrite <- Hn. by apply commits_config. }
    exists st'. cbn [Nat.add negotiate]. rewrite Hround.
    split; [|split; [|split]].
    + destruct Hr as [-> | ->]; exact Hneg.
    + rewrite Hq'. cbn. lia.
    + rewrite Hc'. exact Hc.
    + exact Hrev'.
Qed.

(** C3, as the code has it.  The loop ends in the first round whose sample
    is committed: if the directory answers, the samples of the first [k]
    rounds are turned down and the sample of the next round is acceptable,
    then [CreateServerConn]'s loop returns nil after exactly [k] skips and
    one acceptance, with the session connected.  The offsets are drawn
    afresh in every round, so [k] is the number of unacceptable draws, not
    a number bounded by the size of the directory. *)
Theorem negotiate_ends_at_first_acceptable (k fuel : nat) (topic : string) (st : State) :
  reverse_live st ->
  (forall j, (j < k)%nat ->
     answers (clock st + j) topic = true /\ commits (clock st + j) (common st) topic = false) ->
  answers (clock st + k) topic = true ->
  commits (clock st + k) (common st) topic = true ->
  (k < fuel)%nat ->
  exists st',
    negotiate E fuel topic st = (Returned None, st')
    /\ clock st' = (clock st + k + 1)%nat
    /\ Common.connected (common st') = true.
Proof.
  intros Hrev Hskip Hans Hyes Hfuel.
  destruct (negotiate_skips k topic st (fuel - k) Hrev Hskip) as (st1 & Hneg & Hq & Hc & Hrev1).
  replace (k + (fuel - k))%nat with fuel in Hneg by lia. rewrite Hneg.
  destruct (fuel - k)%nat as [|fuel'] eqn:Hf; [lia|].
  rewrite <- Hq in Hans, Hyes. rewrite (commits_config _ _ (common st1)) in Hyes by (symmetry; exact Hc).
  destruct (round_verdict topic st1 Hrev1 Hans) as (r & st2 & Hround & Hcarry & Hr).
  rewrite Hyes in Hr. destruct Hr as [-> Hconn].
  exists (tick st2). cbn [negotiate]. rewrite Hround.
  split; [reflexivity|]. destruct Hcarry as (_ & Hq2 & _).
  split; [cbn; lia | exact Hconn].
Qed.

(** While no sample is acceptable the loop does not end, however many
    rounds it is given. *)
Lemma negotiate_goes_on (fuel : nat) (topic : string) (st : State) :
  reverse_live st ->
  (forall j, (j < fuel)%nat ->
     answers (clock st + j) topic = true /\ commits (clock st + j) (common st) topic = false) ->
  (negotiate E fuel topic st).1 = OutOfFuel.
Proof.
  intros Hrev Hskip.
  destruct (negotiate_skips fuel topic st 0 Hrev Hskip) as (st1 & Hneg & _).
  rewrite Nat.add_0_r in Hneg. rewrite Hneg. reflexivity.
Qed.

End Candidates.

(** *** The scenario of the spec and two directories *)

(** The record that [example.descriptor] decodes to. *)
Definition example_record : Metadata :=
  {| IP := "203.0.113.5"; TCPPort := 30020; UDPPort := 30021; ServiceId := 3;
     ServiceTCP := nil_slice; ServiceUDP := nil_slice; Price := "0.001,0.002";
     BeneficiaryAddr := "" |}.

Definition one_provider : list (string * string) := [("NKNprovider"%string, example.descriptor)].

Definition two_providers : list (string * string) :=
  [("NKNcostly"%string, example.costly); ("NKNprovider"%string, example.descriptor)].

(** Three draws of offset 0, then offset 1. *)
Definition draws_0001 (i : nat) : Z := if (i <? 3)%nat then 0 else 1.

Lemma no_reverse_live (c : Common.t) :
  Common.ReverseMetadata c = None -> reverse_live (example.initial c).
Proof. intros H r Hr. cbn in Hr. congruence. Defined.

(** With ceilings [(0.01, 0.01)] the descriptor of the spec's scenario is
    committed with prices 0.001 and 0.002; with ceilings [(0.0001, 0.01)]
    it is skipped. *)
Lemma candidate_price_gate_witness :
  let E := example.world one_provider (fun _ => 0) (fun _ => false) in
  (exists st',
     candidate E "NKNprovider" example.descriptor (example.initial (example.session 1000000 1000000))
     = (inr BreakRandomSubscriber, st')
     /\ Common.EntryToExitPrice (common st') = 100000
     /\ Common.ExitToEntryPrice (common st') = 200000
     /\ Common.PaymentReceiver (common st') = "NKNprovider"%string
     /\ Common.connected (common st') = true)
  /\ (exists st',
        candidate E "NKNprovider" example.descriptor (example.initial (example.session 10000 1000000))
        = (inr ContinueRandomSubscriber, st')
        /\ conns st' = ∅ /\ Common.connected (common st') = false).
Proof.
  intros E.
  assert (Hdec : decoded example.descriptor = (example_record, None)) by (vm_compute; reflexivity).
  assert (Hrecv : receiver E "NKNprovider" example_record = Ok "NKNprovider"%string) by reflexivity.
  assert (Hprice : ParsePrice E (Price example_record) = Ok (100000, 200000)) by reflexivity.
  split.
  - destruct (candidate_price_gate E "NKNprovider" example.descriptor
                (example.initial (example.session 1000000 1000000))
                example_record "NKNprovider" 100000 200000
                (no_reverse_live (example.session 1000000 1000000) eq_refl) Hdec Hrecv Hprice)
      as (x & st' & Heq & _ & Hbreak & Hcommit & _).
    assert (Hx : x = BreakRandomSubscriber).
    { apply Hbreak. cbn. repeat split; try lia. }
    exists st'. rewrite Heq, Hx. split; [reflexivity|]. exact (Hcommit Hx).
  - destruct (candidate_price_gate E "NKNprovider" example.descriptor
                (example.initial (example.session 10000 1000000))
                example_record "NKNprovider" 100000 200000
                (no_reverse_live (example.session 10000 1000000) eq_refl) Hdec Hrecv Hprice)
      as (x & st' & Heq & Hskip & _ & _ & Hquiet).
    assert (Hhigh : Common.EntryToExitMaxPrice
                      (common (example.initial (example.session 10000 1000000))) < 100000
                    \/ Common.ExitToEntryMaxPrice
                      (common (example.initial (example.session 10000 1000000))) < 200000)
      by (left; cbn; lia).
    assert (Hx : x = ContinueRandomSubscriber) by (apply Hskip; tauto).
    exists st'. rewrite Heq, Hx. split; [reflexivity|]. exact (Hquiet Hhigh).
Defined.

(** C1 as claimed fails: the candidate of the scenario, whose prices are
    within both ceilings, is skipped all the same when the dial to it is
    refused. *)
Lemma candidate_within_ceilings_skipped :
  let E := example.world one_provider (fun _ => 0) (fun _ => true) in
  let st := example.initial (example.session 1000000 1000000) in
  ParsePrice E (Price example_record) = Ok (100000, 200000)
  /\ decoded example.descriptor = (example_record, None)
  /\ ~ (Common.EntryToExitMaxPrice (common st) < 100000
        \/ Common.ExitToEntryMaxPrice (common st) < 200000)
  /\ (candidate E "NKNprovider" example.descriptor st).1 = inr ContinueRandomSubscriber
  /\ Common.EntryToExitPrice (common (candidate E "NKNprovider" example.descriptor st).2) = 100000.
Proof.
  vm_compute. repeat split; try reflexivity. intros [H|H]; discriminate.
Qed.

Lemma negotiate_ends_at_first_acceptable_witness :
  let E := example.world two_providers draws_0001 (fun _ => false) in
  let st := example.initial (example.session 1000000 1000000) in
  let topic := "tuna+1.ssh"%string in
  (reverse_live st
   /\ (forall j, (j < 3)%nat ->
         answers E (clock st + j) topic = true /\ commits E (clock st + j) (common st) topic = false)
   /\ answers E (clock st + 3) topic = true
   /\ commits E (clock st + 3) (common st) topic = true
   /\ (3 < 4)%nat)
  /\ exists st',
       negotiate E 4 topic st = (Returned None, st')
       /\ clock st' = (clock st + 3 + 1)%nat
       /\ Common.connected (common st') = true.
Proof.
  intros E st topic.
  assert (H1 : reverse_live st) by (apply no_reverse_live; reflexivity).
  assert (H2 : forall j, (j < 3)%nat ->
            answers E (clock st + j) topic = true /\ commits E (clock st + j) (common st) topic = false).
  { intros j Hj. destruct j as [|[|[|j]]]; [vm_compute; split; reflexivity ..|lia]. }
  assert (H3 : answers E (clock st + 3) topic = true) by (vm_compute; reflexivity).
  assert (H4 : commits E (clock st + 3) (common st) topic = true) by (vm_compute; reflexivity).
  assert (H5 : (3 < 4)%nat) by lia.
  split; [auto|].
  exact (negotiate_ends_at_first_acceptable E 3 4 topic st H1 H2 H3 H4 H5).
Defined.

(** C3 as claimed fails.  The directory holds two candidates, one of them
    conforming; the first three draws hit the other one at offset 0, so
    three rounds (two skips and one acceptance would be the bound) do not
    end the loop, and the fourth round does.  With a source that draws
    offset 0 for ever the loop never ends. *)
Lemma failed_offset_sampled_again :
  let st := example.initial (example.session 1000000 1000000) in
  let E := example.world two_providers draws_0001 (fun _ => false) in
  let E0 := example.world two_providers (fun _ => 0) (fun _ => false) in
  length two_providers = 2%nat
  /\ accepts E 0 (common st) "NKNprovider" example.descriptor = true
  /\ (CreateServerConn E 3 false st).1 = OutOfFuel
  /\ (CreateServerConn E 4 false st).1 = Returned None
  /\ (fun ev => match ev with EvGetSubscribers _ offset _ _ _ => Some offset | _ => None end)
       <$> trace (CreateServerConn E 4 false st).2
     = [None; Some 0; None; None; Some 0; None; None; Some 0; None; None; Some 1; None; None]
  /\ forall fuel, (CreateServerConn E0 fuel false st).1 = OutOfFuel.
Proof.
  intros st E E0.
  split; [reflexivity|]. split; [vm_compute; reflexivity|].
  split; [vm_compute; reflexivity|]. split; [vm_compute; reflexivity|].
  split; [vm_compute; reflexivity|].
  intros fuel. change (CreateServerConn E0 fuel false st) with (negotiate E0 fuel "tuna+1.ssh" st).
  apply negotiate_goes_on; [apply no_reverse_live; reflexivity|].
  intros j _. split; vm_compute; reflexivity.
Qed.

(** ** The descriptor codec: decoding what was encoded *)

(** *** Bytes *)

Lemma byte_val_range (c : ascii) : 0 <= byte_val c < 256.
Proof. unfold byte_val. pose proof (N_ascii_bounded c). lia. Qed.

Lemma byte_of_val (c : ascii) : byte_of (byte_val c) = c.
Proof. unfold byte_of, byte_val. rewrite N2Z.id. apply ascii_N_embedding. Qed.

Lemma byte_val_of (z : Z) : 0 <= z < 256 -> byte_val (byte_of z) = z.
Proof.
  intros Hz. unfold byte_of, byte_val.
  rewrite N_ascii_embedding by lia. lia.
Qed.

Lemma byte_of_eq (z : Z) (c : ascii) : z = byte_val c -> byte_of z = c.
Proof. intros ->. apply byte_of_val. Qed.

(** *** Runes *)

Lemma between_spec (lo hi : Z) (c : ascii) :
  utf8.between lo hi c = true <-> lo <= byte_val c <= hi.
Proof. unfold utf8.between. rewrite andb_true_iff, Z.leb_le, Z.leb_le. tauto. Qed.

Ltac split_ranges :=
  repeat match goal with
         | H : _ && _ = true |- _ => apply andb_true_iff in H; destruct H
         | H : utf8.between _ _ _ = true |- _ => apply between_spec in H
         end.

Ltac byte_eq := apply byte_of_eq; Z.to_euclidean_division_equations; lia.

(** A rune of two, three or four bytes that [DecodeRune] accepts: the
    bytes after the first are continuation bytes, [EncodeRune] gives the
    same bytes back, and what follows them plays no part. *)
Lemma DecodeRune_multibyte (c0 : ascii) (p1 : list ascii) (r : Z) (size : nat) :
  128 <= byte_val c0 ->
  utf8.DecodeRune (c0 :: p1) = (r, size) ->
  (r =? utf8.RuneError) && (size =? 1)%nat = false ->
  exists cs p2,
    p1 = cs ++ p2 /\ size = S (length cs)
    /\ Forall (fun c => 128 <= byte_val c) cs
    /\ utf8.EncodeRune r = c0 :: cs
    /\ 128 <= r
    /\ (forall tail, utf8.DecodeRune (c0 :: cs ++ tail) = (r, size)).
Proof.
  intros Hc0 Hdec Hok.
  pose proof (byte_val_range c0) as Hr0.
  unfold utf8.DecodeRune in Hdec.
  destruct (Z.ltb_spec (byte_val c0) 128) as [|_]; [lia|].
  destruct ((byte_val c0 <? 194) || (244 <? byte_val c0)) eqn:Hlead.
  { injection Hdec as <- <-. discriminate. }
  apply orb_false_iff in Hlead as [Hlo Hhi]. apply Z.ltb_ge in Hlo, Hhi.
  destruct (Z.ltb_spec (byte_val c0) 224) as [H2|H2].
  { destruct p1 as [|c1 p2]; [injection Hdec as <- <-; discriminate|].
    destruct (utf8.between 128 191 c1) eqn:B1; [|injection Hdec as <- <-; discriminate].
    injection Hdec as <- <-. split_ranges. unfold utf8.low6.
    exists [c1], p2. repeat split.
    - constructor; [lia|]. constructor.
    - unfold utf8.EncodeRune.
      destruct (Z.leb_spec 0 ((byte_val c0 - 192) * 64 + (byte_val c1 - 128))); [|lia].
      destruct (Z.ltb_spec ((byte_val c0 - 192) * 64 + (byte_val c1 - 128)) 128); [lia|].
      destruct (Z.ltb_spec ((byte_val c0 - 192) * 64 + (byte_val c1 - 128)) 2048); [|lia].
      cbn [andb]. f_equal; [byte_eq|]. f_equal. byte_eq.
    - lia.
    - intros tail. unfold utf8.DecodeRune. cbn [app].
      destruct (Z.ltb_spec (byte_val c0) 128); [lia|].
      destruct (Z.ltb_spec (byte_val c0) 194); [lia|].
      destruct (Z.ltb_spec 244 (byte_val c0)); [lia|]. cbn [orb].
      destruct (Z.ltb_spec (byte_val c0) 224); [|lia].
      assert (B : utf8.between 128 191 c1 = true) by (apply between_spec; lia).
      rewrite B. reflexivity. }
  destruct (Z.ltb_spec (byte_val c0) 240) as [H3|H3].
  { destruct p1 as [|c1 [|c2 p2]]; try (injection Hdec as <- <-; discriminate).
    match type of Hdec with (if ?b then _ else _) = _ => destruct b eqn:B end;
      [|injection Hdec as <- <-; discriminate].
    injection Hdec as <- <-. split_ranges. unfold utf8.low6.
    assert (Hc1 : 128 <= byte_val c1 <= 191)
      by (destruct (Z.eqb_spec (byte_val c0) 224), (Z.eqb_spec (byte_val c0) 237); lia).
    set (r := (byte_val c0 - 224) * 4096 + (byte_val c1 - 128) * 64 + (byte_val c2 - 128)).
    assert (Hr : 2048 <= r < 65536 /\ ~ (55296 <= r <= 57343)).
    { subst r. destruct (Z.eqb_spec (byte_val c0) 224), (Z.eqb_spec (byte_val c0) 237); lia. }
    exists [c1; c2], p2. repeat split.
    - constructor; [destruct (Z.eqb_spec (byte_val c0) 224); lia|].
      constructor; [lia|]. constructor.
    - unfold utf8.EncodeRune, utf8.surrogate, utf8.MaxRune.
      destruct (Z.leb_spec 0 r); [|lia].
      destruct (Z.ltb_spec r 128); [lia|].
      destruct (Z.ltb_spec r 2048); [lia|].
      destruct (Z.ltb_spec r 0); [lia|].
      destruct (Z.ltb_spec 1114111 r); [lia|].
      destruct (Z.leb_spec 55296 r), (Z.leb_spec r 57343); try lia;
        cbn [andb orb]; (destruct (Z.ltb_spec r 65536); [|lia]);
        subst r; (f_equal; [byte_eq|]); (f_equal; [byte_eq|]); f_equal; byte_eq.
    - lia.
    - intros tail. unfold utf8.DecodeRune. cbn [app].
      destruct (Z.ltb_spec (byte_val c0) 128); [lia|].
      destruct (Z.ltb_spec (byte_val c0) 194); [lia|].
      destruct (Z.ltb_spec 244 (byte_val c0)); [lia|]. cbn [orb].
      destruct (Z.ltb_spec (byte_val c0) 224); [lia|].
      destruct (Z.ltb_spec (byte_val c0) 240); [|lia].
      match goal with |- (if ?b then _ else _) = _ => replace b with true end; [reflexivity|].
      symmetry. apply andb_true_iff. split; apply between_spec; [|lia].
      assumption. }
  destruct p1 as [|c1 [|c2 [|c3 p2]]]; try (injection Hdec as <- <-; discriminate).
  match type of Hdec with (if ?b then _ else _) = _ => destruct b eqn:B end;
    [|injection Hdec as <- <-; discriminate].
  injection Hdec as <- <-. split_ranges. unfold utf8.low6.
  assert (Hc1 : 128 <= byte_val c1 <= 191)
    by (destruct (Z.eqb_spec (byte_val c0) 240), (Z.eqb_spec (byte_val c0) 244); lia).
  set (r := (byte_val c0 - 240) * 262144 + (byte_val c1 - 128) * 4096
            + (byte_val c2 - 128) * 64 + (byte_val c3 - 128)).
  assert (Hr : 65536 <= r <= 1114111).
  { subst r. destruct (Z.eqb_spec (byte_val c0) 240), (Z.eqb_spec (byte_val c0) 244); lia. }
  exists [c1; c2; c3], p2. repeat split.
  - constructor; [destruct (Z.eqb_spec (byte_val c0) 240); lia|].
    constructor; [lia|]. constructor; [lia|]. constructor.
  - unfold utf8.EncodeRune, utf8.surrogate, utf8.MaxRune.
    destruct (Z.leb_spec 0 r); [|lia].
    destruct (Z.ltb_spec r 128); [lia|].
    destruct (Z.ltb_spec r 2048); [lia|].
    destruct (Z.ltb_spec r 0); [lia|].
    destruct (Z.ltb_spec 1114111 r); [lia|].
    destruct (Z.leb_spec 55296 r), (Z.leb_spec r 57343); try lia;
      cbn [andb orb]; (destruct (Z.ltb_spec r 65536); [lia|]);
      subst r; (f_equal; [byte_eq|]); (f_equal; [byte_eq|]); (f_equal; [byte_eq|]);
      f_equal; byte_eq.
  - lia.
  - intros tail. unfold utf8.DecodeRune. cbn [app].
    destruct (Z.ltb_spec (byte_val c0) 128); [lia|].
    destruct (Z.ltb_spec (byte_val c0) 194); [lia|].
    destruct (Z.ltb_spec 244 (byte_val c0)); [lia|]. cbn [orb].
    destruct (Z.ltb_spec (byte_val c0) 224); [lia|].
    destruct (Z.ltb_spec (byte_val c0) 240); [lia|].
    match goal with |- (if ?b then _ else _) = _ => replace b with true end; [reflexivity|].
    symmetry. rewrite !andb_true_iff. repeat split; apply between_spec; [|lia|lia].
    assumption.
Qed.

(** *** String literals *)

Lemma byte_val_quote : byte_val json.quote = 34.
Proof. reflexivity. Qed.

Lemma byte_val_backslash : byte_val json.backslash = 92.
Proof. reflexivity. Qed.

Lemma encode_bytes_skip (cs s : list ascii) :
  json.encode_bytes (length cs) (cs ++ s) = json.encode_bytes 0 s.
Proof. induction cs as [|c cs IH]; [reflexivity|exact IH]. Qed.

Lemma valid_from_skip (cs s : list ascii) :
  utf8.valid_from (length cs) (cs ++ s) = utf8.valid_from 0 s.
Proof. induction cs as [|c cs IH]; [reflexivity|exact IH]. Qed.

Lemma unquote_body_skip (cs s : list ascii) :
  json.unquote_body (length cs) (cs ++ s) = json.unquote_body 0 s.
Proof. induction cs as [|c cs IH]; [reflexivity|exact IH]. Qed.

Ltac decide_tests :=
  repeat match goal with
         | |- context [Z.eqb ?a ?b] => destruct (Z.eqb_spec a b); try lia
         | |- context [Z.ltb ?a ?b] => destruct (Z.ltb_spec a b); try lia
         | |- context [Z.leb ?a ?b] => destruct (Z.leb_spec a b); try lia
         end.

Lemma unquote_plain (c : ascii) (rest : list ascii) :
  32 <= byte_val c < 128 -> byte_val c <> 34 -> byte_val c <> 92 ->
  json.unquote_body 0 (c :: rest)
  = '(out, tl) ← json.unquote_body 0 rest; Some (c :: out, tl).
Proof.
  intros H1 H2 H3. cbn [json.unquote_body]. unfold utf8.RuneSelf.
  decide_tests. reflexivity.
Qed.

Lemma unquote_simple_escape (e d : ascii) (rest : list ascii) :
  json.simple_escape e = Some d -> byte_val e <> 117 ->
  json.unquote_body 0 (json.backslash :: e :: rest)
  = '(out, tl) ← json.unquote_body 0 rest; Some (d :: out, tl).
Proof.
  intros He Hu. cbn [json.unquote_body]. rewrite byte_val_backslash.
  cbn [Z.eqb Z.ltb Z.compare Pos.compare Pos.compare_cont Pos.eqb].
  destruct (Z.eqb_spec (byte_val e) 117); [contradiction|].
  rewrite He. reflexivity.
Qed.

Lemma unquote_u_escape (h1 h2 h3 h4 : ascii) (rr : Z) (rest : list ascii) :
  json.getu4 h1 h2 h3 h4 = Some rr -> utf8.surrogate rr = false ->
  json.unquote_body 0 (json.backslash :: "u"%char :: h1 :: h2 :: h3 :: h4 :: rest)
  = '(out, tl) ← json.unquote_body 0 rest; Some (utf8.EncodeRune rr ++ out, tl).
Proof.
  intros Hg Hs. cbn [json.unquote_body]. rewrite byte_val_backslash.
  change (byte_val "u") with 117.
  cbn [Z.eqb Z.ltb Z.compare Pos.compare Pos.compare_cont Pos.eqb].
  rewrite Hg, Hs. reflexivity.
Qed.

Lemma unquote_multibyte (c : ascii) (cs rest : list ascii) (r : Z) :
  128 <= byte_val c ->
  utf8.DecodeRune (c :: cs ++ rest) = (r, S (length cs)) ->
  json.unquote_body 0 (c :: cs ++ rest)
  = '(out, tl) ← json.unquote_body 0 rest; Some (utf8.EncodeRune r ++ out, tl).
Proof.
  intros Hc Hd. cbn [json.unquote_body]. unfold utf8.RuneSelf.
  decide_tests. rewrite Hd.
  replace (S (length cs) - 1)%nat with (length cs) by lia.
  rewrite unquote_body_skip. reflexivity.
Qed.

Lemma hexval_hexdigit (x : Z) : 0 <= x < 16 -> json.hexval (json.hexdigit x) = Some x.
Proof.
  intros Hx. unfold json.hexval, json.hexdigit.
  destruct (Z.ltb_spec x 10); rewrite byte_val_of by lia; decide_tests; cbn; f_equal; lia.
Qed.

Lemma hexval_zero : json.hexval "0"%char = Some 0.
Proof. reflexivity. Qed.

Lemma EncodeRune_ascii (r : Z) : 0 <= r < 128 -> utf8.EncodeRune r = [byte_of r].
Proof.
  intros Hr. unfold utf8.EncodeRune.
  destruct (Z.leb_spec 0 r), (Z.ltb_spec r 128); try lia. reflexivity.
Qed.

Lemma escape_unquote (c : ascii) (rest : list ascii) :
  byte_val c < 128 -> json.htmlSafe (byte_val c) = false ->
  json.unquote_body 0 (json.escape (byte_val c) ++ rest)
  = '(out, tl) ← json.unquote_body 0 rest; Some (c :: out, tl).
Proof.
  intros Hc Hsafe. pose proof (byte_val_range c) as Hr. unfold json.escape.
  destruct ((byte_val c =? 92) || (byte_val c =? 34)) eqn:H1.
  { rewrite byte_of_val. cbn [app]. apply unquote_simple_escape.
    - unfold json.simple_escape. apply orb_true_iff in H1 as [H1|H1]; rewrite H1; [|reflexivity].
      by rewrite orb_true_r.
    - apply orb_true_iff in H1 as [H1|H1]; apply Z.eqb_eq in H1; lia. }
  destruct (Z.eqb_spec (byte_val c) 10) as [E|_].
  { cbn [app]. rewrite (unquote_simple_escape "n" (byte_of 10)) by (reflexivity || discriminate).
    rewrite (byte_of_eq 10 c) by lia. reflexivity. }
  destruct (Z.eqb_spec (byte_val c) 13) as [E|_].
  { cbn [app]. rewrite (unquote_simple_escape "r" (byte_of 13)) by (reflexivity || discriminate).
    rewrite (byte_of_eq 13 c) by lia. reflexivity. }
  destruct (Z.eqb_spec (byte_val c) 9) as [E|_].
  { cbn [app]. rewrite (unquote_simple_escape "t" (byte_of 9)) by (reflexivity || discriminate).
    rewrite (byte_of_eq 9 c) by lia. reflexivity. }
  cbn [app].
  rewrite (unquote_u_escape _ _ _ _ (byte_val c)).
  - rewrite EncodeRune_ascii by lia. cbn [app]. by rewrite byte_of_val.
  - unfold json.getu4. rewrite hexval_zero, !hexval_hexdigit
      by (Z.to_euclidean_division_equations; lia).
    f_equal. Z.to_euclidean_division_equations; lia.
  - unfold utf8.surrogate. destruct (Z.leb_spec 55296 (byte_val c)); [lia|reflexivity].
Qed.

(** Decoding the body of an encoded string gives the string back, provided
    it is valid UTF-8. *)
Lemma unquote_encode_bytes (n : nat) :
  forall (s tail : list ascii),
    (length s <= n)%nat ->
    utf8.valid_from 0 s = true ->
    json.unquote_body 0 (json.encode_bytes 0 s ++ json.quote :: tail) = Some (s, tail).
Proof.
  induction n as [|n IH]; intros s tail Hlen Hvalid.
  { destruct s; [reflexivity | cbn in Hlen; lia]. }
  destruct s as [|c rest]; [reflexivity|].
  cbn [length] in Hlen.
  pose proof (byte_val_range c) as Hr.
  cbn [json.encode_bytes utf8.valid_from] in *. unfold utf8.RuneSelf in *.
  destruct (Z.ltb_spec (byte_val c) 128) as [Hascii|Hmulti].
  - assert (Hrest : utf8.valid_from 0 rest = true).
    { unfold utf8.DecodeRune in Hvalid.
      destruct (Z.ltb_spec (byte_val c) 128); [|lia].
      unfold utf8.RuneError in Hvalid.
      destruct (Z.eqb_spec (byte_val c) 65533); [lia|]. exact Hvalid. }
    rewrite <- app_assoc.
    destruct (json.htmlSafe (byte_val c)) eqn:Hsafe.
    + unfold json.htmlSafe in Hsafe.
      repeat (apply andb_true_iff in Hsafe as [Hsafe ?]).
      repeat match goal with
             | H : negb _ = true |- _ => apply negb_true_iff, Z.eqb_neq in H
             end.
      apply Z.leb_le in Hsafe.
      cbn [app]. rewrite unquote_plain by lia.
      rewrite IH by (assumption || lia). reflexivity.
    + rewrite escape_unquote by assumption.
      rewrite IH by (assumption || lia). reflexivity.
  - destruct (utf8.DecodeRune (c :: rest)) as [r size] eqn:Hdec.
    destruct ((r =? utf8.RuneError) && (size =? 1)%nat) eqn:Hbad; [discriminate|].
    destruct (DecodeRune_multibyte c rest r size Hmulti Hdec Hbad)
      as (cs & p2 & -> & -> & Hcont & Henc & Hbig & Hany).
    replace (S (length cs) - 1)%nat with (length cs) in * by lia.
    rewrite valid_from_skip in Hvalid. rewrite encode_bytes_skip.
    assert (Hp2 : (length p2 <= n)%nat) by (rewrite length_app in Hlen; lia).
    destruct ((r =? 8232) || (r =? 8233)) eqn:Hsep.
    + cbn [json.bytes list_ascii_of_string app].
      rewrite (unquote_u_escape _ _ _ _ r).
      * rewrite Henc, IH by assumption. reflexivity.
      * apply orb_true_iff in Hsep as [E|E]; apply Z.eqb_eq in E; subst r; reflexivity.
      * apply orb_true_iff in Hsep as [E|E]; apply Z.eqb_eq in E; subst r; reflexivity.
    + change (take (S (length cs)) (c :: cs ++ p2)) with (c :: take (length cs) (cs ++ p2)).
      rewrite take_app_length. cbn [app]. rewrite <- app_assoc.
      rewrite (unquote_multibyte c cs _ r Hmulti (Hany _)).
      rewrite IH by assumption. cbn. by rewrite Henc.
Qed.

Lemma unquote_encode_string (s tail : list ascii) :
  utf8.Valid s = true ->
  exists body, json.encode_string s ++ tail = json.quote :: body
    /\ json.unquote_body 0 body = Some (s, tail).
Proof.
  intros Hv. unfold json.encode_string. eexists. split.
  - cbn [app]. rewrite <- app_assoc. reflexivity.
  - cbn [app]. by apply (unquote_encode_bytes (length s)).
Qed.

(** *** Numbers *)

Lemma uint_of_chars_of_uint (d : Decimal.uint) :
  json.uint_of_chars (json.chars_of_uint d) = Some d.
Proof. induction d; cbn [json.chars_of_uint json.uint_of_chars]; [reflexivity|..]; by rewrite IHd. Qed.

(** What may follow a number literal: not a byte that would carry it on. *)
Definition ends_number (tail : list ascii) : Prop :=
  match tail with
  | [] => True
  | c :: _ => json.is_digit c = false /\ byte_val c <> 46 /\ byte_val c <> 101 /\ byte_val c <> 69
  end.

Lemma span_digits_chars (d : Decimal.uint) (tail : list ascii) :
  ends_number tail ->
  json.span_digits (json.chars_of_uint d ++ tail) = (json.chars_of_uint d, tail).
Proof.
  intros Htail. induction d; cbn [json.chars_of_uint app json.span_digits];
    try (change (json.is_digit _) with true; cbn iota; by rewrite IHd).
  destruct tail as [|c tail]; [reflexivity|]. cbn [json.span_digits].
  destruct Htail as [-> _]. reflexivity.
Qed.

Lemma to_uint_normal (p : positive) : unorm (Pos.to_uint p) = Pos.to_uint p.
Proof.
  rewrite <- (DecimalPos.Unsigned.to_of (Pos.to_uint p)).
  by rewrite DecimalPos.Unsigned.of_to.
Qed.

Lemma to_uint_head (p : positive) (d : Decimal.uint) : Pos.to_uint p <> D0 d.
Proof.
  intros H. pose proof (to_uint_normal p) as Hn. rewrite H in Hn.
  rewrite unorm_D0 in Hn.
  assert (Hd : d = Nil \/ d <> Nil) by (destruct d; [by left | right; discriminate ..]).
  destruct Hd as [->|Hd].
  - apply (DecimalPos.Unsigned.to_uint_nonzero p). exact H.
  - pose proof (nb_digits_unorm d Hd) as Hle. rewrite Hn in Hle. cbn in Hle. lia.
Qed.

(** The decimal digits of a positive number start with a digit other
    than zero. *)
Lemma chars_of_positive (p : positive) :
  exists c cs, json.chars_of_uint (Pos.to_uint p) = c :: cs
    /\ json.is_digit c = true /\ byte_val c <> 48 /\ byte_val c <> 45.
Proof.
  pose proof (to_uint_head p) as Hh. pose proof (DecimalPos.Unsigned.to_uint_nonnil p) as Hn.
  destruct (Pos.to_uint p) as [|d|d|d|d|d|d|d|d|d|d]; [contradiction|by destruct (Hh d)|..];
    eexists _, _; (split; [reflexivity|]); repeat split; discriminate.
Qed.

Lemma scan_frac_end (tail : list ascii) :
  ends_number tail -> json.scan_frac tail = Some ([], tail).
Proof.
  destruct tail as [|c tail]; [reflexivity|]. intros (_ & H & _). unfold json.scan_frac.
  by destruct (Z.eqb_spec (byte_val c) 46).
Qed.

Lemma scan_exp_end (tail : list ascii) :
  ends_number tail -> json.scan_exp tail = Some ([], tail).
Proof.
  destruct tail as [|c tail]; [reflexivity|]. intros (_ & _ & H1 & H2). unfold json.scan_exp.
  by destruct (Z.eqb_spec (byte_val c) 101), (Z.eqb_spec (byte_val c) 69).
Qed.

Lemma scan_number_unsigned (p : positive) (tail : list ascii) :
  ends_number tail ->
  json.scan_int (json.chars_of_uint (Pos.to_uint p) ++ tail)
  = Some (json.chars_of_uint (Pos.to_uint p), tail).
Proof.
  intros Htail. pose proof (span_digits_chars (Pos.to_uint p) tail Htail) as Hspan.
  destruct (chars_of_positive p) as (c & cs & Hcs & Hd & H0 & _). rewrite Hcs in *.
  cbn [app] in *. unfold json.scan_int.
  destruct (Z.eqb_spec (byte_val c) 48); [contradiction|]. rewrite Hd. by rewrite Hspan.
Qed.

Lemma scan_number_integer (s sg s1 ip s2 : list ascii) :
  json.scan_sign s = (sg, s1) -> json.scan_int s1 = Some (ip, s2) -> ends_number s2 ->
  json.scan_number s = Some (sg ++ ip, s2).
Proof.
  intros Hs Hi He. unfold json.scan_number. rewrite Hs, Hi. cbn [mbind option_bind].
  rewrite scan_frac_end by assumption. cbn [mbind option_bind].
  rewrite scan_exp_end by assumption. cbn [mbind option_bind app].
  by rewrite app_nil_r.
Qed.

(** A formatted integer is scanned as one number literal. *)
Lemma scan_number_FormatInt (z : Z) (tail : list ascii) :
  ends_number tail ->
  json.scan_number (json.FormatInt z ++ tail) = Some (json.FormatInt z, tail).
Proof.
  intros Htail. unfold json.FormatInt.
  destruct z as [|p|p]; cbn [Z.to_int].
  - by apply (scan_number_integer _ [] ("0"%char :: tail) ["0"%char] tail).
  - destruct (chars_of_positive p) as (c & cs & Hcs & Hd & H0 & Hm).
    apply (scan_number_integer _ [] (json.chars_of_uint (Pos.to_uint p) ++ tail));
      [|by apply scan_number_unsigned|assumption].
    rewrite Hcs. cbn. by destruct (Z.eqb_spec (byte_val c) 45).
  - apply (scan_number_integer _ ["-"%char] (json.chars_of_uint (Pos.to_uint p) ++ tail));
      [reflexivity|by apply scan_number_unsigned|assumption].
Qed.

Lemma ParseUint_positive (p : positive) :
  json.ParseUint (json.chars_of_uint (Pos.to_uint p)) = Some (Z.pos p).
Proof.
  assert (H : forall l, l <> [] -> json.ParseUint l = Z.of_uint <$> json.uint_of_chars l)
    by (intros [|c l] Hl; [contradiction | reflexivity]).
  destruct (chars_of_positive p) as (c & cs & Hcs & _).
  rewrite H by (rewrite Hcs; discriminate).
  rewrite uint_of_chars_of_uint. cbn.
  unfold Z.of_uint. rewrite DecimalPos.Unsigned.of_to. reflexivity.
Qed.

Lemma ParseInt_FormatInt (z : Z) : in_int64 z = true -> json.ParseInt (json.FormatInt z) = Some z.
Proof.
  intros Hz. unfold json.ParseInt, json.FormatInt.
  destruct z as [|p|p]; cbn [Z.to_int].
  - reflexivity.
  - destruct (chars_of_positive p) as (c & cs & Hcs & _ & _ & Hm).
    rewrite Hcs. destruct (Z.eqb_spec (byte_val c) 45); [contradiction|].
    rewrite <- Hcs, ParseUint_positive. cbn. by rewrite Hz.
  - change (byte_val "-" =? 45) with true. cbn iota.
    rewrite ParseUint_positive. cbn. change (- Z.pos p) with (Z.neg p). by rewrite Hz.
Qed.

Lemma ParseUint_FormatInt (z : Z) : 0 <= z -> json.ParseUint (json.FormatInt z) = Some z.
Proof.
  intros Hz. unfold json.FormatInt. destruct z as [|p|p]; [reflexivity| |lia].
  apply ParseUint_positive.
Qed.

(** A formatted integer starts with a minus sign or a digit. *)
Lemma FormatInt_head (z : Z) :
  exists c cs, json.FormatInt z = c :: cs
    /\ ((byte_val c =? 45) || json.is_digit c) = true.
Proof.
  unfold json.FormatInt. destruct z as [|p|p]; cbn [Z.to_int].
  - eexists _, _. split; reflexivity.
  - destruct (chars_of_positive p) as (c & cs & Hcs & Hd & _).
    exists c, cs. split; [assumption|]. rewrite Hd. apply orb_true_r.
  - eexists _, _. split; reflexivity.
Qed.

(** *** Values *)

Definition render_elements : list json.value -> list ascii :=
  fix elements (vs : list json.value) : list ascii :=
    match vs with
    | [] => []
    | [v] => json.render v
    | v :: vs' => json.render v ++ ","%char :: elements vs'
    end.

Definition render_members : list (list ascii * json.value) -> list ascii :=
  fix members (ms : list (list ascii * json.value)) : list ascii :=
    match ms with
    | [] => []
    | [(k, v)] => json.encode_string k ++ ":"%char :: json.render v
    | (k, v) :: ms' => json.encode_string k ++ ":"%char :: json.render v ++ ","%char :: members ms'
    end.

Lemma render_Array (vs : list json.value) :
  json.render (json.Array vs) = "["%char :: render_elements vs ++ ["]"%char].
Proof. reflexivity. Qed.

Lemma render_Object (ms : list (list ascii * json.value)) :
  json.render (json.Object ms) = "{"%char :: render_members ms ++ ["}"%char].
Proof. reflexivity. Qed.

Lemma skip_space_id (c : ascii) (s : list ascii) :
  json.is_space c = false -> json.skip_space (c :: s) = c :: s.
Proof. intros H. cbn [json.skip_space]. by rewrite H. Qed.

Lemma not_space (c : ascii) :
  byte_val c <> 32 -> byte_val c <> 9 -> byte_val c <> 13 -> byte_val c <> 10 ->
  json.is_space c = false.
Proof. intros. unfold json.is_space. cbv zeta. by decide_tests. Qed.

Lemma is_digit_spec (c : ascii) : json.is_digit c = true <-> 48 <= byte_val c <= 57.
Proof. unfold json.is_digit. rewrite andb_true_iff, !Z.leb_le. tauto. Qed.

(** What follows a value inside an array or an object, or nothing. *)
Definition ends_value (tail : list ascii) : Prop :=
  match tail with
  | [] => True
  | c :: _ => byte_val c = 44 \/ byte_val c = 93 \/ byte_val c = 125
  end.

Lemma ends_value_number (tail : list ascii) : ends_value tail -> ends_number tail.
Proof.
  destruct tail as [|c tail]; [done|]. cbn. intros H. repeat split; try lia.
  apply not_true_iff_false. rewrite is_digit_spec. lia.
Qed.

Lemma parse_value_string (f : nat) (s rest : list ascii) :
  json.skip_space s = json.quote :: rest ->
  json.parse_value (S f) s = '(str, tl) ← json.unquote_body 0 rest; Some (json.Str str, tl).
Proof. intros H. cbn [json.parse_value]. rewrite H. reflexivity. Qed.

Lemma parse_value_number (f : nat) (s : list ascii) (c : ascii) (rest : list ascii) :
  json.skip_space s = c :: rest ->
  (byte_val c =? 45) || json.is_digit c = true ->
  json.parse_value (S f) s
  = '(lit, tl) ← json.scan_number (c :: rest); Some (json.Number lit, tl).
Proof.
  intros H Hc. cbn [json.parse_value]. rewrite H, Hc.
  assert (Hb : byte_val c = 45 \/ 48 <= byte_val c <= 57).
  { apply orb_true_iff in Hc as [Hc|Hc]; [left; by apply Z.eqb_eq | right; by apply is_digit_spec]. }
  destruct (Z.eqb_spec (byte_val c) 123); [lia|].
  destruct (Z.eqb_spec (byte_val c) 91); [lia|].
  destruct (Z.eqb_spec (byte_val c) 34); [lia|]. reflexivity.
Qed.

Lemma parse_value_array (f : nat) (s rest : list ascii) (c' : ascii) (rest' : list ascii) :
  json.skip_space s = "["%char :: rest ->
  json.skip_space rest = c' :: rest' -> byte_val c' <> 93 ->
  json.parse_value (S f) s
  = '(vs, tl) ← json.parse_elements f rest; Some (json.Array vs, tl).
Proof.
  intros H H' Hc. cbn [json.parse_value]. rewrite H, H'.
  change (byte_val "[") with 91. cbn [Z.eqb Pos.eqb].
  by destruct (Z.eqb_spec (byte_val c') 93).
Qed.

Lemma parse_value_object (f : nat) (s rest : list ascii) (c' : ascii) (rest' : list ascii) :
  json.skip_space s = "{"%char :: rest ->
  json.skip_space rest = c' :: rest' -> byte_val c' <> 125 ->
  json.parse_value (S f) s
  = '(ms, tl) ← json.parse_members f rest; Some (json.Object ms, tl).
Proof.
  intros H H' Hc. cbn [json.parse_value]. rewrite H, H'.
  change (byte_val "{") with 123. cbn [Z.eqb Pos.eqb].
  by destruct (Z.eqb_spec (byte_val c') 125).
Qed.

(** The values of a descriptor: a string of valid UTF-8, an integer, a
    non-empty array of integers. *)
Definition numbers (zs : list Z) : list json.value := int_value <$> zs.

Inductive flat : json.value -> Prop :=
| flat_Str (s : list ascii) : utf8.Valid s = true -> flat (json.Str s)
| flat_Number (z : Z) : flat (int_value z)
| flat_Array (zs : list Z) : zs <> [] -> flat (json.Array (numbers zs)).

Lemma FormatInt_starts (z : Z) (tail : list ascii) :
  exists c rest, json.FormatInt z ++ tail = c :: rest
    /\ (byte_val c =? 45) || json.is_digit c = true
    /\ json.skip_space (json.FormatInt z ++ tail) = c :: rest
    /\ byte_val c <> 93 /\ (0 < length (json.FormatInt z))%nat.
Proof.
  destruct (FormatInt_head z) as (c & cs & Hz & Hc). rewrite Hz. cbn [app length].
  exists c, (cs ++ tail). split; [reflexivity|]. split; [assumption|].
  assert (Hb : byte_val c = 45 \/ 48 <= byte_val c <= 57).
  { apply orb_true_iff in Hc as [H|H]; [left; by apply Z.eqb_eq | right; by apply is_digit_spec]. }
  split; [apply skip_space_id, not_space; lia|]. split; lia.
Qed.

Lemma parse_number (f : nat) (z : Z) (tail : list ascii) :
  ends_value tail ->
  json.parse_value (S f) (json.FormatInt z ++ tail) = Some (int_value z, tail).
Proof.
  intros Htail. destruct (FormatInt_starts z tail) as (c & rest & Heq & Hc & Hskip & _).
  rewrite (parse_value_number f _ c rest Hskip Hc), <- Heq.
  rewrite scan_number_FormatInt by (by apply ends_value_number). reflexivity.
Qed.

Lemma parse_string (f : nat) (s tail : list ascii) :
  utf8.Valid s = true ->
  json.parse_value (S f) (json.encode_string s ++ tail) = Some (json.Str s, tail).
Proof.
  intros Hs. destruct (unquote_encode_string s tail Hs) as (body & Heq & Hbody).
  rewrite Heq, (parse_value_string f _ body) by reflexivity. by rewrite Hbody.
Qed.

Lemma render_elements_cons (z : Z) (zs : list Z) :
  render_elements (numbers (z :: zs))
  = json.FormatInt z ++ match zs with [] => [] | _ => ","%char :: render_elements (numbers zs) end.
Proof. destruct zs; cbn; [by rewrite app_nil_r | reflexivity]. Qed.

Lemma render_elements_length (zs : list Z) :
  (length zs <= length (render_elements (numbers zs)))%nat.
Proof.
  induction zs as [|z zs IH]; [done|]. rewrite render_elements_cons, length_app.
  destruct (FormatInt_starts z []) as (_ & _ & _ & _ & _ & _ & Hl).
  destruct zs; cbn [length] in *; lia.
Qed.

Lemma parse_elements_numbers (zs : list Z) :
  forall (fuel : nat) (tail : list ascii),
    zs <> [] ->
    (length (render_elements (numbers zs)) < fuel)%nat ->
    json.parse_elements fuel (render_elements (numbers zs) ++ "]"%char :: tail)
    = Some (numbers zs, tail).
Proof.
  induction zs as [|z zs IH]; intros fuel tail Hne Hfuel; [contradiction|].
  rewrite render_elements_cons in *. rewrite length_app in Hfuel.
  destruct (FormatInt_starts z []) as (_ & _ & _ & _ & _ & _ & Hl).
  destruct fuel as [|f]; [lia|].
  cbn [json.parse_elements]. rewrite <- app_assoc.
  assert (Hv : json.parse_value f (json.FormatInt z ++
                 match zs with [] => [] | _ => ","%char :: render_elements (numbers zs) end
                 ++ "]"%char :: tail)
               = Some (int_value z, match zs with [] => [] | _ => ","%char :: render_elements (numbers zs) end
                 ++ "]"%char :: tail)).
  { destruct f as [|f]; [lia|]. apply parse_number. destruct zs; cbn; auto. }
  rewrite Hv. clear Hv. cbn [mbind option_bind].
  destruct zs as [|z' zs].
  - cbn [app]. rewrite skip_space_id by reflexivity.
    change (byte_val "]") with 93. reflexivity.
  - cbn [app]. rewrite skip_space_id by reflexivity.
    change (byte_val ",") with 44. cbn [Z.eqb Pos.eqb].
    rewrite IH; [reflexivity | discriminate | cbn [length] in Hfuel; lia].
Qed.

Lemma parse_array (fuel : nat) (zs : list Z) (tail : list ascii) :
  zs <> [] ->
  (length (json.render (json.Array (numbers zs))) <= fuel)%nat ->
  json.parse_value fuel (json.render (json.Array (numbers zs)) ++ tail)
  = Some (json.Array (numbers zs), tail).
Proof.
  intros Hne Hfuel. rewrite render_Array in *. cbn [length] in Hfuel.
  rewrite length_app in Hfuel. cbn [length] in Hfuel.
  destruct fuel as [|f]; [lia|]. cbn [app]. rewrite <- app_assoc. cbn [app].
  destruct zs as [|z zs]; [contradiction|].
  destruct (FormatInt_starts z (match zs with [] => [] | _ => ","%char :: render_elements (numbers zs) end
                                ++ "]"%char :: tail))
    as (c & rest & Heq & _ & Hskip & Hc & _).
  rewrite (parse_value_array f _ (render_elements (numbers (z :: zs)) ++ "]"%char :: tail) c rest).
  - rewrite parse_elements_numbers by (discriminate || lia). reflexivity.
  - by apply skip_space_id.
  - rewrite render_elements_cons, <- app_assoc. exact Hskip.
  - exact Hc.
Qed.

Lemma parse_flat (fuel : nat) (v : json.value) (tail : list ascii) :
  flat v -> (length (json.render v) <= fuel)%nat -> ends_value tail ->
  json.parse_value fuel (json.render v ++ tail) = Some (v, tail).
Proof.
  intros Hv Hfuel Htail. destruct Hv as [s Hs|z|zs Hzs].
  - destruct fuel as [|f]; [cbn in Hfuel; lia|]. by apply parse_string.
  - destruct (FormatInt_starts z []) as (_ & _ & _ & _ & _ & _ & Hl).
    destruct fuel as [|f]; [cbn in Hfuel; lia|]. by apply parse_number.
  - by apply parse_array.
Qed.

(** *** Objects *)

Definition well_formed (kv : list ascii * json.value) : Prop :=
  utf8.Valid kv.1 = true /\ flat kv.2.

Lemma render_members_cons (k : list ascii) (v : json.value) (ms : list (list ascii * json.value)) :
  render_members ((k, v) :: ms)
  = json.encode_string k ++ ":"%char :: json.render v
      ++ match ms with [] => [] | _ => ","%char :: render_members ms end.
Proof. destruct ms; cbn; [by rewrite app_nil_r | reflexivity]. Qed.

Lemma parse_members_flat (ms : list (list ascii * json.value)) :
  forall (fuel : nat) (tail : list ascii),
    ms <> [] -> Forall well_formed ms ->
    (length (render_members ms) < fuel)%nat ->
    json.parse_members fuel (render_members ms ++ "}"%char :: tail) = Some (ms, tail).
Proof.
  induction ms as [|[k v] ms IH]; intros fuel tail Hne Hms Hfuel; [contradiction|].
  apply Forall_cons in Hms as [[Hk Hv] Hms]. cbn [fst snd] in Hk, Hv.
  rewrite render_members_cons in *.
  set (more := match ms with [] => [] | _ => ","%char :: render_members ms end) in *.
  rewrite length_app in Hfuel. cbn [length] in Hfuel. rewrite length_app in Hfuel.
  destruct fuel as [|f]; [lia|].
  destruct (unquote_encode_string k (":"%char :: json.render v ++ more ++ "}"%char :: tail) Hk)
    as (body & Heq & Hbody).
  assert (Hv' : json.parse_value f (json.render v ++ more ++ "}"%char :: tail)
                = Some (v, more ++ "}"%char :: tail)).
  { apply parse_flat; [assumption | lia |]. subst more. destruct ms; cbn; auto. }
  cbn [json.parse_members].
  rewrite <- app_assoc. cbn [app]. rewrite <- app_assoc, Heq.
  rewrite skip_space_id by reflexivity. rewrite byte_val_quote. cbn [Z.eqb Pos.eqb].
  rewrite Hbody. cbn [mbind option_bind].
  rewrite skip_space_id by reflexivity. change (byte_val ":") with 58. cbn [Z.eqb Pos.eqb].
  rewrite Hv'. cbn [mbind option_bind]. subst more.
  destruct ms as [|kv ms].
  - cbn [app]. rewrite skip_space_id by reflexivity. change (byte_val "}") with 125.
    reflexivity.
  - cbn [app]. rewrite skip_space_id by reflexivity. change (byte_val ",") with 44.
    cbn [Z.eqb Pos.eqb].
    rewrite IH; [reflexivity | discriminate | assumption | cbn [length] in Hfuel; lia].
Qed.

Lemma parse_render_object (ms : list (list ascii * json.value)) :
  ms <> [] -> Forall well_formed ms ->
  json.parse (json.render (json.Object ms)) = Some (json.Object ms).
Proof.
  intros Hne Hms. unfold json.parse. rewrite render_Object.
  assert (Hhead : exists body, render_members ms ++ ["}"%char] = json.quote :: body).
  { destruct ms as [|[k v] ms]; [contradiction|]. rewrite render_members_cons.
    apply Forall_cons in Hms as [[Hk _] _]. cbn [fst] in Hk.
    destruct (unquote_encode_string k [] Hk) as (body & Heq & _).
    rewrite app_nil_r in Heq. rewrite Heq. cbn [app]. eauto. }
  destruct Hhead as (body & Hhead).
  rewrite (parse_value_object _ _ (render_members ms ++ ["}"%char]) json.quote body).
  - rewrite parse_members_flat; [reflexivity | assumption | assumption |].
    cbn [length]. rewrite length_app. cbn [length]. lia.
  - by apply skip_space_id.
  - rewrite Hhead. by apply skip_space_id.
  - rewrite byte_val_quote. lia.
Qed.

(** *** Descriptors *)

Definition members_of (m : Metadata) : list (list ascii * json.value) :=
  match to_value m with
  | json.Object ms => ms
  | _ => []
  end.

(** What the types of the fields say, on a 64-bit platform, and strings that
    hold text. *)
Record valid_Metadata (m : Metadata) : Prop := {
  valid_IP : utf8.ValidString (IP m) = true;
  valid_TCPPort : in_int64 (TCPPort m) = true;
  valid_UDPPort : in_int64 (UDPPort m) = true;
  valid_ServiceId : in_uint8 (ServiceId m) = true;
  valid_ServiceTCP : Forall (fun z => in_int64 z = true) (elements (ServiceTCP m));
  valid_ServiceUDP : Forall (fun z => in_int64 z = true) (elements (ServiceUDP m));
  valid_Price : utf8.ValidString (Price m) = true;
  valid_BeneficiaryAddr : utf8.ValidString (BeneficiaryAddr m) = true
}.

(** What comes back for a slice that was written with [omitempty]: a slice
    with elements comes back as it is; a slice without elements, nil or not,
    is left out of the bytes, and the field of the new record stays nil. *)
Definition decoded_slice (s : int_slice) : int_slice :=
  match s with
  | make_slice (_ :: _) => s
  | _ => nil_slice
  end.

Definition decoded_Metadata (m : Metadata) : Metadata :=
  {| IP := IP m; TCPPort := TCPPort m; UDPPort := UDPPort m; ServiceId := ServiceId m;
     ServiceTCP := decoded_slice (ServiceTCP m); ServiceUDP := decoded_slice (ServiceUDP m);
     Price := Price m; BeneficiaryAddr := BeneficiaryAddr m |}.

(** The members that one object addresses, in input order. *)
Definition addressed (ms : list (list ascii * json.value)) : list field :=
  omap (fun kv => find_field kv.1) ms.

Lemma to_value_members (m : Metadata) : to_value m = json.Object (members_of m).
Proof. reflexivity. Qed.

Lemma find_field_name (f : field) :
  find_field (list_ascii_of_string (field_name f)) = Some f.
Proof. by destruct f; vm_compute. Qed.

Lemma field_name_valid (f : field) :
  utf8.Valid (list_ascii_of_string (field_name f)) = true.
Proof. by destruct f; vm_compute. Qed.

Lemma member_string_well_formed (f : field) (s : string) :
  utf8.ValidString s = true -> well_formed (member f (string_value s)).
Proof. intros Hs. split; [apply field_name_valid | by constructor]. Qed.

Lemma member_int_well_formed (f : field) (z : Z) : well_formed (member f (int_value z)).
Proof. split; [apply field_name_valid | constructor]. Qed.

Lemma member_ints_well_formed (f : field) (zs : list Z) :
  zs <> [] -> well_formed (member f (json.Array (int_value <$> zs))).
Proof. intros Hzs. split; [apply field_name_valid | by apply flat_Array]. Qed.

Lemma members_of_well_formed (m : Metadata) :
  valid_Metadata m -> members_of m <> [] /\ Forall well_formed (members_of m).
Proof.
  intros [HIP _ _ _ _ _ HPrice HAddr]. split; [discriminate|].
  unfold members_of, to_value.
  repeat (apply Forall_cons; split;
          [first [by apply member_string_well_formed | apply member_int_well_formed]|]).
  cbn [app]. repeat apply Forall_app_2.
  - destruct (ServiceTCP m) as [|[|z zs]]; cbn [len elements length Nat.eqb]; [constructor..|].
    apply Forall_singleton. by apply member_ints_well_formed.
  - destruct (ServiceUDP m) as [|[|z zs]]; cbn [len elements length Nat.eqb]; [constructor..|].
    apply Forall_singleton. by apply member_ints_well_formed.
  - destruct (String.length (Price m) =? 0)%nat; [constructor|].
    apply Forall_singleton. by apply member_string_well_formed.
  - destruct (String.length (BeneficiaryAddr m) =? 0)%nat; [constructor|].
    apply Forall_singleton. by apply member_string_well_formed.
Qed.

Lemma store_string_value (s old : string) : store_string (string_value s) old = (s, None).
Proof. cbn. by rewrite string_of_list_ascii_of_string. Qed.

Lemma store_int_value (z old : Z) :
  in_int64 z = true -> store_int (int_value z) old = (z, None).
Proof. intros Hz. cbn. by rewrite ParseInt_FormatInt. Qed.

Lemma store_byte_value (z old : Z) :
  in_uint8 z = true -> store_byte (int_value z) old = (z, None).
Proof.
  intros Hz. cbn. rewrite ParseUint_FormatInt, Hz; [reflexivity|].
  unfold in_uint8 in Hz. apply andb_true_iff in Hz as [Hz _]. by apply Z.leb_le.
Qed.

Lemma store_elements_values (zs : list Z) :
  forall old : list Z,
    Forall (fun z => in_int64 z = true) zs ->
    store_elements (int_value <$> zs) old = (zs, None).
Proof.
  induction zs as [|z zs IH]; intros old Hzs; [reflexivity|].
  apply Forall_cons in Hzs as [Hz Hzs]. cbn [fmap list_fmap store_elements].
  rewrite store_int_value by assumption.
  change (list_fmap Z json.value int_value zs) with (int_value <$> zs).
  by rewrite IH.
Qed.

Lemma store_members_cons (f : field) (v : json.value) (ms : list (list ascii * json.value))
    (m : Metadata) :
  store_members (member f v :: ms) m
  = let '(m1, e1) := store_field f v m in
    let '(m2, e2) := store_members ms m1 in
    (m2, first_error e1 e2).
Proof. unfold member. cbn [store_members]. by rewrite find_field_name. Qed.

Lemma store_members_of (m : Metadata) :
  valid_Metadata m -> store_members (members_of m) zero_Metadata = (decoded_Metadata m, None).
Proof.
  intros [HIP HTCP HUDP HId HSTCP HSUDP _ _].
  destruct m as [ip tcpPort udpPort serviceId serviceTCP serviceUDP price addr].
  cbn [IP TCPPort UDPPort ServiceId ServiceTCP ServiceUDP Price BeneficiaryAddr] in *.
  unfold members_of, to_value, decoded_Metadata.
  cbn [IP TCPPort UDPPort ServiceId ServiceTCP ServiceUDP Price BeneficiaryAddr app].
  assert (Hc1 : forall zs, Forall (fun z => in_int64 z = true) zs ->
                  store_ints (json.Array (int_value <$> zs)) nil_slice
                  = (make_slice zs, None)).
  { intros zs Hzs. cbn [store_ints elements]. by rewrite store_elements_values. }
  destruct serviceTCP as [|[|t serviceTCP]], serviceUDP as [|[|u serviceUDP]],
           price as [|p price], addr as [|a addr];
    cbn [len elements decoded_slice length String.length Nat.eqb app] in *;
    repeat (rewrite store_members_cons;
            cbn [store_field zero_Metadata IP TCPPort UDPPort ServiceId ServiceTCP ServiceUDP
                 Price BeneficiaryAddr];
            rewrite ?store_string_value, ?store_int_value, ?store_byte_value, ?Hc1
              by assumption;
            cbn beta iota zeta);
    reflexivity.
Qed.

(** A field that no member addresses keeps what it held. *)
Lemma store_members_absent (ms : list (list ascii * json.value)) :
  forall m : Metadata,
    (fServiceTCP ∉ addressed ms -> ServiceTCP (store_members ms m).1 = ServiceTCP m)
    /\ (fServiceUDP ∉ addressed ms -> ServiceUDP (store_members ms m).1 = ServiceUDP m)
    /\ (fPrice ∉ addressed ms -> Price (store_members ms m).1 = Price m)
    /\ (fBeneficiaryAddr ∉ addressed ms ->
        BeneficiaryAddr (store_members ms m).1 = BeneficiaryAddr m).
Proof.
  induction ms as [|[k v] ms IH]; intros m; [by cbn|].
  unfold addressed in *. cbn [omap list_omap store_members fst].
  destruct (find_field k) as [f|] eqn:Hf; [|apply IH].
  destruct (store_field f v m) as [m1 e1] eqn:H1.
  specialize (IH m1). destruct (store_members ms m1) as [m2 e2]. cbn [fst] in *.
  destruct IH as (I1 & I2 & I3 & I4).
  assert (Hkeep : (f <> fServiceTCP -> ServiceTCP m1 = ServiceTCP m)
                  /\ (f <> fServiceUDP -> ServiceUDP m1 = ServiceUDP m)
                  /\ (f <> fPrice -> Price m1 = Price m)
                  /\ (f <> fBeneficiaryAddr -> BeneficiaryAddr m1 = BeneficiaryAddr m)).
  { unfold store_field in H1.
    destruct f;
      repeat match type of H1 with
             | (let '(_, _) := ?x in _) = _ => destruct x
             end;
      injection H1 as <- _; cbn; repeat split; intros; congruence. }
  destruct Hkeep as (K1 & K2 & K3 & K4).
  repeat split; intros Hnot; apply not_elem_of_cons in Hnot as [Hne Hnot].
  - rewrite I1, K1; auto.
  - rewrite I2, K2; auto.
  - rewrite I3, K3; auto.
  - rewrite I4, K4; auto.
Qed.

Lemma json_Unmarshal_Marshal (m : Metadata) :
  valid_Metadata m ->
  json_Unmarshal (json_Marshal m).1 zero_Metadata = (decoded_Metadata m, None).
Proof.
  intros Hm. unfold json_Unmarshal, json_Marshal. cbn [fst].
  destruct (members_of_well_formed m Hm) as [Hne Hms].
  rewrite to_value_members, parse_render_object by assumption.
  by apply store_members_of.
Qed.

(** C2. A descriptor whose fields hold what their types say (integers of 64
    bits, a service id of one byte, strings of valid UTF-8) is read by
    [ReadMetadata] from the bytes of [CreateRawMetadata] into a new record,
    with no error.  The record holds the integers and the strings that were
    given, an empty string included, and every slice that has elements.  A
    slice without elements is left out of the bytes, whether it is nil or
    [[]int{}], and comes back as the nil slice: the elements are the same,
    the value is the one given only if that was nil.  An [omitempty] field
    that an input object does not address is at its zero value in the record
    that [ReadMetadata] returns. *)
Theorem Metadata_round_trip (serviceId : Z) (serviceTCP serviceUDP : int_slice) (ip : string)
    (tcpPort udpPort : Z) (price beneficiaryAddr : string) (h : gmap loc Metadata) :
  in_uint8 serviceId = true ->
  Forall (fun z => in_int64 z = true) (elements serviceTCP) ->
  Forall (fun z => in_int64 z = true) (elements serviceUDP) ->
  utf8.ValidString ip = true ->
  in_int64 tcpPort = true ->
  in_int64 udpPort = true ->
  utf8.ValidString price = true ->
  utf8.ValidString beneficiaryAddr = true ->
  (exists metadataRaw : list ascii,
      CreateRawMetadata serviceId serviceTCP serviceUDP ip tcpPort udpPort price beneficiaryAddr
      = Some metadataRaw
      /\ ReadMetadata (string_of_list_ascii metadataRaw) h
         = ((fresh (dom h), None),
            <[fresh (dom h) :=
                {| IP := ip; TCPPort := tcpPort; UDPPort := udpPort; ServiceId := serviceId;
                   ServiceTCP := decoded_slice serviceTCP;
                   ServiceUDP := decoded_slice serviceUDP; Price := price;
                   BeneficiaryAddr := beneficiaryAddr |}]> h))
  /\ (forall s : int_slice,
         elements (decoded_slice s) = elements s
         /\ (s <> make_slice [] <-> decoded_slice s = s))
  /\ (forall (metadataString : string) (ms : list (list ascii * json.value)),
         json.parse (list_ascii_of_string metadataString) = Some (json.Object ms) ->
         exists (m : Metadata) (err : option error),
           ReadMetadata metadataString h = ((fresh (dom h), err), <[fresh (dom h) := m]> h)
           /\ (fServiceTCP ∉ addressed ms -> ServiceTCP m = nil_slice)
           /\ (fServiceUDP ∉ addressed ms -> ServiceUDP m = nil_slice)
           /\ (fPrice ∉ addressed ms -> Price m = EmptyString)
           /\ (fBeneficiaryAddr ∉ addressed ms -> BeneficiaryAddr m = EmptyString)).
Proof.
  intros HId HSTCP HSUDP HIP HTCP HUDP HPrice HAddr. split; [|split].
  - eexists. split; [reflexivity|].
    unfold ReadMetadata, alloc. rewrite list_ascii_of_string_of_list_ascii.
    change (json.render (to_value ?m)) with (json_Marshal m).1.
    rewrite json_Unmarshal_Marshal by (by constructor).
    by rewrite insert_insert_eq.
  - intros [|[|z zs]]; cbn [decoded_slice elements]; (split; [reflexivity|]);
      split; first [reflexivity | discriminate | contradiction].
  - intros metadataString ms Hparse.
    unfold ReadMetadata, alloc, json_Unmarshal. rewrite Hparse.
    pose proof (store_members_absent ms zero_Metadata) as Habsent.
    destruct (store_members ms zero_Metadata) as [m err]. cbn [fst] in Habsent.
    exists m, err. split; [by rewrite insert_insert_eq | exact Habsent].
Qed.

Lemma Metadata_round_trip_witness :
  exists metadataRaw : list ascii,
    CreateRawMetadata 7 (make_slice [80; 443]) (make_slice []) "192.0.2.1" 30004 30005
      "0.001" "" = Some metadataRaw
    /\ ReadMetadata (string_of_list_ascii metadataRaw) (∅ : gmap loc Metadata)
       = ((fresh (dom (∅ : gmap loc Metadata)), None),
          <[fresh (dom (∅ : gmap loc Metadata)) :=
              {| IP := "192.0.2.1"; TCPPort := 30004; UDPPort := 30005; ServiceId := 7;
                 ServiceTCP := make_slice [80; 443]; ServiceUDP := nil_slice;
                 Price := "0.001"; BeneficiaryAddr := "" |}]> ∅).
Proof.
  refine (proj1 (Metadata_round_trip 7 (make_slice [80; 443]) (make_slice []) "192.0.2.1"
                   30004 30005 "0.001" "" ∅ _ _ _ _ _ _ _ _));
    first [reflexivity | repeat constructor].
Defined.

(** C2 as claimed fails on the descriptor of the reverse entry, which is built
    with the service id 255 and two slices [[]int{}]: both members are left
    out of the bytes, [ReadMetadata] gives a record whose slices are nil, and
    that record is not the one that was built. *)
Lemma empty_slice_comes_back_nil :
  exists (metadataRaw : list ascii) (m : Metadata),
    CreateRawMetadata 255 (make_slice []) (make_slice []) "192.0.2.1" 30004 30005 "0.001" ""
    = Some metadataRaw
    /\ (ReadMetadata (string_of_list_ascii metadataRaw) ∅).1.2 = None
    /\ (ReadMetadata (string_of_list_ascii metadataRaw) ∅).2
         !! (ReadMetadata (string_of_list_ascii metadataRaw) ∅).1.1 = Some m
    /\ ServiceTCP m = nil_slice /\ ServiceUDP m = nil_slice
    /\ m <> {| IP := "192.0.2.1"; TCPPort := 30004; UDPPort := 30005; ServiceId := 255;
               ServiceTCP := make_slice []; ServiceUDP := make_slice []; Price := "0.001";
               BeneficiaryAddr := "" |}.
Proof.
  eexists _, _. split; [reflexivity|]. split; [vm_compute; reflexivity|].
  split; [vm_compute; reflexivity|]. split; [reflexivity|]. split; [reflexivity|].
  discriminate.
Qed.

(** The bound on the text is needed: a byte that is no UTF-8 is written as
    U+FFFD, and that is what comes back. *)
Remark text_not_utf8_not_restored :
  exists metadataRaw : list ascii,
    CreateRawMetadata 0 nil_slice nil_slice (String (byte_of 255) EmptyString) 0 0 "" ""
    = Some metadataRaw
    /\ (IP <$> (ReadMetadata (string_of_list_ascii metadataRaw) ∅).2
               !! (ReadMetadata (string_of_list_ascii metadataRaw) ∅).1.1)
       = Some (String (byte_of 239) (String (byte_of 191) (String (byte_of 189) EmptyString))).
Proof. eexists. split; [reflexivity|]. by vm_compute. Qed.

(** * Further properties of the package *)

(** ** The descriptor decoder *)

Definition known (kv : list ascii * json.value) : bool :=
  bool_decide (is_Some (find_field kv.1)).

Definition lowered (s : list ascii) : list Z := lower <$> s.

Lemma equalFold_nil_r (s : list ascii) : equalFold s [] = true -> s = [].
Proof. by destruct s. Qed.

(** Two names that fold to the same key agree up to the case of their
    letters. *)
Lemma equalFold_lowered (s : list ascii) :
  forall s' key : list ascii,
    equalFold s key = true -> equalFold s' key = true -> lowered s = lowered s'.
Proof.
  induction s as [|sb s IH]; intros s' key Hs Hs'.
  - destruct key; [|discriminate]. by rewrite (equalFold_nil_r s' Hs').
  - destruct key as [|tb t']; [discriminate|].
    destruct s' as [|sb' s']; [discriminate|].
    cbn [equalFold] in Hs, Hs'. unfold lowered. cbn [fmap list_fmap].
    destruct (byte_val tb <? utf8.RuneSelf).
    + apply andb_true_iff in Hs as [H1 H2], Hs' as [H1' H2'].
      apply Z.eqb_eq in H1, H1'. f_equal; [congruence | exact (IH _ _ H2 H2')].
    + destruct t' as [|t1 t'']; [discriminate|].
      destruct (Z.eqb_spec (byte_val tb) 197) as [Htb|Htb].
      * destruct (Z.eqb_spec (byte_val t1) 191) as [Ht1|Ht1].
        -- rewrite !andb_true_r in Hs, Hs'.
           destruct (Z.eqb_spec (lower sb) 115) as [Hsb|Hsb].
           ++ destruct (Z.eqb_spec (lower sb') 115) as [Hsb'|Hsb'].
              ** f_equal; [congruence | exact (IH _ _ Hs Hs')].
              ** destruct t''; [discriminate|].
                 replace (byte_val tb =? 226) with false in Hs' by (symmetry; apply Z.eqb_neq; lia).
                 by rewrite andb_false_r in Hs'.
           ++ destruct t''; [discriminate|].
              replace (byte_val tb =? 226) with false in Hs by (symmetry; apply Z.eqb_neq; lia).
              by rewrite andb_false_r in Hs.
        -- rewrite !andb_false_r in Hs, Hs'. destruct t''; [discriminate|].
           replace (byte_val tb =? 226) with false in Hs by (symmetry; apply Z.eqb_neq; lia).
           by rewrite andb_false_r in Hs.
      * rewrite !andb_false_r in Hs, Hs'. cbn [andb] in Hs, Hs'.
        destruct t'' as [|t2 t''']; [discriminate|].
        repeat (apply andb_true_iff in Hs as [Hs ?]).
        repeat (apply andb_true_iff in Hs' as [Hs' ?]).
        apply Z.eqb_eq in Hs, Hs'. f_equal; [congruence | eauto].
Qed.

Lemma lowered_field_name (f f' : field) :
  lowered (list_ascii_of_string (field_name f)) = lowered (list_ascii_of_string (field_name f')) ->
  f = f'.
Proof. destruct f, f'; intros H; first [reflexivity | by vm_compute in H]. Qed.

Lemma equalFold_field_name (f : field) :
  equalFold (list_ascii_of_string (field_name f)) (list_ascii_of_string (field_name f)) = true.
Proof. by destruct f; vm_compute. Qed.

(** X1. The decoder matches the key of a member with the names of the fields
    without regard to the case of the letters, and no key matches two
    fields: a key is stored into the field [f] exactly when it folds to the
    name of [f]. *)
Theorem find_field_folds (key : list ascii) (f : field) :
  find_field key = Some f
  <-> equalFold (list_ascii_of_string (field_name f)) key = true.
Proof.
  unfold find_field. split.
  - destruct (List.find _ fields) as [f'|] eqn:Hexact.
    + intros [= ->]. apply find_some in Hexact as [_ Hkey].
      apply bool_decide_eq_true in Hkey. rewrite <- Hkey. apply equalFold_field_name.
    + intros Hfold. by apply find_some in Hfold as [_ Hfold].
  - intros Hf.
    destruct (List.find _ fields) as [f'|] eqn:Hexact.
    + apply find_some in Hexact as [_ Hkey]. apply bool_decide_eq_true in Hkey.
      f_equal. apply lowered_field_name.
      apply (equalFold_lowered _ _ key); [|assumption].
      rewrite <- Hkey. apply equalFold_field_name.
    + destruct (List.find (fun f0 => equalFold _ key) fields) as [f''|] eqn:Hfold.
      * apply find_some in Hfold as [_ Hfold]. f_equal. apply lowered_field_name.
        by apply (equalFold_lowered _ _ key).
      * exfalso. eapply find_none in Hfold; [by rewrite Hf in Hfold|].
        destruct f; cbn; tauto.
Qed.

Lemma store_members_known (ms : list (list ascii * json.value)) :
  forall m : Metadata, store_members (filter (fun kv => known kv = true) ms) m = store_members ms m.
Proof.
  induction ms as [|[k v] ms IH]; intros m; [reflexivity|].
  rewrite filter_cons. cbn [store_members].
  destruct (find_field k) as [f|] eqn:Hf.
  - rewrite decide_True
      by (apply bool_decide_eq_true; cbn [fst]; rewrite Hf; eauto).
    cbn [store_members]. rewrite Hf.
    destruct (store_field f v m) as [m1 e1]. by rewrite IH.
  - rewrite decide_False; [apply IH|].
    intros H. apply bool_decide_eq_true in H. cbn [fst] in H. rewrite Hf in H.
    by destruct H.
Qed.

(** X2. Members whose key matches no field are passed over: two objects
    that agree on the members with a known key, in their order, decode to
    the same record with the same error. *)
Theorem ReadMetadata_ignores_unknown_members (metadataString metadataString' : string)
    (ms ms' : list (list ascii * json.value)) (h : gmap loc Metadata) :
  json.parse (list_ascii_of_string metadataString) = Some (json.Object ms) ->
  json.parse (list_ascii_of_string metadataString') = Some (json.Object ms') ->
  filter (fun kv => known kv = true) ms = filter (fun kv => known kv = true) ms' ->
  ReadMetadata metadataString h = ReadMetadata metadataString' h.
Proof.
  intros Hp Hp' Hknown. unfold ReadMetadata, json_Unmarshal. rewrite Hp, Hp'.
  by rewrite <- (store_members_known ms), <- (store_members_known ms'), Hknown.
Qed.

Lemma store_members_app (ms1 ms2 : list (list ascii * json.value)) :
  forall m : Metadata,
    store_members (ms1 ++ ms2) m
    = let '(m1, e1) := store_members ms1 m in
      let '(m2, e2) := store_members ms2 m1 in
      (m2, first_error e1 e2).
Proof.
  induction ms1 as [|[k v] ms1 IH]; intros m.
  - cbn. by destruct (store_members ms2 m).
  - cbn [app store_members]. destruct (find_field k) as [f|]; [|apply IH].
    destruct (store_field f v m) as [m0 e0]. rewrite IH.
    destruct (store_members ms1 m0) as [m1 e1], (store_members ms2 m1) as [m2 e2].
    by destruct e0, e1.
Qed.

(** X3. A member that cannot be stored does not end the decoding: an object
    with the members of two objects decodes as the first and then the second
    into the same record, and the error is the first one met. *)
Theorem json_Unmarshal_members_in_sequence (data data1 data2 : list ascii)
    (ms1 ms2 : list (list ascii * json.value)) (m : Metadata) :
  json.parse data1 = Some (json.Object ms1) ->
  json.parse data2 = Some (json.Object ms2) ->
  json.parse data = Some (json.Object (ms1 ++ ms2)) ->
  json_Unmarshal data m
  = let '(m1, e1) := json_Unmarshal data1 m in
    let '(m2, e2) := json_Unmarshal data2 m1 in
    (m2, first_error e1 e2).
Proof.
  intros H1 H2 H. unfold json_Unmarshal. rewrite H, H1.
  rewrite store_members_app. destruct (store_members ms1 m) as [m1 e1].
  by rewrite H2.
Qed.

Definition decode_error (err : option error) : Prop :=
  err = None \/ err = Some SyntaxError \/ exists k, err = Some (UnmarshalTypeError k).

Lemma store_string_error v old : decode_error (store_string v old).2.
Proof. destruct v; cbn; unfold decode_error; eauto. Qed.

Lemma store_int_error v old : decode_error (store_int v old).2.
Proof.
  destruct v; cbn; unfold decode_error; eauto.
  destruct (json.ParseInt lit); cbn; eauto.
Qed.

Lemma store_byte_error v old : decode_error (store_byte v old).2.
Proof.
  destruct v; cbn; unfold decode_error; eauto.
  destruct (json.ParseUint lit) as [z|]; cbn; eauto.
  destruct (in_uint8 z); cbn; eauto.
Qed.

Lemma first_error_decode e1 e2 :
  decode_error e1 -> decode_error e2 -> decode_error (first_error e1 e2).
Proof. intros [->|[->|[k ->]]] H2; cbn; unfold decode_error; eauto. Qed.

Lemma store_elements_error vs : forall old, decode_error (store_elements vs old).2.
Proof.
  induction vs as [|v vs IH]; intros old; cbn [store_elements]; [by left|].
  pose proof (store_int_error v (hd 0 old)) as H1. specialize (IH (tl old)).
  destruct (store_int v (hd 0 old)) as [z e1], (store_elements vs (tl old)) as [zs e2].
  by apply first_error_decode.
Qed.

Lemma store_ints_error v old : decode_error (store_ints v old).2.
Proof.
  destruct v; cbn [store_ints]; try (cbn; unfold decode_error; eauto; fail).
  pose proof (store_elements_error vs (elements old)) as H.
  by destruct (store_elements vs (elements old)).
Qed.

Lemma store_field_error f v m : decode_error (store_field f v m).2.
Proof.
  destruct f; unfold store_field;
    [pose proof (store_string_error v (IP m)) as H; destruct (store_string v (IP m))
    |pose proof (store_int_error v (TCPPort m)) as H; destruct (store_int v (TCPPort m))
    |pose proof (store_int_error v (UDPPort m)) as H; destruct (store_int v (UDPPort m))
    |pose proof (store_byte_error v (ServiceId m)) as H; destruct (store_byte v (ServiceId m))
    |pose proof (store_ints_error v (ServiceTCP m)) as H; destruct (store_ints v (ServiceTCP m))
    |pose proof (store_ints_error v (ServiceUDP m)) as H; destruct (store_ints v (ServiceUDP m))
    |pose proof (store_string_error v (Price m)) as H; destruct (store_string v (Price m))
    |pose proof (store_string_error v (BeneficiaryAddr m)) as H;
     destruct (store_string v (BeneficiaryAddr m))];
    exact H.
Qed.

Lemma store_members_error ms : forall m, decode_error (store_members ms m).2.
Proof.
  induction ms as [|[k v] ms IH]; intros m; cbn [store_members]; [by left|].
  destruct (find_field k) as [f|]; [|apply IH].
  pose proof (store_field_error f v m) as H1.
  destruct (store_field f v m) as [m1 e1]. specialize (IH m1).
  destruct (store_members ms m1) as [m2 e2]. by apply first_error_decode.
Qed.

Lemma store_members_no_syntax_error ms : forall m, (store_members ms m).2 <> Some SyntaxError.
Proof.
  assert (Hs : forall v old, (store_string v old).2 <> Some SyntaxError) by (by intros []).
  assert (Hi : forall v old, (store_int v old).2 <> Some SyntaxError).
  { intros [] old; cbn; try done. by destruct (json.ParseInt lit). }
  assert (Hb : forall v old, (store_byte v old).2 <> Some SyntaxError).
  { intros [] old; cbn; try done. destruct (json.ParseUint lit) as [z|]; [|done].
    by destruct (in_uint8 z). }
  assert (Hf : forall e1 e2, e1 <> Some SyntaxError -> e2 <> Some SyntaxError ->
                             first_error e1 e2 <> Some SyntaxError) by (by intros [] []).
  assert (He : forall vs old, (store_elements vs old).2 <> Some SyntaxError).
  { induction vs as [|v vs IHvs]; intros old; cbn [store_elements]; [done|].
    specialize (Hi v (hd 0 old)). specialize (IHvs (tl old)).
    destruct (store_int v (hd 0 old)), (store_elements vs (tl old)). by apply Hf. }
  assert (Hl : forall v old, (store_ints v old).2 <> Some SyntaxError).
  { intros [] old; cbn [store_ints]; try done.
    specialize (He vs (elements old)). by destruct (store_elements vs (elements old)). }
  induction ms as [|[k v] ms IH]; intros m; cbn [store_members]; [done|].
  destruct (find_field k) as [f|]; [|apply IH].
  assert (H1 : (store_field f v m).2 <> Some SyntaxError).
  { destruct f; unfold store_field;
      [specialize (Hs v (IP m)); destruct (store_string v (IP m))
      |specialize (Hi v (TCPPort m)); destruct (store_int v (TCPPort m))
      |specialize (Hi v (UDPPort m)); destruct (store_int v (UDPPort m))
      |specialize (Hb v (ServiceId m)); destruct (store_byte v (ServiceId m))
      |specialize (Hl v (ServiceTCP m)); destruct (store_ints v (ServiceTCP m))
      |specialize (Hl v (ServiceUDP m)); destruct (store_ints v (ServiceUDP m))
      |specialize (Hs v (Price m)); destruct (store_string v (Price m))
      |specialize (Hs v (BeneficiaryAddr m)); destruct (store_string v (BeneficiaryAddr m))];
      assumption. }
  destruct (store_field f v m) as [m1 e1]. specialize (IH m1).
  destruct (store_members ms m1) as [m2 e2]. by apply Hf.
Qed.

(** X4. [ReadMetadata] always hands out a record of its own, also when it
    reports an error; the error is a syntax error or a type error; and a
    syntax error, which is the error of an input that is no JSON text, leaves
    every field of the record at its zero value. *)
Theorem ReadMetadata_result (metadataString : string) (h : gmap loc Metadata) :
  exists (m : Metadata) (err : option error),
    ReadMetadata metadataString h = ((fresh (dom h), err), <[fresh (dom h) := m]> h)
    /\ h !! fresh (dom h) = None
    /\ decode_error err
    /\ (err = Some SyntaxError <-> json.parse (list_ascii_of_string metadataString) = None)
    /\ (err = Some SyntaxError -> m = zero_Metadata).
Proof.
  unfold ReadMetadata, alloc, json_Unmarshal.
  assert (Hnew : h !! fresh (dom h) = None) by (apply not_elem_of_dom, is_fresh).
  destruct (json.parse (list_ascii_of_string metadataString)) as [v|] eqn:Hp.
  - destruct v as [| | | |vs|ms];
      try (eexists _, _; split; [by rewrite insert_insert_eq|]; split; [exact Hnew|];
           split; [unfold decode_error; eauto|]; split; [split; discriminate|discriminate]).
    pose proof (store_members_error ms zero_Metadata) as Herr.
    pose proof (store_members_no_syntax_error ms zero_Metadata) as Hno.
    destruct (store_members ms zero_Metadata) as [m err]. cbn [snd] in Herr, Hno.
    exists m, err. split; [by rewrite insert_insert_eq|]. split; [exact Hnew|].
    split; [exact Herr|]. split; [split; [contradiction|discriminate]|contradiction].
  - exists zero_Metadata, (Some SyntaxError).
    split; [by rewrite insert_insert_eq|]. split; [exact Hnew|].
    split; [unfold decode_error; eauto|]. done.
Qed.

Lemma ReadMetadata_ignores_unknown_members_witness :
  ReadMetadata (example.text "{'ip':'192.0.2.1','colour':'red','tcpPort':8080}") ∅
  = ReadMetadata (example.text "{'ip':'192.0.2.1','tcpPort':8080,'extra':[1,2]}") ∅.
Proof.
  eapply ReadMetadata_ignores_unknown_members;
    [vm_compute; reflexivity | vm_compute; reflexivity | vm_compute; reflexivity].
Defined.

Lemma json_Unmarshal_members_in_sequence_witness :
  json_Unmarshal (list_ascii_of_string (example.text "{'tcpPort':'x','ip':'192.0.2.1'}"))
                 zero_Metadata
  = let '(m1, e1) := json_Unmarshal (list_ascii_of_string (example.text "{'tcpPort':'x'}"))
                                    zero_Metadata in
    let '(m2, e2) := json_Unmarshal (list_ascii_of_string (example.text "{'ip':'192.0.2.1'}"))
                                    m1 in
    (m2, first_error e1 e2).
Proof.
  eapply json_Unmarshal_members_in_sequence;
    [vm_compute; reflexivity | vm_compute; reflexivity | vm_compute; reflexivity].
Defined.

Lemma ParseUint_negative (z : Z) : z < 0 -> json.ParseUint (json.FormatInt z) = None.
Proof. destruct z as [|p|p]; [lia|lia|]. intros _. reflexivity. Qed.

(** X5. A service id that does not fit a byte is turned down: the decoder
    reports a type error for the number and leaves the field as it was. *)
Theorem serviceId_out_of_range (z : Z) (h : gmap loc Metadata) :
  in_uint8 z = false ->
  ReadMetadata
    (string_of_list_ascii (json.render (json.Object [member fServiceId (int_value z)]))) h
  = ((fresh (dom h), Some (UnmarshalTypeError "number")),
     <[fresh (dom h) := zero_Metadata]> h).
Proof.
  intros Hz. unfold ReadMetadata, alloc, json_Unmarshal.
  rewrite list_ascii_of_string_of_list_ascii.
  rewrite parse_render_object;
    [|discriminate|apply Forall_singleton, member_int_well_formed].
  rewrite store_members_cons. cbn [store_field store_members ServiceId zero_Metadata].
  assert (Hs : store_byte (int_value z) 0 = (0, Some (UnmarshalTypeError "number"))).
  { cbn [store_byte int_value]. destruct (Z.ltb_spec z 0) as [Hneg|Hpos].
    - by rewrite ParseUint_negative.
    - by rewrite ParseUint_FormatInt, Hz. }
  rewrite Hs. cbn [first_error]. by rewrite insert_insert_eq.
Qed.

Lemma serviceId_out_of_range_witness :
  ReadMetadata
    (string_of_list_ascii (json.render (json.Object [member fServiceId (int_value 256)]))) ∅
  = ((fresh (dom (∅ : gmap loc Metadata)), Some (UnmarshalTypeError "number")),
     <[fresh (dom (∅ : gmap loc Metadata)) := zero_Metadata]> ∅).
Proof. apply (serviceId_out_of_range 256 ∅). reflexivity. Defined.

(** ** Connection ids: [GetConnIdString] *)

(** A byte slice: its elements, and the bytes of its backing array that lie
    behind them (the capacity that the length leaves unused). *)
Record slice : Type := {
  elems : list ascii;
  spare : list ascii
}.

(** What the load of a [uint16] through [unsafe.Pointer(&data[0])] comes to:
    a value, the panic of the index expression on an empty slice, or a load
    that leaves the backing array. *)
Inductive conn_id : Type :=
| Id (s : string)
| IndexOutOfRange
| LoadBeyondArray.

Section ConnId.

(** The byte order of the platform, [true] for the little-endian ones. *)
Variable littleEndian : bool.

Definition uint16_of (b0 b1 : ascii) : Z :=
  if littleEndian then byte_val b0 + 256 * byte_val b1
  else 256 * byte_val b0 + byte_val b1.

Definition GetConnIdString (data : slice) : conn_id :=
  match elems data with
  | [] => IndexOutOfRange
  | b0 :: rest =>
    match rest ++ spare data with
    | b1 :: _ => Id (Itoa (uint16_of b0 b1))
    | [] => LoadBeyondArray
    end
  end.

Lemma uint16_of_range (b0 b1 : ascii) : 0 <= uint16_of b0 b1 < 65536.
Proof.
  unfold uint16_of. pose proof (byte_val_range b0). pose proof (byte_val_range b1).
  destruct littleEndian; lia.
Qed.

Lemma byte_val_inj (a b : ascii) : byte_val a = byte_val b -> a = b.
Proof. intros H. by rewrite <- (byte_of_val a), <- (byte_of_val b), H. Qed.

Lemma uint16_of_inj (b0 b1 c0 c1 : ascii) :
  uint16_of b0 b1 = uint16_of c0 c1 -> b0 = c0 /\ b1 = c1.
Proof.
  unfold uint16_of. pose proof (byte_val_range b0). pose proof (byte_val_range b1).
  pose proof (byte_val_range c0). pose proof (byte_val_range c1).
  intros Heq. split; apply byte_val_inj; destruct littleEndian; lia.
Qed.

Lemma Itoa_inj (z z' : Z) : in_int64 z = true -> in_int64 z' = true -> Itoa z = Itoa z' -> z = z'.
Proof.
  intros Hz Hz' Heq. unfold Itoa in Heq.
  apply (f_equal list_ascii_of_string) in Heq.
  rewrite !list_ascii_of_string_of_list_ascii in Heq.
  apply (f_equal json.ParseInt) in Heq. rewrite !ParseInt_FormatInt in Heq by assumption.
  congruence.
Qed.

Lemma uint16_in_int64 (b0 b1 : ascii) : in_int64 (uint16_of b0 b1) = true.
Proof.
  pose proof (uint16_of_range b0 b1). unfold in_int64.
  apply andb_true_iff. split; [apply Z.leb_le | apply Z.ltb_lt]; lia.
Qed.

(** X6. The id of a packet of two bytes or more is the decimal numeral of
    the 16-bit number that its first two bytes spell in the byte order of the
    platform: read as a number it gives that value, which lies below 65536,
    and nothing else of the packet or of its backing array matters. *)
Theorem GetConnIdString_numeral (b0 b1 : ascii) (rest sp : list ascii) :
  exists s : string,
    GetConnIdString {| elems := b0 :: b1 :: rest; spare := sp |} = Id s
    /\ json.ParseInt (list_ascii_of_string s) = Some (uint16_of b0 b1)
    /\ 0 <= uint16_of b0 b1 < 65536
    /\ s <> EmptyString.
Proof.
  exists (Itoa (uint16_of b0 b1)). split; [reflexivity|]. unfold Itoa.
  rewrite list_ascii_of_string_of_list_ascii, ParseInt_FormatInt by apply uint16_in_int64.
  split; [reflexivity|]. split; [apply uint16_of_range|].
  destruct (FormatInt_head (uint16_of b0 b1)) as (c & cs & -> & _). discriminate.
Qed.

(** X7. Two packets of two bytes or more get the same id exactly when they
    start with the same two bytes. *)
Theorem GetConnIdString_same_id (b0 b1 c0 c1 : ascii) (rest rest' sp sp' : list ascii) :
  GetConnIdString {| elems := b0 :: b1 :: rest; spare := sp |}
  = GetConnIdString {| elems := c0 :: c1 :: rest'; spare := sp' |}
  <-> b0 = c0 /\ b1 = c1.
Proof.
  cbn. split.
  - intros [= Heq]. apply uint16_of_inj.
    by apply Itoa_inj; [apply uint16_in_int64 | apply uint16_in_int64 |].
  - by intros [-> ->].
Qed.

(** X8. The id of a packet of one byte is read past the end of the packet:
    it takes in the byte that follows in the backing array, so that two
    packets with the same content can get different ids; with no such byte
    the load leaves the array, and with no byte at all the call panics. *)
Theorem GetConnIdString_short_packet (b0 b1 b1' : ascii) (sp sp' : list ascii) :
  (b1 <> b1' ->
   GetConnIdString {| elems := [b0]; spare := b1 :: sp |}
   <> GetConnIdString {| elems := [b0]; spare := b1' :: sp' |})
  /\ GetConnIdString {| elems := [b0]; spare := [] |} = LoadBeyondArray
  /\ GetConnIdString {| elems := []; spare := sp |} = IndexOutOfRange.
Proof.
  split; [|by split]. cbn. intros Hne [= Heq]. apply Hne.
  apply Itoa_inj in Heq; [|apply uint16_in_int64..].
  by apply uint16_of_inj in Heq as [_ ->].
Qed.

End ConnId.

(** ** The wallet password: [LoadPassword] and [LoadOrCreateAccount] *)

Module account.

(** [bytes.HasPrefix] and [bytes.TrimPrefix]. *)
Fixpoint HasPrefix (s prefix : list ascii) : bool :=
  match prefix, s with
  | [], _ => true
  | p :: prefix', c :: s' => bool_decide (p = c) && HasPrefix s' prefix'
  | _ :: _, [] => false
  end.

Definition TrimPrefix (s prefix : list ascii) : list ascii :=
  if HasPrefix s prefix then drop (length prefix) s else s.

(** [strings.Trim] for a cutset of ASCII characters, where it works byte by
    byte: the bytes of the cutset are taken off the right end, then off the
    left end. *)
Definition contains (cutset : list ascii) (c : ascii) : bool :=
  existsb (fun x => bool_decide (x = c)) cutset.

Fixpoint trimLeft (cutset s : list ascii) : list ascii :=
  match s with
  | c :: rest => if contains cutset c then trimLeft cutset rest else s
  | [] => []
  end.

Fixpoint trimRight (cutset s : list ascii) : list ascii :=
  match s with
  | [] => []
  | c :: rest =>
    match trimRight cutset rest with
    | [] => if contains cutset c then [] else [c]
    | kept => c :: kept
    end
  end.

Definition Trim (s cutset : list ascii) : list ascii :=
  trimLeft cutset (trimRight cutset s).

(** The UTF-8 byte order mark, and the cutset of carriage return and line
    feed. *)
Definition BOM : list ascii := [byte_of 239; byte_of 187; byte_of 191].
Definition CRLF : list ascii := [byte_of 13; byte_of 10].

(** [base64.StdEncoding.EncodeToString]. *)
Definition encodeStd : list ascii :=
  list_ascii_of_string "ABCDEFGHIJKLMNOPQRSTUVWXYZabcdefghijklmnopqrstuvwxyz0123456789+/".
Definition padChar : ascii := "="%char.

Definition encode (v : Z) : ascii := nth (Z.to_nat v) encodeStd padChar.

Fixpoint EncodeToString (src : list ascii) : list ascii :=
  match src with
  | [] => []
  | [a] =>
    let val := Z.shiftl (byte_val a) 16 in
    [encode (Z.land (Z.shiftr val 18) 63); encode (Z.land (Z.shiftr val 12) 63);
     padChar; padChar]
  | [a; b] =>
    let val := Z.lor (Z.shiftl (byte_val a) 16) (Z.shiftl (byte_val b) 8) in
    [encode (Z.land (Z.shiftr val 18) 63); encode (Z.land (Z.shiftr val 12) 63);
     encode (Z.land (Z.shiftr val 6) 63); padChar]
  | a :: b :: c :: rest =>
    let val := Z.lor (Z.lor (Z.shiftl (byte_val a) 16) (Z.shiftl (byte_val b) 8)) (byte_val c) in
    encode (Z.land (Z.shiftr val 18) 63) :: encode (Z.land (Z.shiftr val 12) 63)
    :: encode (Z.land (Z.shiftr val 6) 63) :: encode (Z.land val 63)
    :: EncodeToString rest
  end.

(** What [os.Stat] says of a path, as far as [os.IsNotExist] tells. *)
Inductive stat : Type :=
| Exists
| NotExist
| StatFails (e : error).

(** The errors that [LoadOrCreateAccount] builds with [fmt.Errorf], and the
    error of [GetDefaultAccount], which is passed on as it is. *)
Inductive account_error : Type :=
| SavePasswordError (e : error)
| CreateWalletError (e : error)
| CannotLoadPassword (passwordFile : string)
| OpenWalletError (e : error)
| DefaultAccountError (e : error).

Inductive event : Type :=
| LogCreatingPassword
| LogCreatingWallet
| EvWriteFile (path : string) (data : list ascii) (perm : Z)
| EvNewWallet (path : string) (password : list ascii) (overwrite : bool)
| EvOpenWallet (path : string) (password : list ascii)
| EvGetDefaultAccount.

Section Files.

(** The file system and the wallet library as the calls meet them: each of
    them is called at most once. *)
Context {Wallet Account : Type}.
Variable ReadFile : string -> result (list ascii).
Variable Stat : string -> stat.
Variable WriteFile : string -> list ascii -> Z -> option error.
Variable RandomBytes : Z -> list ascii.
Variable NewWallet : string -> list ascii -> bool -> result Wallet.
Variable OpenWallet : string -> list ascii -> result Wallet.
Variable GetDefaultAccount : Wallet -> result Account.

Definition LoadPassword (path : string) : string * option error :=
  match ReadFile path with
  | Err err => (EmptyString, Some err)
  | Ok content =>
    let content := TrimPrefix content BOM in
    (string_of_list_ascii (Trim content CRLF), None)
  end.

Definition default_account (events : list event) (wallet : Wallet)
  : (Account + account_error) * list event :=
  match GetDefaultAccount wallet with
  | Ok a => (inl a, events ++ [EvGetDefaultAccount])
  | Err e => (inr (DefaultAccountError e), events ++ [EvGetDefaultAccount])
  end.

Definition LoadOrCreateAccount (walletFile passwordFile : string)
  : (Account + account_error) * list event :=
  let pswd := (LoadPassword passwordFile).1 in
  match Stat walletFile with
  | NotExist =>
    let created :=
      if (String.length pswd =? 0)%nat then
        let pswd := string_of_list_ascii (EncodeToString (RandomBytes 24)) in
        let events := [LogCreatingPassword;
                       EvWriteFile passwordFile (list_ascii_of_string pswd) 420] in
        match WriteFile passwordFile (list_ascii_of_string pswd) 420 with
        | Some err => inr (SavePasswordError err, events)
        | None => inl (pswd, events)
        end
      else inl (pswd, []) in
    match created with
    | inr (err, events) => (inr err, events)
    | inl (pswd, events) =>
      let events :=
        events ++ [LogCreatingWallet; EvNewWallet walletFile (list_ascii_of_string pswd) true] in
      match NewWallet walletFile (list_ascii_of_string pswd) true with
      | Err err => (inr (CreateWalletError err), events)
      | Ok wallet => default_account events wallet
      end
    end
  | _ =>
    if (String.length pswd =? 0)%nat then (inr (CannotLoadPassword passwordFile), [])
    else
      let events := [EvOpenWallet walletFile (list_ascii_of_string pswd)] in
      match OpenWallet walletFile (list_ascii_of_string pswd) with
      | Err err => (inr (OpenWalletError err), events)
      | Ok wallet => default_account events wallet
      end
  end.

End Files.

End account.

Section Password.

Import account.

Definition in_cutset (cutset : list ascii) (c : ascii) : Prop := contains cutset c = true.

Lemma trimLeft_split (cutset s : list ascii) :
  exists pre, s = pre ++ trimLeft cutset s /\ Forall (in_cutset cutset) pre.
Proof.
  induction s as [|c s (pre & Hs & Hpre)]; [by exists []|]. cbn [trimLeft].
  destruct (contains cutset c) eqn:Hc.
  - exists (c :: pre). split; [cbn; by f_equal | by constructor].
  - by exists [].
Qed.

Lemma trimLeft_head (cutset s : list ascii) (c : ascii) :
  head (trimLeft cutset s) = Some c -> contains cutset c = false.
Proof.
  induction s as [|c' s IH]; [done|]. cbn [trimLeft].
  destruct (contains cutset c') eqn:Hc; [exact IH|]. by intros [= <-].
Qed.

Lemma trimLeft_last (cutset s : list ascii) :
  trimLeft cutset s <> [] -> last (trimLeft cutset s) = last s.
Proof.
  induction s as [|c s IH]; [done|]. cbn [trimLeft].
  destruct (contains cutset c); [|done]. intros Hne. rewrite IH by assumption.
  destruct s; [done|]. reflexivity.
Qed.

Lemma trimRight_split (cutset s : list ascii) :
  exists post, s = trimRight cutset s ++ post /\ Forall (in_cutset cutset) post.
Proof.
  induction s as [|c s (post & Hs & Hpost)]; [by exists []|]. cbn [trimRight].
  destruct (trimRight cutset s) as [|k kept] eqn:Hk.
  - destruct (contains cutset c) eqn:Hc.
    + exists (c :: post). cbn in *. split; [by f_equal | by constructor].
    + exists post. cbn in *. split; [by f_equal | assumption].
  - exists post. split; [cbn; by f_equal | assumption].
Qed.

Lemma trimRight_last (cutset s : list ascii) (c : ascii) :
  last (trimRight cutset s) = Some c -> contains cutset c = false.
Proof.
  induction s as [|c' s IH]; [done|]. cbn [trimRight].
  destruct (trimRight cutset s) as [|k kept].
  - destruct (contains cutset c') eqn:Hc; [done|]. by intros [= <-].
  - exact IH.
Qed.

Lemma trimLeft_clean (cutset s : list ascii) :
  (forall c, head s = Some c -> contains cutset c = false) -> trimLeft cutset s = s.
Proof. destruct s as [|c s]; [done|]. intros H. cbn. by rewrite (H c). Qed.

Lemma trimRight_clean (cutset s : list ascii) :
  (forall c, last s = Some c -> contains cutset c = false) -> trimRight cutset s = s.
Proof.
  induction s as [|c s IH]; [done|]. intros H. cbn [trimRight].
  destruct s as [|c' s].
  - cbn. by rewrite (H c).
  - rewrite IH by (intros c0 Hc0; by apply H). reflexivity.
Qed.

Lemma trimRight_blank (cutset s : list ascii) :
  Forall (in_cutset cutset) s -> trimRight cutset s = [].
Proof.
  induction 1 as [|c s Hc _ IH]; [done|]. cbn [trimRight]. rewrite IH. by rewrite Hc.
Qed.

Lemma Trim_split (s cutset : list ascii) :
  exists pre post,
    s = pre ++ Trim s cutset ++ post
    /\ Forall (in_cutset cutset) pre /\ Forall (in_cutset cutset) post
    /\ (forall c, head (Trim s cutset) = Some c -> contains cutset c = false)
    /\ (forall c, last (Trim s cutset) = Some c -> contains cutset c = false).
Proof.
  unfold Trim.
  destruct (trimRight_split cutset s) as (post & Hs & Hpost).
  destruct (trimLeft_split cutset (trimRight cutset s)) as (pre & Hr & Hpre).
  exists pre, post. split; [by rewrite app_assoc, <- Hr|].
  split; [assumption|]. split; [assumption|].
  split; [apply trimLeft_head|].
  intros c Hc. apply (trimRight_last cutset s).
  rewrite <- (trimLeft_last cutset); [assumption|]. by intros Hnil; rewrite Hnil in Hc.
Qed.

Variable ReadFile : string -> result (list ascii).

(** X9. The password that [LoadPassword] returns is the content of the file
    without a byte order mark in first position and without the carriage
    returns and line feeds at its two ends: it lies in the content between
    two runs of such bytes, and neither starts nor ends with one. *)
Theorem LoadPassword_trims (path : string) (content : list ascii) :
  ReadFile path = Ok content ->
  exists (pswd : string) (pre post : list ascii),
    LoadPassword ReadFile path = (pswd, None)
    /\ TrimPrefix content BOM = pre ++ list_ascii_of_string pswd ++ post
    /\ Forall (in_cutset CRLF) pre /\ Forall (in_cutset CRLF) post
    /\ (forall c, head (list_ascii_of_string pswd) = Some c -> contains CRLF c = false)
    /\ (forall c, last (list_ascii_of_string pswd) = Some c -> contains CRLF c = false).
Proof.
  intros Hread. unfold LoadPassword. rewrite Hread.
  destruct (Trim_split (TrimPrefix content BOM) CRLF) as (pre & post & H).
  exists (string_of_list_ascii (Trim (TrimPrefix content BOM) CRLF)), pre, post.
  rewrite list_ascii_of_string_of_list_ascii. by split.
Qed.

Lemma LoadPassword_clean (path pswd : string) :
  ReadFile path = Ok (list_ascii_of_string pswd) ->
  HasPrefix (list_ascii_of_string pswd) BOM = false ->
  (forall c, head (list_ascii_of_string pswd) = Some c -> contains CRLF c = false) ->
  (forall c, last (list_ascii_of_string pswd) = Some c -> contains CRLF c = false) ->
  LoadPassword ReadFile path = (pswd, None).
Proof.
  intros Hread Hbom Hhead Hlast. unfold LoadPassword, TrimPrefix, Trim.
  rewrite Hread, Hbom, trimRight_clean, trimLeft_clean by assumption.
  by rewrite string_of_list_ascii_of_string.
Qed.

(** X10. A password that does not start with a byte order mark and has no
    carriage return or line feed at either end is read back from a file that
    holds it as it is. *)
Theorem LoadPassword_reads_back (path pswd : string) :
  ReadFile path = Ok (list_ascii_of_string pswd) ->
  HasPrefix (list_ascii_of_string pswd) BOM = false ->
  (forall c, head (list_ascii_of_string pswd) = Some c -> contains CRLF c = false) ->
  (forall c, last (list_ascii_of_string pswd) = Some c -> contains CRLF c = false) ->
  LoadPassword ReadFile path = (pswd, None).
Proof.
  intros Hread Hbom Hhead Hlast. unfold LoadPassword. rewrite Hread.
  unfold TrimPrefix. rewrite Hbom. unfold Trim.
  rewrite (trimRight_clean CRLF) by exact Hlast.
  rewrite (trimLeft_clean CRLF) by exact Hhead.
  apply (f_equal (fun s => (s, None))), string_of_list_ascii_of_string.
Qed.

Lemma LoadPassword_blank (path : string) (content : list ascii) :
  ReadFile path = Ok content ->
  Forall (in_cutset CRLF) (TrimPrefix content BOM) ->
  LoadPassword ReadFile path = (EmptyString, None).
Proof.
  intros Hread Hblank. unfold LoadPassword, Trim. rewrite Hread.
  by rewrite trimRight_blank.
Qed.

End Password.

Section Account.

Import account.

Context {Wallet Account : Type}.
Variable ReadFile : string -> result (list ascii).
Variable Stat : string -> stat.
Variable WriteFile : string -> list ascii -> Z -> option error.
Variable RandomBytes : Z -> list ascii.
Variable NewWallet : string -> list ascii -> bool -> result Wallet.
Variable OpenWallet : string -> list ascii -> result Wallet.
Variable GetDefaultAccount : Wallet -> result Account.

Lemma encode_alphabet (v : Z) : encode v ∈ padChar :: encodeStd.
Proof.
  unfold encode. destruct (nth_in_or_default (Z.to_nat v) encodeStd padChar) as [H| ->].
  - right. by apply list_elem_of_In.
  - left.
Qed.

Lemma encode_land (v : Z) : encode (Z.land v 63) ∈ encodeStd.
Proof.
  assert (H : 0 <= Z.land v 63 < 64).
  { split; [apply Z.land_nonneg; lia|].
    change 63 with (Z.ones 6). rewrite Z.land_ones by lia. apply Z.mod_pos_bound. lia. }
  unfold encode. apply list_elem_of_In, nth_In.
  change (length encodeStd) with 64%nat. lia.
Qed.

(** A source of whole groups of three bytes is written without padding,
    four characters of the alphabet for each group. *)
Lemma EncodeToString_whole (k : nat) :
  forall src : list ascii,
    length src = (3 * k)%nat ->
    length (EncodeToString src) = (4 * k)%nat
    /\ Forall (fun c => c ∈ encodeStd) (EncodeToString src).
Proof.
  induction k as [|k IH]; intros src Hlen.
  - destruct src; [by split|discriminate].
  - destruct src as [|a [|b [|c rest]]]; try (cbn in Hlen; lia).
    destruct (IH rest) as [Hl Hc]; [cbn in Hlen; lia|].
    cbn [EncodeToString length]. split; [lia|].
    repeat (constructor; [apply encode_land|]). exact Hc.
Qed.

Lemma alphabet_plain (c : ascii) :
  c ∈ encodeStd -> contains CRLF c = false /\ c <> byte_of 239.
Proof.
  revert c. apply Forall_forall. unfold encodeStd.
  repeat (constructor; [by split; vm_compute|]). constructor.
Qed.

(** The password that [LoadOrCreateAccount] makes up. *)
Definition fresh_password : string :=
  string_of_list_ascii (EncodeToString (RandomBytes 24)).

Lemma fresh_password_plain :
  length (RandomBytes 24) = 24%nat ->
  String.length fresh_password = 32%nat
  /\ Forall (fun c => c ∈ encodeStd) (list_ascii_of_string fresh_password).
Proof.
  intros Hlen. unfold fresh_password.
  destruct (EncodeToString_whole 8 (RandomBytes 24) Hlen) as [Hl Hc].
  rewrite list_ascii_of_string_of_list_ascii. split; [|exact Hc].
  change 32%nat with (4 * 8)%nat. rewrite <- Hl. clear.
  induction (EncodeToString (RandomBytes 24)); cbn; congruence.
Qed.

(** X11. With no wallet file and no password to load, [LoadOrCreateAccount]
    makes up a password of 32 characters of the base64 alphabet from 24 random
    bytes and writes it to the password file before it creates the wallet with
    it; if the write fails no wallet is created; and [LoadPassword] reads the
    password back unchanged from a file that holds what was written. *)
Theorem LoadOrCreateAccount_makes_password (walletFile passwordFile : string) :
  Stat walletFile = NotExist ->
  (LoadPassword ReadFile passwordFile).1 = EmptyString ->
  length (RandomBytes 24) = 24%nat ->
  let pswd := list_ascii_of_string fresh_password in
  let run := LoadOrCreateAccount ReadFile Stat WriteFile RandomBytes NewWallet OpenWallet
                                 GetDefaultAccount walletFile passwordFile in
  String.length fresh_password = 32%nat
  /\ Forall (fun c => c ∈ encodeStd) pswd
  /\ match WriteFile passwordFile pswd 420 with
     | Some err =>
       run = (inr (SavePasswordError err),
              [LogCreatingPassword; EvWriteFile passwordFile pswd 420])
     | None =>
       exists tail,
         run.2 = [LogCreatingPassword; EvWriteFile passwordFile pswd 420;
                  LogCreatingWallet; EvNewWallet walletFile pswd true] ++ tail
         /\ (tail = [] \/ tail = [EvGetDefaultAccount])
     end
  /\ (forall ReadFile' : string -> result (list ascii),
         ReadFile' passwordFile = Ok pswd ->
         LoadPassword ReadFile' passwordFile = (fresh_password, None)).
Proof.
  intros Hstat Hempty Hlen pswd run. subst pswd run.
  destruct (fresh_password_plain Hlen) as [Hl Hc].
  split; [exact Hl|]. split; [exact Hc|]. split.
  - unfold LoadOrCreateAccount. rewrite Hstat, Hempty.
    cbn [String.length Nat.eqb]. fold fresh_password.
    destruct (WriteFile passwordFile _ 420) as [err|]; [reflexivity|].
    cbn [app]. destruct (NewWallet walletFile _ true) as [wallet|err].
    + unfold default_account. destruct (GetDefaultAccount wallet);
        exists [EvGetDefaultAccount]; cbn; auto.
    + exists []. cbn. auto.
  - intros ReadFile' Hread. apply LoadPassword_clean; [exact Hread|..].
    + destruct (list_ascii_of_string fresh_password) as [|c0 rest]; [reflexivity|].
      apply Forall_cons in Hc as [Hc0 _]. apply alphabet_plain in Hc0 as [_ Hc0].
      unfold BOM. cbn [HasPrefix].
      rewrite bool_decide_eq_false_2; [reflexivity | intros Heq; by apply Hc0].
    + intros c Hhead.
      destruct (list_ascii_of_string fresh_password) as [|c0 rest]; [discriminate|].
      injection Hhead as ->. apply Forall_cons in Hc as [Hc0 _].
      by apply alphabet_plain in Hc0 as [? _].
    + intros c Hlast. apply last_Some in Hlast as [l' Hl'].
      rewrite Hl' in Hc. apply Forall_app in Hc as [_ Hc].
      apply Forall_cons in Hc as [Hc _]. by apply alphabet_plain in Hc as [? _].
Qed.

(** X12. A password that could be loaded is never written over: with a
    password in the file the run writes no file, and the wallet is created
    (when its file is missing) or opened (when it is not) with that
    password. *)
Theorem LoadOrCreateAccount_keeps_password (walletFile passwordFile : string) :
  (LoadPassword ReadFile passwordFile).1 <> EmptyString ->
  let pswd := list_ascii_of_string (LoadPassword ReadFile passwordFile).1 in
  let run := LoadOrCreateAccount ReadFile Stat WriteFile RandomBytes NewWallet OpenWallet
                                 GetDefaultAccount walletFile passwordFile in
  exists tail,
    run.2 = match Stat walletFile with
            | NotExist => [LogCreatingWallet; EvNewWallet walletFile pswd true]
            | _ => [EvOpenWallet walletFile pswd]
            end ++ tail
    /\ (tail = [] \/ tail = [EvGetDefaultAccount]).
Proof.
  intros Hpswd pswd run. subst run pswd. unfold LoadOrCreateAccount.
  destruct (LoadPassword ReadFile passwordFile).1 as [|c s] eqn:Hp; [contradiction|].
  cbn [String.length Nat.eqb]. unfold default_account.
  destruct (Stat walletFile) eqn:Hs;
    (first [destruct (OpenWallet _ _) as [wallet|err]
           |destruct (NewWallet _ _ _) as [wallet|err]];
     [destruct (GetDefaultAccount wallet); exists [EvGetDefaultAccount]
     |exists []]; cbn; auto).
Qed.

(** X13. With a wallet file in place and a password file that cannot be read,
    or that holds nothing but a byte order mark and line ends,
    [LoadOrCreateAccount] fails with the error that names the password file;
    it writes no file and opens no wallet. *)
Theorem LoadOrCreateAccount_no_password (walletFile passwordFile : string) :
  Stat walletFile <> NotExist ->
  (match ReadFile passwordFile with
   | Err _ => True
   | Ok content => Forall (in_cutset CRLF) (TrimPrefix content BOM)
   end) ->
  LoadOrCreateAccount ReadFile Stat WriteFile RandomBytes NewWallet OpenWallet
                      GetDefaultAccount walletFile passwordFile
  = (inr (CannotLoadPassword passwordFile), []).
Proof.
  intros Hstat Hfile.
  assert (Hempty : (LoadPassword ReadFile passwordFile).1 = EmptyString).
  { destruct (ReadFile passwordFile) as [content|err] eqn:Hread.
    - by rewrite (LoadPassword_blank ReadFile passwordFile content).
    - unfold LoadPassword. by rewrite Hread. }
  unfold LoadOrCreateAccount. rewrite Hempty. cbn [String.length Nat.eqb].
  by destruct (Stat walletFile).
Qed.

End Account.

(** A password file with a byte order mark and a line end, an empty disk,
    and a wallet library that always succeeds. *)
Definition marked_file (_ : string) : result (list ascii) :=
  Ok (account.BOM ++ list_ascii_of_string "secret" ++ account.CRLF).
Definition plain_file (_ : string) : result (list ascii) :=
  Ok (list_ascii_of_string "secret").
Definition no_file (_ : string) : result (list ascii) :=
  Err (errorString "no such file or directory").
Definition zeros (n : Z) : list ascii := replicate (Z.to_nat n) (byte_of 0).

Lemma LoadPassword_trims_witness :
  exists (pswd : string) (pre post : list ascii),
    account.LoadPassword marked_file "wallet.pswd" = (pswd, None)
    /\ account.TrimPrefix (account.BOM ++ list_ascii_of_string "secret" ++ account.CRLF)
                          account.BOM
       = pre ++ list_ascii_of_string pswd ++ post
    /\ Forall (in_cutset account.CRLF) pre /\ Forall (in_cutset account.CRLF) post
    /\ (forall c, head (list_ascii_of_string pswd) = Some c ->
                  account.contains account.CRLF c = false)
    /\ (forall c, last (list_ascii_of_string pswd) = Some c ->
                  account.contains account.CRLF c = false).
Proof. apply (LoadPassword_trims marked_file "wallet.pswd"). reflexivity. Defined.

Lemma LoadPassword_reads_back_witness :
  account.LoadPassword plain_file "wallet.pswd" = ("secret"%string, None).
Proof.
  apply (LoadPassword_reads_back plain_file "wallet.pswd" "secret");
    [reflexivity | reflexivity | by intros c [= <-] | by intros c [= <-]].
Defined.

Lemma LoadOrCreateAccount_makes_password_witness :
  String.length (fresh_password zeros) = 32%nat.
Proof.
  refine (proj1 (LoadOrCreateAccount_makes_password
                   (Wallet := unit) (Account := unit)
                   no_file (fun _ => account.NotExist) (fun _ _ _ => None) zeros
                   (fun _ _ _ => Ok tt) (fun _ _ => Ok tt) (fun _ => Ok tt)
                   "wallet.json" "wallet.pswd" _ _ _));
    reflexivity.
Defined.

Lemma LoadOrCreateAccount_keeps_password_witness :
  exists tail,
    (account.LoadOrCreateAccount (Wallet := unit) (Account := unit)
       plain_file (fun _ => account.Exists) (fun _ _ _ => None) zeros
       (fun _ _ _ => Ok tt) (fun _ _ => Ok tt) (fun _ => Ok tt)
       "wallet.json" "wallet.pswd").2
    = [account.EvOpenWallet "wallet.json" (list_ascii_of_string "secret")] ++ tail
    /\ (tail = [] \/ tail = [account.EvGetDefaultAccount]).
Proof.
  apply (LoadOrCreateAccount_keeps_password (Wallet := unit) (Account := unit)
           plain_file (fun _ => account.Exists) (fun _ _ _ => None) zeros
           (fun _ _ _ => Ok tt) (fun _ _ => Ok tt) (fun _ => Ok tt)
           "wallet.json" "wallet.pswd").
  discriminate.
Defined.

Lemma LoadOrCreateAccount_no_password_witness :
  account.LoadOrCreateAccount (Wallet := unit) (Account := unit)
    no_file (fun _ => account.Exists) (fun _ _ _ => None) zeros
    (fun _ _ _ => Ok tt) (fun _ _ => Ok tt) (fun _ => Ok tt)
    "wallet.json" "wallet.pswd"
  = (inr (account.CannotLoadPassword "wallet.pswd"), []).
Proof.
  apply (LoadOrCreateAccount_no_password (Wallet := unit) (Account := unit));
    [discriminate | exact I].
Defined.

(** ** The relay: how a copy ends *)

Section CopyEnds.

Context {W R : Type} `{!relay.io_Writer W, !relay.io_Reader R}.

(** One round of the loop that goes through without an error: a read with
    data that the destination takes whole, or a read without data. *)
Inductive forwards : W * R * option Z -> W * R * option Z -> Prop :=
| forwards_data dest src written d src1 dest1 :
    relay.Read src relay.bufsize = ((d, None), src1) ->
    0 < Z.of_nat (length d) <= relay.bufsize ->
    relay.Write dest d = ((Z.of_nat (length d), None), dest1) ->
    forwards (dest, src, written)
             (dest1, src1, relay.add_written written (Z.of_nat (length d)))
| forwards_nothing dest src written src1 :
    relay.Read src relay.bufsize = (([], None), src1) ->
    forwards (dest, src, written) (dest, src1, written).

Lemma copyBuffer_forwards (n : nat) :
  forall (dest : W) (src : R) (written : option Z) dest' src' written' (fuel : nat),
    nsteps forwards n (dest, src, written) (dest', src', written') ->
    relay.copyBuffer (n + fuel) dest src written = relay.copyBuffer fuel dest' src' written'.
Proof.
  induction n as [|n IH]; intros dest src written dest' src' written' fuel Hn.
  - by inversion Hn; subst.
  - inversion Hn as [|? ? [[dest0 src0] written0] ? Hstep Hn']; subst.
    cbn [Nat.add relay.copyBuffer].
    inversion Hstep as [? ? ? d ? ? Hread Hlen Hwrite | ? ? ? ? Hread]; subst; rewrite Hread.
    + destruct (Z.ltb_spec relay.bufsize (Z.of_nat (length d))); [lia|].
      destruct (Z.ltb_spec 0 (Z.of_nat (length d))); [|lia].
      rewrite Hwrite, Z.eqb_refl. cbn [negb].
      rewrite (proj2 (Z.ltb_lt 0 _)) by lia. by apply IH.
    + cbn [length Z.of_nat]. unfold relay.bufsize at 1. cbn [Z.ltb Z.compare].
      by apply IH.
Qed.

(** The counter after a write that reports [nw] bytes. *)
Definition after_write (written : option Z) (nw : Z) : option Z :=
  if 0 <? nw then relay.add_written written nw else written.

(** X14. When a read brings data together with an error, the data goes to
    the destination first; then the copy ends: with nil if the error is the
    end of input, with the error of the read if not.  This holds after any
    number of rounds that went through. *)
Theorem copyBuffer_read_error (n fuel : nat) (dest dest1 dest2 : W) (src src1 src2 : R)
    (written written1 : option Z) (d : list ascii) (e : error) :
  nsteps forwards n (dest, src, written) (dest1, src1, written1) ->
  relay.Read src1 relay.bufsize = ((d, Some e), src2) ->
  0 < Z.of_nat (length d) <= relay.bufsize ->
  relay.Write dest1 d = ((Z.of_nat (length d), None), dest2) ->
  relay.copyBuffer (n + S fuel) dest src written
  = (relay.CopyReturned (match e with EOF => None | _ => Some e end), dest2, src2,
     relay.add_written written1 (Z.of_nat (length d))).
Proof.
  intros Hn Hread Hlen Hwrite. rewrite (copyBuffer_forwards n _ _ _ _ _ _ _ Hn).
  cbn [relay.copyBuffer]. rewrite Hread.
  destruct (Z.ltb_spec relay.bufsize (Z.of_nat (length d))); [lia|].
  destruct (Z.ltb_spec 0 (Z.of_nat (length d))); [|lia].
  rewrite Hwrite, Z.eqb_refl. cbn [negb].
  rewrite (proj2 (Z.ltb_lt 0 _)) by lia. by destruct e.
Qed.

(** X15. A destination that takes fewer bytes than it was given, without an
    error of its own, ends the copy with [io.ErrShortWrite], whatever the
    read reported with the data, the end of input included; the bytes that
    it did take are counted. *)
Theorem copyBuffer_short_write (n fuel : nat) (dest dest1 dest2 : W) (src src1 src2 : R)
    (written written1 : option Z) (d : list ascii) (rerr : option error) (nw : Z) :
  nsteps forwards n (dest, src, written) (dest1, src1, written1) ->
  relay.Read src1 relay.bufsize = ((d, rerr), src2) ->
  0 < Z.of_nat (length d) <= relay.bufsize ->
  relay.Write dest1 d = ((nw, None), dest2) ->
  nw <> Z.of_nat (length d) ->
  relay.copyBuffer (n + S fuel) dest src written
  = (relay.CopyReturned (Some ErrShortWrite), dest2, src2, after_write written1 nw).
Proof.
  intros Hn Hread Hlen Hwrite Hshort. rewrite (copyBuffer_forwards n _ _ _ _ _ _ _ Hn).
  cbn [relay.copyBuffer]. rewrite Hread.
  destruct (Z.ltb_spec relay.bufsize (Z.of_nat (length d))); [lia|].
  destruct (Z.ltb_spec 0 (Z.of_nat (length d))); [|lia].
  rewrite Hwrite. destruct (Z.eqb_spec (Z.of_nat (length d)) nw); [congruence|].
  reflexivity.
Qed.

(** X16. The error of a write ends the copy and is the error returned, also
    when the read that brought the data reported an error too; the bytes
    that the failing write reports are counted. *)
Theorem copyBuffer_write_error (n fuel : nat) (dest dest1 dest2 : W) (src src1 src2 : R)
    (written written1 : option Z) (d : list ascii) (rerr : option error) (nw : Z)
    (e : error) :
  nsteps forwards n (dest, src, written) (dest1, src1, written1) ->
  relay.Read src1 relay.bufsize = ((d, rerr), src2) ->
  0 < Z.of_nat (length d) <= relay.bufsize ->
  relay.Write dest1 d = ((nw, Some e), dest2) ->
  relay.copyBuffer (n + S fuel) dest src written
  = (relay.CopyReturned (Some e), dest2, src2, after_write written1 nw).
Proof.
  intros Hn Hread Hlen Hwrite. rewrite (copyBuffer_forwards n _ _ _ _ _ _ _ Hn).
  cbn [relay.copyBuffer]. rewrite Hread.
  destruct (Z.ltb_spec relay.bufsize (Z.of_nat (length d))); [lia|].
  destruct (Z.ltb_spec 0 (Z.of_nat (length d))); [|lia].
  by rewrite Hwrite.
Qed.

(** X17. A source that keeps answering a read with no data and no error
    keeps the copy in its loop: however many rounds are observed, it has not
    returned and nothing was written or counted. *)
Theorem copyBuffer_spins (fuel : nat) (dest : W) (src : R) (written : option Z) :
  relay.Read src relay.bufsize = (([], None), src) ->
  relay.copyBuffer fuel dest src written = (relay.CopyOutOfFuel, dest, src, written).
Proof.
  intros Hread. induction fuel as [|fuel IH]; [reflexivity|].
  cbn [relay.copyBuffer]. rewrite Hread. cbn [length Z.of_nat].
  unfold relay.bufsize at 1. cbn [Z.ltb Z.compare]. exact IH.
Qed.

End CopyEnds.

(** X18. What reaches an in-memory destination is the payload, byte for byte
    and in the order of the reads, appended to what the destination held. *)
Theorem copyBuffer_forwards_payload {R : Type} `{!relay.io_Reader R} (src : R)
    (chunks : list (list ascii)) (fuel : nat) (dest : relay.buffer_writer)
    (written : option Z) :
  relay.delivers src chunks ->
  (length chunks <= fuel)%nat ->
  exists src' written',
    relay.copyBuffer fuel dest src written
    = (relay.CopyReturned None,
       {| relay.contents := relay.contents dest ++ concat chunks;
          relay.writer_closed := relay.writer_closed dest |},
       src', written').
Proof.
  intros Hsrc. revert fuel dest written.
  induction Hsrc as [src src' d Hread Hlen | src src' d ds Hread Hlen Hrest IH];
    intros fuel dest written Hfuel; (destruct fuel as [|fuel]; [cbn in Hfuel; lia|]);
    cbn [relay.copyBuffer]; rewrite Hread;
    (destruct (Z.ltb_spec relay.bufsize (Z.of_nat (length d))) as [Hbig|_]; [lia|]).
  - cbn [concat]. rewrite app_nil_r.
    destruct (Z.ltb_spec 0 (Z.of_nat (length d))) as [Hpos|Hzero].
    + cbn [relay.Write relay.buffer_Write]. rewrite Z.eqb_refl. cbn [negb]. eauto.
    + destruct d; [|cbn in Hzero; lia]. rewrite app_nil_r. destruct dest. eauto.
  - assert (Hfuel' : (length ds <= fuel)%nat) by (cbn in Hfuel; lia).
    cbn [concat].
    destruct (Z.ltb_spec 0 (Z.of_nat (length d))) as [Hpos|Hzero].
    + cbn [relay.Write relay.buffer_Write]. rewrite Z.eqb_refl. cbn [negb].
      edestruct IH as (src'' & written' & ->); [exact Hfuel'|].
      cbn [relay.contents relay.writer_closed]. rewrite <- app_assoc. eauto.
    + destruct d; [|cbn in Hzero; lia]. cbn [app]. by apply IH.
Qed.

(** A source whose last read brings data and a broken connection, a
    destination with room for a few bytes only, and a source that never has
    anything. *)
Definition reset : error := errorString "connection reset by peer".

Definition broken_source : relay.script_reader :=
  {| relay.script := [(json.bytes "hello", None); (json.bytes " wor", Some reset)];
     relay.reader_closed := false |}.

Record limited_writer : Type := {
  room : Z;
  failure : option error;
  taken : list ascii
}.

#[global] Instance limited_Write : relay.io_Writer limited_writer := fun w p =>
  let n := Z.min (Z.of_nat (length p)) (room w) in
  ((n, if n <? Z.of_nat (length p) then failure w else None),
   {| room := room w - n; failure := failure w; taken := taken w ++ take (Z.to_nat n) p |}).

Definition idle_reader : Type := unit.

#[global] Instance idle_Read : relay.io_Reader idle_reader := fun r _ => (([], None), r).

Lemma hello_forwarded :
  nsteps forwards 1 (empty_buffer, broken_source, Some 100)
    ({| relay.contents := json.bytes "hello"; relay.writer_closed := false |},
     {| relay.script := [(json.bytes " wor", Some reset)]; relay.reader_closed := false |},
     Some 105).
Proof.
  eapply nsteps_l; [|apply nsteps_O].
  refine (forwards_data empty_buffer broken_source (Some 100) (json.bytes "hello") _ _ _ _ _);
    [reflexivity | split; [reflexivity | discriminate] | reflexivity].
Defined.

Lemma copyBuffer_read_error_witness :
  relay.copyBuffer 5 empty_buffer broken_source (Some 100)
  = (relay.CopyReturned (Some reset),
     {| relay.contents := json.bytes "hello wor"; relay.writer_closed := false |},
     {| relay.script := []; relay.reader_closed := false |},
     Some 109).
Proof.
  apply (copyBuffer_read_error 1 3 _ _ _ _ _ _ _ _ (json.bytes " wor") reset hello_forwarded);
    [reflexivity | split; [reflexivity | discriminate] | reflexivity].
Defined.

Lemma copyBuffer_short_write_witness :
  relay.copyBuffer 1 {| room := 3; failure := None; taken := [] |} hello_source (Some 100)
  = (relay.CopyReturned (Some ErrShortWrite),
     {| room := 0; failure := None; taken := json.bytes "hel" |},
     {| relay.script := [(json.bytes " wor", None); (json.bytes "ld", Some EOF)];
        relay.reader_closed := false |},
     Some 103).
Proof.
  refine (copyBuffer_short_write 0 0
            {| room := 3; failure := None; taken := [] |}
            {| room := 3; failure := None; taken := [] |}
            {| room := 0; failure := None; taken := json.bytes "hel" |}
            hello_source hello_source
            {| relay.script := [(json.bytes " wor", None); (json.bytes "ld", Some EOF)];
               relay.reader_closed := false |}
            (Some 100) (Some 100) (json.bytes "hello") None 3 (nsteps_O _ _) _ _ _ _);
    [reflexivity | split; [reflexivity | discriminate] | reflexivity | discriminate].
Defined.

Lemma copyBuffer_write_error_witness :
  relay.copyBuffer 1 {| room := 3; failure := Some reset; taken := [] |} hello_source None
  = (relay.CopyReturned (Some reset),
     {| room := 0; failure := Some reset; taken := json.bytes "hel" |},
     {| relay.script := [(json.bytes " wor", None); (json.bytes "ld", Some EOF)];
        relay.reader_closed := false |},
     None).
Proof.
  refine (copyBuffer_write_error 0 0
            {| room := 3; failure := Some reset; taken := [] |}
            {| room := 3; failure := Some reset; taken := [] |}
            {| room := 0; failure := Some reset; taken := json.bytes "hel" |}
            hello_source hello_source
            {| relay.script := [(json.bytes " wor", None); (json.bytes "ld", Some EOF)];
               relay.reader_closed := false |}
            None None (json.bytes "hello") None 3 reset (nsteps_O _ _) _ _ _);
    [reflexivity | split; [reflexivity | discriminate] | reflexivity].
Defined.

Lemma copyBuffer_spins_witness :
  relay.copyBuffer 1000 empty_buffer (tt : idle_reader) (Some 0)
  = (relay.CopyOutOfFuel, empty_buffer, tt, Some 0).
Proof. apply (copyBuffer_spins 1000 empty_buffer (tt : idle_reader) (Some 0)). reflexivity. Defined.

Lemma copyBuffer_forwards_payload_witness :
  exists src' written',
    relay.copyBuffer 3 empty_buffer hello_source (Some 100)
    = (relay.CopyReturned None,
       {| relay.contents := [] ++ concat [json.bytes "hello"; json.bytes " wor"; json.bytes "ld"];
          relay.writer_closed := false |},
       src', written').
Proof.
  apply (copyBuffer_forwards_payload hello_source
           [json.bytes "hello"; json.bytes " wor"; json.bytes "ld"] 3 empty_buffer (Some 100)
           hello_source_delivers).
  cbn. lia.
Defined.

(** ** Connections of the session: [UpdateServerConn], [CreateServerConn]
    and the getters *)

(** [c.GetServerTCPConn(force)] and its three siblings: the negotiation, then
    the field. *)
Inductive got (A : Type) : Type :=
| Got (a : A)
| Failed (err : error)
| GetPanicked (msg : string)
| GetOutOfFuel.
Arguments Got {A} a.
Arguments Failed {A} err.
Arguments GetPanicked {A} msg.
Arguments GetOutOfFuel {A}.

Section Getters.

Variable E : Env.

Definition getter {A : Type} (field : Common.t -> A) (fuel : nat) (force : bool) (st : State)
  : got A * State :=
  match CreateServerConn E fuel force st with
  | (Returned (Some err), st') => (Failed err, st')
  | (Returned None, st') => (Got (field (common st')), st')
  | (Panicked msg, st') => (GetPanicked msg, st')
  | (OutOfFuel, st') => (GetOutOfFuel, st')
  end.

Definition GetServerTCPConn := getter Common.tcpConn.
Definition GetServerUDPConn := getter Common.udpConn.
Definition GetServerUDPReadChan := getter Common.udpReadChan.
Definition GetServerUDPWriteChan := getter Common.udpWriteChan.

End Getters.

Definition SetServerTCPConn (conn : NetConn) : M unit :=
  modify (with_common (Common.set_tcpConn conn)).
Definition SetServerUDPReadChan (udpReadChan : option chan) : M unit :=
  modify (with_common (Common.set_udpReadChan udpReadChan)).
Definition SetServerUDPWriteChan (udpWriteChan : option chan) : M unit :=
  modify (with_common (Common.set_udpWriteChan udpWriteChan)).

(** A connection is open; the session holds a connection. *)
Definition is_open (st : State) (h : handle) : Prop := conns st !! h = Some true.
Definition held (st : State) (h : handle) : Prop :=
  Common.tcpConn (common st) = conn_ptr (Some h) \/ Common.udpConn (common st) = Some h.

(** No connection is open that the session does not hold, and the
    connections that it holds are connections that were made. *)
Record tidy (st : State) : Prop := {
  tidy_open : forall h, is_open st h -> held st h;
  tidy_held : forall h, held st h -> h ∈ dom (conns st)
}.

(** What the blocks of a round other than the dials leave alone. *)
Definition links (st : State) :=
  (conns st, Common.tcpConn (common st), Common.udpConn (common st),
   Common.connected (common st), config (common st)).

Lemma tidy_same (st st' : State) :
  conns st' = conns st ->
  Common.tcpConn (common st') = Common.tcpConn (common st) ->
  Common.udpConn (common st') = Common.udpConn (common st) ->
  tidy st -> tidy st'.
Proof.
  intros Hc Ht Hu [Ho Hh].
  split; unfold is_open, held in *; rewrite Hc, Ht, Hu; auto.
Qed.

Lemma tidy_links (st st' : State) : links st' = links st -> tidy st -> tidy st'.
Proof. unfold links. intros [= Hc Ht Hu _ _]. by apply tidy_same. Qed.

Lemma tidy_connected (b : bool) (st : State) :
  tidy st -> tidy (with_common (Common.set_connected b) st).
Proof. by apply tidy_same. Qed.

Section Connections.

Variable E : Env.

(** A block that leaves the connections alone and does not leave the loop. *)
Definition quiet {A : Type} (m : M A) : Prop :=
  forall st, links (m st).2 = links st /\ (m st).1 <> inr BreakRandomSubscriber.

Lemma quiet_ret {A : Type} (a : A) : quiet (mret a).
Proof. by intros st. Qed.

Lemma quiet_bind {A B : Type} (m : M A) (f : A -> M B) :
  quiet m -> (forall a, quiet (f a)) -> quiet (m ≫= f).
Proof.
  intros Hm Hf st. unfold mbind, M_bind. specialize (Hm st).
  destruct (m st) as [[a|x] st1]; cbn [fst snd] in *.
  - destruct Hm as [Hl _]. destruct (Hf a st1) as [Hl' Hr]. split; [congruence|assumption].
  - destruct Hm as [Hl Hr]. split; [assumption|]. intros [= ->]. by apply Hr.
Qed.

Lemma quiet_leave {A : Type} (x : exit) : x <> BreakRandomSubscriber -> quiet (leave (A := A) x).
Proof. intros Hx st. split; [reflexivity|]. cbn. congruence. Qed.

Lemma quiet_get : quiet get.
Proof. by intros st. Qed.

Lemma quiet_modify (f : State -> State) : (forall st, links (f st) = links st) -> quiet (modify f).
Proof. intros Hf st. split; [apply Hf|done]. Qed.

Lemma quiet_emit (ev : event) : quiet (emit ev).
Proof. by apply quiet_modify. Qed.

Lemma quiet_deref (p : option loc) : quiet (deref p).
Proof. intros st. unfold deref. destruct p as [l|]; [destruct (heap st !! l)|]; by split. Qed.

Lemma quiet_or_next {A : Type} (r : result A) : quiet (or_next r).
Proof.
  destruct r as [a|e]; [apply quiet_ret|]. unfold or_next.
  apply quiet_bind; [apply quiet_emit | intros _; by apply quiet_leave].
Qed.

Lemma quiet_SetMetadata (metadataString : string) : quiet (SetMetadata metadataString).
Proof.
  intros st. rewrite SetMetadata_eq. cbn zeta.
  destruct (json_Unmarshal _ _).2; by split.
Qed.

Lemma quiet_choose_receiver (subscriber : string) (md : Metadata) :
  quiet (choose_receiver E subscriber md).
Proof.
  unfold choose_receiver. destruct (0 <? String.length (BeneficiaryAddr md))%nat.
  - by apply quiet_modify.
  - repeat (apply quiet_bind; [apply quiet_or_next | intros ?]). by apply quiet_modify.
Qed.

Lemma quiet_price_gate (md : Metadata) : quiet (price_gate E md).
Proof.
  unfold price_gate. apply quiet_bind; [apply quiet_get | intros st0].
  apply quiet_bind; [apply quiet_or_next | intros [p1 p2]].
  destruct (_ <? p1); [apply quiet_bind; [apply quiet_emit | intros _; by apply quiet_leave]|].
  destruct (_ <? p2); [apply quiet_bind; [apply quiet_emit | intros _; by apply quiet_leave]|].
  apply quiet_bind; [by apply quiet_modify | intros _; by apply quiet_modify].
Qed.

Lemma quiet_adopt_reverse_services : quiet adopt_reverse_services.
Proof.
  unfold adopt_reverse_services. apply quiet_bind; [apply quiet_get | intros st0].
  destruct (Common.ReverseMetadata (common st0)) as [r|]; [|apply quiet_ret].
  apply quiet_bind; [apply quiet_deref | intros rm].
  apply quiet_bind; [apply quiet_deref | intros md].
  destruct (Common.Metadata (common st0)); [by apply quiet_modify | by apply quiet_leave].
Qed.

Lemma after_Close_open (conn : NetConn) (st : State) (h' : handle) :
  is_open (after_Close conn st) h' <-> is_open st h' /\ conn <> conn_ptr (Some h').
Proof.
  unfold is_open. destruct conn as [|[h|]]; cbn [after_Close];
    [split; [intros H; split; [assumption | discriminate] | by intros [H _]] |
     | split; [intros H; split; [assumption | discriminate] | by intros [H _]]].
  assert (Hother : conns st !! h <> Some true ->
            conns st !! h' = Some true <->
            conns st !! h' = Some true /\ conn_ptr (Some h) <> conn_ptr (Some h')).
  { intros Hh. split; [|by intros [H _]]. intros H. split; [assumption|].
    intros [= <-]. contradiction. }
  destruct (conns st !! h) as [[]|] eqn:Hh; cbn; [|by apply Hother..].
  destruct (decide (h = h')) as [<-|Hne].
  - rewrite lookup_insert_eq. split; [discriminate | by intros [_ Hc]].
  - rewrite lookup_insert_ne by assumption. split; [|by intros [H _]].
    intros H. split; [assumption | congruence].
Qed.

Lemma after_Close_dom (conn : NetConn) (st : State) (h' : handle) :
  h' ∈ dom (conns (after_Close conn st)) <-> h' ∈ dom (conns st).
Proof.
  destruct conn as [|[h|]]; cbn [after_Close]; [done| |done].
  destruct (conns st !! h) as [[]|] eqn:Hh; cbn; [|done..].
  rewrite dom_insert, elem_of_union, elem_of_singleton. split; [|auto].
  intros [->|H]; [|assumption]. apply elem_of_dom. eauto.
Qed.

Definition panics {A : Type} (r : A + exit) : Prop :=
  match r with
  | inl _ => False
  | inr x => exists msg, x = Panic msg
  end.

Lemma dial_TCP_tidy (st : State) :
  tidy st ->
  let '(r, st') := dial_TCP E st in
  tidy st'
  /\ Common.udpConn (common st') = Common.udpConn (common st)
  /\ Common.connected (common st') = Common.connected (common st)
  /\ config (common st') = config (common st)
  /\ match r with
     | inl true =>
       exists h, Common.tcpConn (common st') = conn_ptr (Some h) /\ is_open st' h
                 /\ Common.udpConn (common st') <> Some h
     | inl false => True
     | inr _ => panics r
     end.
Proof.
  intros [Ho Hh]. unfold dial_TCP. run_M. rewrite Close_NetConn. unfold deref.
  pose proof (after_Close_common (Common.tcpConn (common st)) st) as Hc.
  pose proof (after_Close_open (Common.tcpConn (common st)) st) as Hop.
  pose proof (after_Close_dom (Common.tcpConn (common st)) st) as Hdom.
  revert Hc Hop Hdom.
  generalize (after_Close (Common.tcpConn (common st)) st). intros st1 Hc Hop Hdom.
  assert (Honly : forall h, is_open st1 h -> Common.udpConn (common st) = Some h).
  { intros h Hh1. apply Hop in Hh1 as [Hh1 Hne]. destruct (Ho h Hh1); [congruence|assumption]. }
  assert (Hudp : forall h, Common.udpConn (common st) = Some h -> h ∈ dom (conns st1)).
  { intros h Hu. apply Hdom, Hh. by right. }
  rewrite Hc.
  destruct (Common.Metadata (common st)) as [l|]; [destruct (heap st1 !! l) as [md|]|].
  - destruct (DialTimeout E _ _ _ _) as [err|].
    + cbn. rewrite Hc. split; [|by repeat split].
      split; unfold is_open, held; cbn; rewrite ?Hc.
      * intros h Hh1. right. by apply Honly.
      * intros h [[=]|Hu]. by apply Hudp.
    + cbn. rewrite Hc. set (h := fresh (dom (conns st1))).
      assert (Hfresh : h ∉ dom (conns st1)) by apply is_fresh.
      split; [|repeat split].
      * split; unfold is_open, held; cbn; rewrite ?Hc.
        -- intros h0 Hh0. destruct (decide (h = h0)) as [->|Hne]; [by left|].
           rewrite lookup_insert_ne in Hh0 by assumption. right. by apply Honly.
        -- intros h0 [[= <-]|Hu]; rewrite dom_insert, elem_of_union, elem_of_singleton;
             [by left | right; by apply Hudp].
      * exists h. split; [reflexivity|]. split; [unfold is_open; cbn; by rewrite lookup_insert_eq|].
        intros Hu. by apply Hfresh, Hudp.
  - cbn. rewrite Hc. split; [|repeat split; eauto].
    split; unfold is_open, held; rewrite ?Hc.
    + intros h Hh1. right. by apply Honly.
    + intros h Hheld. apply Hdom, Hh. exact Hheld.
  - cbn. rewrite Hc. split; [|repeat split; eauto].
    split; unfold is_open, held; rewrite ?Hc.
    + intros h Hh1. right. by apply Honly.
    + intros h Hheld. apply Hdom, Hh. exact Hheld.
Qed.

Lemma dial_UDP_tidy (st : State) :
  tidy st ->
  let '(r, st') := dial_UDP E st in
  tidy st'
  /\ Common.tcpConn (common st') = Common.tcpConn (common st)
  /\ Common.connected (common st') = Common.connected (common st)
  /\ config (common st') = config (common st)
  /\ (forall h, is_open st h -> Common.udpConn (common st) <> Some h -> is_open st' h)
  /\ match r with
     | inl true => exists h, Common.udpConn (common st') = Some h /\ is_open st' h
     | inl false => True
     | inr _ => panics r
     end.
Proof.
  intros [Ho Hh]. unfold dial_UDP. run_M.
  change (Closer_of_UDPConn (Common.udpConn (common st)))
    with (Closer_of_NetConn (conn_ptr (Common.udpConn (common st)))).
  rewrite Close_NetConn. unfold deref.
  pose proof (after_Close_common (conn_ptr (Common.udpConn (common st))) st) as Hc.
  pose proof (after_Close_open (conn_ptr (Common.udpConn (common st))) st) as Hop.
  pose proof (after_Close_dom (conn_ptr (Common.udpConn (common st))) st) as Hdom.
  revert Hc Hop Hdom.
  generalize (after_Close (conn_ptr (Common.udpConn (common st))) st). intros st1 Hc Hop Hdom.
  assert (Honly : forall h, is_open st1 h -> Common.tcpConn (common st) = conn_ptr (Some h)).
  { intros h Hh1. apply Hop in Hh1 as [Hh1 Hne]. destruct (Ho h Hh1); [assumption|congruence]. }
  assert (Htcp : forall h, Common.tcpConn (common st) = conn_ptr (Some h) -> h ∈ dom (conns st1)).
  { intros h Hu. apply Hdom, Hh. by left. }
  assert (Hstay : forall h, is_open st h -> Common.udpConn (common st) <> Some h -> is_open st1 h).
  { intros h H1 H2. apply Hop. split; [assumption | congruence]. }
  rewrite Hc.
  destruct (Common.Metadata (common st)) as [l|]; [destruct (heap st1 !! l) as [md|]|].
  - unfold StartUDPReaderWriter. run_M.
    destruct (DialUDP E _ _ _ _) as [err|].
    + cbn. rewrite Hc. split; [|by repeat split; auto].
      split; unfold is_open, held; cbn; rewrite ?Hc.
      * intros h Hh1. left. by apply Honly.
      * intros h [Ht|[=]]. by apply Htcp.
    + cbn. rewrite Hc. set (h := fresh (dom (conns st1))).
      assert (Hfresh : h ∉ dom (conns st1)) by apply is_fresh.
      split; [|repeat split].
      * split; unfold is_open, held; cbn; rewrite ?Hc.
        -- intros h0 Hh0. destruct (decide (h = h0)) as [->|Hne]; [by right|].
           rewrite lookup_insert_ne in Hh0 by assumption. left. by apply Honly.
        -- intros h0 [Ht|[= <-]]; rewrite dom_insert, elem_of_union, elem_of_singleton;
             [right; by apply Htcp | by left].
      * intros h0 H1 H2. unfold is_open. cbn.
        rewrite lookup_insert_ne; [by apply Hstay|].
        intros <-. apply Hfresh, Hdom. apply elem_of_dom. unfold is_open in H1. eauto.
      * exists h. split; [reflexivity|]. unfold is_open; cbn. by rewrite lookup_insert_eq.
  - cbn. rewrite Hc. split; [|repeat split; eauto].
    split; unfold is_open, held; rewrite ?Hc.
    + intros h Hh1. left. by apply Honly.
    + intros h Hheld. apply Hdom, Hh. exact Hheld.
  - cbn. rewrite Hc. split; [|repeat split; eauto].
    split; unfold is_open, held; rewrite ?Hc.
    + intros h Hh1. left. by apply Honly.
    + intros h Hheld. apply Hdom, Hh. exact Hheld.
Qed.

(** What [UpdateServerConn] leaves behind: the session holds every open
    connection; with [true] it is marked connected and holds an open
    connection for each transport that the service needs; with [false], and
    when it panics on a nil descriptor, the mark is what it was. *)
Lemma UpdateServerConn_tidy (st : State) :
  tidy st ->
  let '(r, st') := UpdateServerConn E st in
  tidy st'
  /\ config (common st') = config (common st)
  /\ match r with
     | inl true =>
       Common.connected (common st') = true
       /\ (needs_TCP (common st) = true ->
           exists h, Common.tcpConn (common st') = conn_ptr (Some h) /\ is_open st' h)
       /\ (needs_UDP (common st) = true ->
           exists h, Common.udpConn (common st') = Some h /\ is_open st' h)
     | inl false => Common.connected (common st') = Common.connected (common st)
     | inr _ => panics r /\ Common.connected (common st') = Common.connected (common st)
     end.
Proof.
  intros Htidy. unfold UpdateServerConn. run_M.
  fold (needs_TCP (common st)). fold (needs_UDP (common st)).
  destruct (needs_TCP (common st)) eqn:HT.
  - pose proof (dial_TCP_tidy st Htidy) as H1.
    destruct (dial_TCP E st) as [[[]|x] st1]; cbn [negb].
    + destruct H1 as (Ht1 & Hu1 & Hn1 & Hc1 & h1 & Htcp1 & Hopen1 & Hne1).
      destruct (needs_UDP (common st)) eqn:HU.
      * pose proof (dial_UDP_tidy st1 Ht1) as H2.
        destruct (dial_UDP E st1) as [[[]|x] st2]; cbn [negb].
        -- destruct H2 as (Ht2 & Htcp2 & Hn2 & Hc2 & Hstay & h2 & Hudp2 & Hopen2).
           cbn. rewrite ?config_set_connected. split; [by apply tidy_connected|].
           split; [congruence|]. split; [reflexivity|]. split; intros _.
           ++ exists h1. split; [congruence|]. by apply Hstay.
           ++ by exists h2.
        -- destruct H2 as (Ht2 & Htcp2 & Hn2 & Hc2 & _).
           split; [exact Ht2|]. split; congruence.
        -- destruct H2 as (Ht2 & Htcp2 & Hn2 & Hc2 & _ & Hp).
           split; [exact Ht2|]. split; [congruence|]. split; [exact Hp | congruence].
      * cbn. rewrite ?config_set_connected. split; [by apply tidy_connected|].
        split; [assumption|]. split; [reflexivity|]. split; [|discriminate].
        intros _. by exists h1.
    + destruct H1 as (Ht1 & Hu1 & Hn1 & Hc1 & _). split; [exact Ht1|]. by split.
    + destruct H1 as (Ht1 & Hu1 & Hn1 & Hc1 & Hp). split; [exact Ht1|]. by repeat split.
  - cbn [orb negb]. destruct (needs_UDP (common st)) eqn:HU.
    + pose proof (dial_UDP_tidy st Htidy) as H2.
      destruct (dial_UDP E st) as [[[]|x] st2]; cbn [negb].
      * destruct H2 as (Ht2 & Htcp2 & Hn2 & Hc2 & Hstay & h2 & Hudp2 & Hopen2).
        cbn. rewrite ?config_set_connected. split; [by apply tidy_connected|].
        split; [assumption|]. split; [reflexivity|]. split; [discriminate|].
        intros _. by exists h2.
      * destruct H2 as (Ht2 & Htcp2 & Hn2 & Hc2 & _). split; [exact Ht2|]. by split.
      * destruct H2 as (Ht2 & Htcp2 & Hn2 & Hc2 & _ & Hp). split; [exact Ht2|]. by repeat split.
    + cbn. rewrite ?config_set_connected. split; [by apply tidy_connected|].
      split; [reflexivity|]. split; [reflexivity|]. split; discriminate.
Qed.

(** The session is connected and holds an open connection for each
    transport that its service needs. *)
Definition settled (st : State) : Prop :=
  Common.connected (common st) = true
  /\ (needs_TCP (common st) = true ->
      exists h, Common.tcpConn (common st) = conn_ptr (Some h) /\ is_open st h)
  /\ (needs_UDP (common st) = true ->
      exists h, Common.udpConn (common st) = Some h /\ is_open st h).

Lemma needs_config (c c' : Common.t) :
  config c = config c' -> needs_TCP c = needs_TCP c' /\ needs_UDP c = needs_UDP c'.
Proof.
  unfold config, needs_TCP, needs_UDP. intros H. injection H as H1 _ _ _ _ _ H7.
  by rewrite H1, H7.
Qed.

Lemma links_config (st st' : State) : links st' = links st -> config (common st') = config (common st).
Proof. intros H. exact (f_equal snd H). Qed.

(** How a block of the loop body ends when it ends the round itself. *)
Definition kept (st : State) (r : unit + exit) (st' : State) : Prop :=
  tidy st' /\ config (common st') = config (common st)
  /\ (r = inr BreakRandomSubscriber -> settled st').

Lemma kept_quiet (st st' : State) (x : exit) :
  tidy st -> links st' = links st -> inr x <> (inr BreakRandomSubscriber : unit + exit) ->
  kept st (inr x) st'.
Proof.
  intros Ht Hl Hx. split; [by apply (tidy_links st)|]. split; [by apply links_config|].
  intros H. contradiction.
Qed.

Lemma quiet_exit {A : Type} (x : exit) :
  (inr x : A + exit) <> inr BreakRandomSubscriber ->
  (inr x : unit + exit) <> inr BreakRandomSubscriber.
Proof. intros H [= ->]. by apply H. Qed.

Lemma candidate_kept (subscriber metadataString : string) (st : State) :
  tidy st ->
  kept st (candidate E subscriber metadataString st).1 (candidate E subscriber metadataString st).2.
Proof.
  intros Ht. unfold candidate. run_M.
  destruct (quiet_SetMetadata metadataString st) as [Hl1 Hr1].
  destruct (SetMetadata metadataString st) as [[ok|x] st1]; cbn [fst snd] in *;
    [|by apply kept_quiet; [| |apply (quiet_exit (A := bool))]].
  destruct ok; cbn [negb]; [|by apply kept_quiet].
  destruct (quiet_deref (Common.Metadata (common st1)) st1) as [Hl2 Hr2].
  destruct (deref (Common.Metadata (common st1)) st1) as [[md|x] st2]; cbn [fst snd] in *;
    [|apply kept_quiet; [assumption|congruence|by apply (quiet_exit (A := Metadata))]].
  destruct (quiet_choose_receiver subscriber md st2) as [Hl3 Hr3].
  destruct (choose_receiver E subscriber md st2) as [[[]|x] st3]; cbn [fst snd] in *;
    [|apply kept_quiet; [assumption|congruence|assumption]].
  destruct (quiet_price_gate md st3) as [Hl4 Hr4].
  destruct (price_gate E md st3) as [[[]|x] st4]; cbn [fst snd] in *;
    [|apply kept_quiet; [assumption|congruence|assumption]].
  destruct (quiet_adopt_reverse_services st4) as [Hl5 Hr5].
  destruct (adopt_reverse_services st4) as [[[]|x] st5]; cbn [fst snd] in *;
    [|apply kept_quiet; [assumption|congruence|assumption]].
  assert (Hl : links st5 = links st) by congruence.
  pose proof (UpdateServerConn_tidy st5 (tidy_links _ _ Hl Ht)) as HU.
  destruct (UpdateServerConn E st5) as [[[]|x] st6]; cbn [negb fst snd].
  - destruct HU as (Ht6 & Hc6 & Hn & HT & HU).
    destruct (needs_config _ _ Hc6) as [HnT HnU].
    split; [assumption|]. split; [rewrite Hc6; by apply links_config|]. intros _.
    unfold settled. rewrite HnT, HnU. by split.
  - destruct HU as (Ht6 & Hc6 & _). split; [assumption|].
    split; [rewrite Hc6; by apply links_config | discriminate].
  - destruct HU as (Ht6 & Hc6 & [msg ->] & _). split; [assumption|].
    split; [rewrite Hc6; by apply links_config | discriminate].
Qed.

Lemma round_kept (topic : string) (st : State) :
  tidy st -> kept st (round E topic st).1 (round E topic st).2.
Proof.
  intros Ht. unfold round. run_M.
  set (st1 := record _ (with_common _ st)).
  assert (Hl : links st1 = links st) by reflexivity.
  destruct (GetSubscribersCount E _ topic) as [n|err]; [|by apply kept_quiet].
  destruct (n =? 0); [by apply kept_quiet|].
  destruct (GetSubscribers E _ topic _ 1 true false) as [[|[subscriber metadataString] rest]|err];
    cbn [fst snd].
  - split; [by apply (tidy_links st)|]. by split.
  - set (st2 := record _ st1).
    assert (Hl2 : links st2 = links st) by reflexivity.
    destruct (candidate_kept subscriber metadataString st2 (tidy_links _ _ Hl2 Ht))
      as (H1 & H2 & H3).
    split; [assumption|]. split; [rewrite H2; by apply links_config | assumption].
  - by apply kept_quiet.
Qed.

Lemma negotiate_kept (fuel : nat) (topic : string) :
  forall st : State,
    tidy st ->
    let '(o, st') := negotiate E fuel topic st in
    tidy st' /\ config (common st') = config (common st)
    /\ (o = Returned None -> settled st').
Proof.
  induction fuel as [|fuel IH]; intros st Ht; cbn [negotiate];
    [split; [assumption|]; split; [reflexivity|discriminate]|].
  destruct (round_kept topic st Ht) as (Ht1 & Hc1 & Hs1).
  destruct (round E topic st) as [r st1]; cbn [fst snd] in *.
  assert (Htick : tidy (tick st1)) by (by apply (tidy_same st1)).
  assert (Hgoes : let '(o, st') := negotiate E fuel topic (tick st1) in
                  tidy st' /\ config (common st') = config (common st)
                  /\ (o = Returned None -> settled st')).
  { specialize (IH (tick st1) Htick). destruct (negotiate E fuel topic (tick st1)) as [o st'].
    destruct IH as (H1 & H2 & H3). split; [assumption|]. split; [|assumption].
    rewrite H2. exact Hc1. }
  destruct r as [[]|[]]; [exact Hgoes | exact Hgoes | | |].
  - split; [assumption|]. split; [assumption|]. intros _. by apply Hs1.
  - split; [assumption|]. split; [assumption|]. discriminate.
  - split; [assumption|]. split; [assumption|]. discriminate.
Qed.

End Connections.

(** *** Connections that a negotiation made *)

Section Dialled.

Variable E : Env.

(** The connections that the session holds for the transports of its
    service in [st'] were not there in [st]. *)
Definition dialled_since (st st' : State) : Prop :=
  (needs_TCP (common st') = true ->
   forall h, Common.tcpConn (common st') = conn_ptr (Some h) -> h ∉ dom (conns st))
  /\ (needs_UDP (common st') = true ->
      forall h, Common.udpConn (common st') = Some h -> h ∉ dom (conns st)).

Definition grows (st st' : State) : Prop := dom (conns st) ⊆ dom (conns st').

Lemma grows_links (st st' : State) : links st' = links st -> grows st st'.
Proof.
  intros Hl. unfold grows. unfold links in Hl.
  do 4 apply (f_equal fst) in Hl. cbn [fst] in Hl. by rewrite Hl.
Qed.

Lemma grows_refl (st : State) : grows st st.
Proof. by unfold grows. Qed.

Lemma grows_trans (st1 st2 st3 : State) : grows st1 st2 -> grows st2 st3 -> grows st1 st3.
Proof. unfold grows. set_solver. Qed.

Lemma dial_TCP_new (st : State) :
  let '(r, st') := dial_TCP E st in
  grows st st'
  /\ Common.udpConn (common st') = Common.udpConn (common st)
  /\ (r = inl true ->
      forall h, Common.tcpConn (common st') = conn_ptr (Some h) -> h ∉ dom (conns st)).
Proof.
  unfold dial_TCP, grows. run_M. rewrite Close_NetConn. unfold deref.
  pose proof (after_Close_common (Common.tcpConn (common st)) st) as Hc.
  pose proof (after_Close_dom (Common.tcpConn (common st)) st) as Hdom.
  revert Hc Hdom.
  generalize (after_Close (Common.tcpConn (common st)) st). intros st1 Hc Hdom.
  assert (Hsub : dom (conns st) ⊆ dom (conns st1)) by (intros h Hh; by apply Hdom).
  rewrite Hc.
  destruct (Common.Metadata (common st)) as [l|]; [destruct (heap st1 !! l) as [md|]|];
    [destruct (DialTimeout E _ _ _ _) as [err|]|..]; cbn; rewrite ?Hc;
    try (split; [exact Hsub|]; split; [reflexivity|]; discriminate).
  split; [rewrite dom_insert; by apply union_subseteq_r'|]. split; [reflexivity|].
  intros _ h [= <-] Hin. apply (is_fresh (dom (conns st1))). by apply Hsub.
Qed.

Lemma dial_UDP_new (st : State) :
  let '(r, st') := dial_UDP E st in
  grows st st'
  /\ Common.tcpConn (common st') = Common.tcpConn (common st)
  /\ (r = inl true ->
      forall h, Common.udpConn (common st') = Some h -> h ∉ dom (conns st)).
Proof.
  unfold dial_UDP, grows. run_M.
  change (Closer_of_UDPConn (Common.udpConn (common st)))
    with (Closer_of_NetConn (conn_ptr (Common.udpConn (common st)))).
  rewrite Close_NetConn. unfold deref.
  pose proof (after_Close_common (conn_ptr (Common.udpConn (common st))) st) as Hc.
  pose proof (after_Close_dom (conn_ptr (Common.udpConn (common st))) st) as Hdom.
  revert Hc Hdom.
  generalize (after_Close (conn_ptr (Common.udpConn (common st))) st). intros st1 Hc Hdom.
  assert (Hsub : dom (conns st) ⊆ dom (conns st1)) by (intros h Hh; by apply Hdom).
  rewrite Hc. unfold StartUDPReaderWriter. run_M.
  destruct (Common.Metadata (common st)) as [l|]; [destruct (heap st1 !! l) as [md|]|];
    [destruct (DialUDP E _ _ _ _) as [err|]|..]; cbn; rewrite ?Hc;
    try (split; [exact Hsub|]; split; [reflexivity|]; discriminate).
  split; [rewrite dom_insert; by apply union_subseteq_r'|]. split; [reflexivity|].
  intros _ h [= <-] Hin. apply (is_fresh (dom (conns st1))). by apply Hsub.
Qed.

Lemma UpdateServerConn_new (st : State) :
  let '(r, st') := UpdateServerConn E st in
  grows st st'
  /\ (r = inl true ->
      (needs_TCP (common st) = true ->
       forall h, Common.tcpConn (common st') = conn_ptr (Some h) -> h ∉ dom (conns st))
      /\ (needs_UDP (common st) = true ->
          forall h, Common.udpConn (common st') = Some h -> h ∉ dom (conns st))).
Proof.
  unfold UpdateServerConn. run_M.
  fold (needs_TCP (common st)). fold (needs_UDP (common st)).
  destruct (needs_TCP (common st)) eqn:HT.
  - pose proof (dial_TCP_new st) as H1.
    destruct (dial_TCP E st) as [[[]|x] st1]; cbn [negb];
      destruct H1 as (Hg1 & Hu1 & Hn1); [|by split..].
    destruct (needs_UDP (common st)) eqn:HU.
    + pose proof (dial_UDP_new st1) as H2.
      destruct (dial_UDP E st1) as [[[]|x] st2]; cbn [negb];
        destruct H2 as (Hg2 & Ht2 & Hn2);
        (split; [by apply (grows_trans st st1)|]); [|discriminate..].
      intros _. cbn. split; intros _ h Hh.
      * apply (Hn1 eq_refl). congruence.
      * intros Hin. by apply (Hn2 eq_refl h Hh), Hg1.
    + cbn. split; [exact Hg1|]. intros _. split; [|discriminate].
      intros _ h Hh. by apply (Hn1 eq_refl).
  - cbn [negb orb]. destruct (needs_UDP (common st)) eqn:HU.
    + pose proof (dial_UDP_new st) as H2.
      destruct (dial_UDP E st) as [[[]|x] st2]; cbn [negb];
        destruct H2 as (Hg2 & Ht2 & Hn2); (split; [exact Hg2|]); [|discriminate..].
      intros _. cbn. split; [discriminate|]. intros _ h Hh. by apply (Hn2 eq_refl).
    + cbn. split; [exact (grows_refl st)|]. intros _. split; discriminate.
Qed.

(** How the loop body ends: no connection is forgotten, and when it leaves
    the loop the connections held were made in it. *)
Definition made (st : State) (r : unit + exit) (st' : State) : Prop :=
  grows st st' /\ (r = inr BreakRandomSubscriber -> dialled_since st st').

Lemma made_quiet (st st' : State) (x : exit) :
  links st' = links st -> inr x <> (inr BreakRandomSubscriber : unit + exit) ->
  made st (inr x) st'.
Proof. intros Hl Hx. split; [by apply grows_links | contradiction]. Qed.

Lemma candidate_made (subscriber metadataString : string) (st : State) :
  tidy st ->
  made st (candidate E subscriber metadataString st).1 (candidate E subscriber metadataString st).2.
Proof.
  intros Ht. unfold candidate. run_M.
  destruct (quiet_SetMetadata metadataString st) as [Hl1 Hr1].
  destruct (SetMetadata metadataString st) as [[ok|x] st1]; cbn [fst snd] in *;
    [|by apply made_quiet; [|apply (quiet_exit (A := bool))]].
  destruct ok; cbn [negb]; [|by apply made_quiet].
  destruct (quiet_deref (Common.Metadata (common st1)) st1) as [Hl2 Hr2].
  destruct (deref (Common.Metadata (common st1)) st1) as [[md|x] st2]; cbn [fst snd] in *;
    [|apply made_quiet; [congruence|by apply (quiet_exit (A := Metadata))]].
  destruct (quiet_choose_receiver E subscriber md st2) as [Hl3 Hr3].
  destruct (choose_receiver E subscriber md st2) as [[[]|x] st3]; cbn [fst snd] in *;
    [|apply made_quiet; [congruence|assumption]].
  destruct (quiet_price_gate E md st3) as [Hl4 Hr4].
  destruct (price_gate E md st3) as [[[]|x] st4]; cbn [fst snd] in *;
    [|apply made_quiet; [congruence|assumption]].
  destruct (quiet_adopt_reverse_services st4) as [Hl5 Hr5].
  destruct (adopt_reverse_services st4) as [[[]|x] st5]; cbn [fst snd] in *;
    [|apply made_quiet; [congruence|assumption]].
  assert (Hl : links st5 = links st) by congruence.
  pose proof (grows_links _ _ Hl) as Hg5.
  pose proof (UpdateServerConn_tidy E st5 (tidy_links _ _ Hl Ht)) as HU.
  pose proof (UpdateServerConn_new st5) as HN.
  destruct (UpdateServerConn E st5) as [[[]|x] st6]; cbn [negb fst snd];
    destruct HN as [Hg6 Hnew]; (split; [by apply (grows_trans st st5)|]);
    [|discriminate|destruct HU as (_ & _ & [msg ->] & _); discriminate].
  intros _. destruct HU as (_ & Hc6 & _). destruct (needs_config _ _ Hc6) as [HnT HnU].
  destruct (Hnew eq_refl) as [HT HU']. unfold dialled_since. rewrite HnT, HnU.
  split; intros Hneed h Hh Hin.
  - by apply (HT Hneed h Hh), Hg5.
  - by apply (HU' Hneed h Hh), Hg5.
Qed.

Lemma round_made (topic : string) (st : State) :
  tidy st -> made st (round E topic st).1 (round E topic st).2.
Proof.
  intros Ht. unfold round. run_M.
  set (st1 := record _ (with_common _ st)).
  assert (Hl : links st1 = links st) by reflexivity.
  destruct (GetSubscribersCount E _ topic) as [n|err]; [|by apply made_quiet].
  destruct (n =? 0); [by apply made_quiet|].
  destruct (GetSubscribers E _ topic _ 1 true false) as [[|[subscriber metadataString] rest]|err];
    cbn [fst snd].
  - split; [by apply grows_links | discriminate].
  - set (st2 := record _ st1).
    assert (Hl2 : links st2 = links st) by reflexivity.
    destruct (candidate_made subscriber metadataString st2 (tidy_links _ _ Hl2 Ht)) as [Hg Hd].
    split; [exact Hg|]. intros Hr. exact (Hd Hr).
  - by apply made_quiet.
Qed.

Lemma negotiate_made (fuel : nat) (topic : string) :
  forall st : State,
    tidy st ->
    let '(o, st') := negotiate E fuel topic st in
    grows st st' /\ (o = Returned None -> dialled_since st st').
Proof.
  induction fuel as [|fuel IH]; intros st Ht; cbn [negotiate];
    [split; [apply grows_refl | discriminate]|].
  destruct (round_kept E topic st Ht) as (Ht1 & _ & _).
  destruct (round_made topic st Ht) as [Hg1 Hd1].
  destruct (round E topic st) as [r st1]; cbn [fst snd] in *.
  assert (Htick : tidy (tick st1)) by (by apply (tidy_same st1)).
  assert (Hgoes : let '(o, st') := negotiate E fuel topic (tick st1) in
                  grows st st' /\ (o = Returned None -> dialled_since st st')).
  { specialize (IH (tick st1) Htick). destruct (negotiate E fuel topic (tick st1)) as [o st'].
    destruct IH as [Hg Hd]. split; [by apply (grows_trans st (tick st1) st')|].
    intros Ho. destruct (Hd Ho) as [HT HU]. split; intros Hneed h Hh Hin.
    - by apply (HT Hneed h Hh), Hg1.
    - by apply (HU Hneed h Hh), Hg1. }
  destruct r as [[]|[]]; [exact Hgoes | exact Hgoes | | |];
    (split; [exact Hg1|]); [|discriminate..].
  intros _. by apply Hd1.
Qed.

End Dialled.

(** X19. [UpdateServerConn] answers [true] only with the session marked
    connected and holding an open connection for each transport that the
    service needs (TCP is dialled first and stays open while UDP is
    dialled); with [false], and when it panics on a nil descriptor, the mark
    is what it was.  In each case no connection stays open that the session
    does not hold: the one it held before is closed before the dial. *)
Theorem UpdateServerConn_connects (E : Env) (st st' : State) (r : bool + exit) :
  tidy st ->
  UpdateServerConn E st = (r, st') ->
  tidy st'
  /\ match r with
     | inl true => settled st'
     | inl false => Common.connected (common st') = Common.connected (common st)
     | inr x =>
       (exists msg, x = Panic msg)
       /\ Common.connected (common st') = Common.connected (common st)
     end.
Proof.
  intros Ht Hrun. pose proof (UpdateServerConn_tidy E st Ht) as H. rewrite Hrun in H.
  destruct H as (Ht' & Hc & H). split; [exact Ht'|].
  destruct r as [[]|x]; [|exact H..].
  destruct (needs_config _ _ Hc) as [HnT HnU]. unfold settled. rewrite HnT, HnU. exact H.
Qed.

(** X20. However a call of [CreateServerConn] ends (with nil, with an error,
    with a panic, or still in its loop after any number of rounds), every
    connection that is open is one that the session holds: the rounds that
    failed left no connection behind.  The configuration of the session is
    what it was. *)
Theorem CreateServerConn_holds_what_is_open (E : Env) (fuel : nat) (force : bool) (st : State) :
  tidy st ->
  tidy (CreateServerConn E fuel force st).2
  /\ config (common (CreateServerConn E fuel force st).2) = config (common st).
Proof.
  intros Ht. unfold CreateServerConn.
  destruct (negb (Common.Reverse (common st)) && _); [|by split].
  pose proof (negotiate_kept E fuel
                (Common.SubscriptionPrefix (common st) +:+ Name (Common.Service (common st)))
                st Ht) as H.
  destruct (negotiate E fuel _ st) as [o st']. cbn [snd]. destruct H as (H1 & H2 & _).
  by split.
Qed.

(** X21. When a getter of a client session that has to negotiate (not
    connected, or forced) answers without an error, the connection it answers
    with is one that the negotiation made: it is open, it is not one of the
    connections that there were before the call, open or closed, and the
    session is marked connected.  [GetServerTCPConn] does so for a service
    with TCP ports, [GetServerUDPConn] for a service with UDP ports. *)
Theorem getters_give_open_connections (E : Env) (fuel : nat) (force : bool) (st : State) :
  tidy st ->
  Common.Reverse (common st) = false ->
  Common.connected (common st) = false \/ force = true ->
  (forall conn st',
      GetServerTCPConn E fuel force st = (Got conn, st') ->
      needs_TCP (common st) = true ->
      exists h, conn = conn_ptr (Some h) /\ is_open st' h
                /\ (h ∉ dom (conns st))
                /\ Common.connected (common st') = true)
  /\ (forall conn st',
         GetServerUDPConn E fuel force st = (Got conn, st') ->
         needs_UDP (common st) = true ->
         exists h, conn = Some h /\ is_open st' h
                   /\ (h ∉ dom (conns st))
                   /\ Common.connected (common st') = true).
Proof.
  intros Ht Hrev Hgo.
  assert (Hrun : CreateServerConn E fuel force st
                 = negotiate E fuel
                     (Common.SubscriptionPrefix (common st) +:+ Name (Common.Service (common st)))
                     st).
  { unfold CreateServerConn. rewrite Hrev. destruct Hgo as [-> | ->]; [reflexivity|].
    by rewrite orb_true_r. }
  pose proof (negotiate_kept E fuel
                (Common.SubscriptionPrefix (common st) +:+ Name (Common.Service (common st)))
                st Ht) as H.
  pose proof (negotiate_made E fuel
                (Common.SubscriptionPrefix (common st) +:+ Name (Common.Service (common st)))
                st Ht) as Hnew.
  unfold GetServerTCPConn, GetServerUDPConn, getter. rewrite Hrun.
  destruct (negotiate E fuel _ st) as [[[err|]| |] st1]; try (split; intros; discriminate).
  destruct H as (_ & Hc & Hs). destruct (Hs eq_refl) as (Hn & HT & HU).
  destruct Hnew as [_ Hnew]. destruct (Hnew eq_refl) as [HdT HdU].
  destruct (needs_config _ _ Hc) as [HnT HnU].
  split; intros conn st' [= <- <-] Hneeds.
  - destruct HT as (h & H1 & H2); [congruence|]. exists h.
    split; [exact H1|]. split; [exact H2|]. split; [|exact Hn].
    apply HdT; [congruence | exact H1].
  - destruct HU as (h & H1 & H2); [congruence|]. exists h.
    split; [exact H1|]. split; [exact H2|]. split; [|exact Hn].
    apply HdU; [congruence | exact H1].
Qed.

(** X22. On a reverse session, and on a connected session that is not
    forced, the four getters answer from the fields of the session without a
    negotiation: nothing is asked of the directory, nothing is dialled and
    the state is what it was; and what a setter stored is what the getter of
    the same field answers. *)
Theorem getters_answer_from_the_session (E : Env) (fuel : nat) (force : bool) (st : State) :
  Common.Reverse (common st) = true
  \/ (Common.connected (common st) = true /\ force = false) ->
  (GetServerTCPConn E fuel force st = (Got (Common.tcpConn (common st)), st)
   /\ GetServerUDPConn E fuel force st = (Got (Common.udpConn (common st)), st)
   /\ GetServerUDPReadChan E fuel force st = (Got (Common.udpReadChan (common st)), st)
   /\ GetServerUDPWriteChan E fuel force st = (Got (Common.udpWriteChan (common st)), st))
  /\ (forall conn, (GetServerTCPConn E fuel force (SetServerTCPConn conn st).2).1 = Got conn)
  /\ (forall ch, (GetServerUDPReadChan E fuel force (SetServerUDPReadChan ch st).2).1 = Got ch)
  /\ (forall ch, (GetServerUDPWriteChan E fuel force (SetServerUDPWriteChan ch st).2).1 = Got ch).
Proof.
  intros Hguard.
  assert (Hidle : forall st0 : State,
            Common.Reverse (common st0) = Common.Reverse (common st) ->
            Common.connected (common st0) = Common.connected (common st) ->
            CreateServerConn E fuel force st0 = (Returned None, st0)).
  { intros st0 Hr Hn. unfold CreateServerConn. rewrite Hr, Hn.
    destruct Hguard as [-> | [-> ->]]; cbn; by rewrite ?andb_false_r. }
  unfold GetServerTCPConn, GetServerUDPConn, GetServerUDPReadChan, GetServerUDPWriteChan,
    getter.
  split; [by rewrite Hidle|].
  split; [|split]; intros x; by rewrite Hidle.
Qed.

Definition lone_provider : Env :=
  example.world [("client"%string, example.descriptor)] (fun _ => 0) (fun _ => false).

Lemma tidy_initial (c : Common.t) :
  Common.tcpConn c = no_conn -> Common.udpConn c = None -> tidy (example.initial c).
Proof.
  intros Ht Hu. split.
  - intros h Hh. unfold is_open in Hh. cbn in Hh. by rewrite lookup_empty in Hh.
  - intros h [Hh|Hh]; cbn in Hh; congruence.
Defined.

Lemma UpdateServerConn_connects_witness :
  tidy (UpdateServerConn lone_provider example.committed).2
  /\ settled (UpdateServerConn lone_provider example.committed).2.
Proof.
  assert (Ht : tidy example.committed).
  { apply (tidy_same (example.initial (example.session 1000000 1000000)));
      [reflexivity..|by apply tidy_initial]. }
  exact (UpdateServerConn_connects lone_provider example.committed
           (UpdateServerConn lone_provider example.committed).2 (inl true) Ht
           ltac:(vm_compute; reflexivity)).
Defined.

Lemma CreateServerConn_holds_what_is_open_witness :
  tidy (CreateServerConn lone_provider 3 false
          (example.initial (example.session 1000000 1000000))).2
  /\ config (common (CreateServerConn lone_provider 3 false
                       (example.initial (example.session 1000000 1000000))).2)
     = config (example.session 1000000 1000000).
Proof.
  apply (CreateServerConn_holds_what_is_open lone_provider 3 false
           (example.initial (example.session 1000000 1000000))).
  by apply tidy_initial.
Defined.

Lemma renegotiated_tidy :
  tidy (CreateServerConn lone_provider 1 false
          (example.initial (example.session 1000000 1000000))).2.
Proof.
  pose proof (negotiate_kept lone_provider 1
                (Common.SubscriptionPrefix (example.session 1000000 1000000)
                 +:+ Name (Common.Service (example.session 1000000 1000000)))
                (example.initial (example.session 1000000 1000000))
                (tidy_initial (example.session 1000000 1000000) eq_refl eq_refl)) as H.
  change (negotiate lone_provider 1 _ _)
    with (CreateServerConn lone_provider 1 false
            (example.initial (example.session 1000000 1000000))) in H.
  destruct (CreateServerConn lone_provider 1 false _) as [o st']. by destruct H as [H _].
Defined.

Lemma getters_give_open_connections_witness :
  exists h st',
    GetServerTCPConn lone_provider 1 true
      (CreateServerConn lone_provider 1 false
         (example.initial (example.session 1000000 1000000))).2
    = (Got (conn_ptr (Some h)), st')
    /\ is_open st' h
    /\ (h ∉ dom (conns (CreateServerConn lone_provider 1 false
                          (example.initial (example.session 1000000 1000000))).2))
    /\ (dom (conns (CreateServerConn lone_provider 1 false
                      (example.initial (example.session 1000000 1000000))).2) ≠ ∅)
    /\ Common.connected (common st') = true.
Proof.
  pose (st0 := (CreateServerConn lone_provider 1 false
                  (example.initial (example.session 1000000 1000000))).2).
  pose (p := GetServerTCPConn lone_provider 1 true st0).
  assert (Hp : p = (Got (conn_ptr (Some 2%positive)), p.2)) by (vm_compute; reflexivity).
  assert (Hold : st0.(conns) !! 1%positive = Some true) by (vm_compute; reflexivity).
  destruct (getters_give_open_connections lone_provider 1 true st0 renegotiated_tidy
              ltac:(vm_compute; reflexivity) (or_intror eq_refl)) as [HT _].
  destruct (HT _ _ Hp ltac:(vm_compute; reflexivity)) as (h & Hconn & Hopen & Hfresh & Hn).
  exists h, p.2. split; [rewrite <- Hconn; exact Hp|]. split; [exact Hopen|].
  split; [exact Hfresh|]. split; [|exact Hn].
  intros Hempty. assert (Hin : 1%positive ∈ dom (conns st0)) by (apply elem_of_dom; eauto).
  fold st0 in Hempty. rewrite Hempty in Hin. by apply not_elem_of_empty in Hin.
Defined.

Lemma getters_answer_from_the_session_witness :
  (GetServerTCPConn lone_provider 1 false
     (SetServerTCPConn (conn_ptr (Some 7%positive))
        (example.initial (Common.set_connected true (example.session 0 0)))).2).1
  = Got (conn_ptr (Some 7%positive)).
Proof.
  refine (proj1 (proj2 (getters_answer_from_the_session lone_provider 1 false
            (example.initial (Common.set_connected true (example.session 0 0))) _))
            (conn_ptr (Some 7%positive))).
  right. by split.
Defined.

(** ** What the publisher publishes *)




(** ** The entry program *)

Module entry.

(** What the loop over the configured services does for one of them, and
    how the program stops when it cannot. *)
Inductive started : Type :=
| Start (service : Service) (entryToExitMaxPrice exitToEntryMaxPrice : Z).

Inductive stop : Type :=
| PanicPrice (err : error)
| PanicNotFound (serviceName : string).

(** The inner loop: the first service of the services file with the name
    that is looked for. *)
Fixpoint find_service (serviceName : string) (services : list Service) : option Service :=
  match services with
  | [] => None
  | service :: rest =>
    if String.eqb (Name service) serviceName then Some service
    else find_service serviceName rest
  end.

Section Services.

(** [ParsePrice] of the package, whose file is not among the sources. *)
Variable ParsePrice : string -> result (Z * Z).

(** The loop labelled [service]; [configured] holds the names and the
    [MaxPrice] of [config.Services] in the order in which the map is walked.
    The entries started before a panic are started all the same. *)
Fixpoint start_services (configured : list (string * string)) (services : list Service)
  : list started * option stop :=
  match configured with
  | [] => ([], None)
  | (serviceName, maxPrice) :: rest =>
    match ParsePrice maxPrice with
    | Err err => ([], Some (PanicPrice err))
    | Ok (entryToExitMaxPrice, exitToEntryMaxPrice) =>
      match find_service serviceName services with
      | None => ([], Some (PanicNotFound serviceName))
      | Some service =>
        let '(entries, end_) := start_services rest services in
        (Start service entryToExitMaxPrice exitToEntryMaxPrice :: entries, end_)
      end
    end
  end.

End Services.

(** The part of the accept loop between the read of the peer's descriptor
    and the start of its session: the descriptor is stored (the answer of
    [SetMetadata] is dropped), the connection is handed to the session, and
    with a UDP port above zero the two channels are made and stored; the
    result is the UDP address under which the read channel is registered. *)
Definition accept_peer (metadataRaw : list ascii) (tcpConn : NetConn) (ip : string)
    (udpReadChan udpWriteChan : chan) : M (option (string * Z)) :=
  SetMetadata (string_of_list_ascii metadataRaw);;
  SetServerTCPConn tcpConn;;
  st ← get;
  md ← deref (Common.Metadata (common st));
  if 0 <? UDPPort md then
    SetServerUDPReadChan (Some udpReadChan);;
    SetServerUDPWriteChan (Some udpWriteChan);;
    mret (Some (ip, UDPPort md))
  else mret None.

End entry.

Section Services.

Variable ParsePrice : string -> result (Z * Z).

Definition can_start (services : list Service) (item : string * string) : Prop :=
  (exists prices, ParsePrice item.2 = Ok prices)
  /\ exists service, service ∈ services /\ Name service = item.1.

(** The entry that is started for a configured service: the first service
    of that name, with the ceilings that its [MaxPrice] spells. *)
Definition starts (services : list Service) (item : string * string) (s : entry.started)
  : Prop :=
  match s with
  | entry.Start service e x =>
    ParsePrice item.2 = Ok (e, x) /\ entry.find_service item.1 services = Some service
    /\ Name service = item.1
  end.

Lemma find_service_Some (serviceName : string) (services : list Service) (service : Service) :
  entry.find_service serviceName services = Some service ->
  service ∈ services /\ Name service = serviceName.
Proof.
  induction services as [|s rest IH]; [discriminate|]. cbn [entry.find_service].
  destruct (String.eqb_spec (Name s) serviceName) as [Heq|Hne].
  - intros [= <-]. split; [left | assumption].
  - intros H. destruct (IH H) as [Hin Hname]. split; [by right | assumption].
Qed.

Lemma find_service_None (serviceName : string) (services : list Service) :
  entry.find_service serviceName services = None ->
  forall service, service ∈ services -> Name service <> serviceName.
Proof.
  induction services as [|s rest IH]; intros H service Hin; [by apply elem_of_nil in Hin|].
  cbn [entry.find_service] in H.
  destruct (String.eqb_spec (Name s) serviceName) as [Heq|Hne]; [discriminate|].
  apply elem_of_cons in Hin as [->|Hin]; [assumption | by apply IH].
Qed.

(** X24. The services are started without a panic exactly when every
    configured service has a price that parses and a service of its name in
    the services file; then one entry is started for each configured service,
    in the order of the walk, with the first service of that name and the
    ceilings that its price spells. *)
Theorem start_services_all_or_panic (configured : list (string * string))
    (services : list Service) :
  ((entry.start_services ParsePrice configured services).2 = None
   <-> Forall (can_start services) configured)
  /\ ((entry.start_services ParsePrice configured services).2 = None ->
      Forall2 (starts services) configured
              (entry.start_services ParsePrice configured services).1).
Proof.
  induction configured as [|[serviceName maxPrice] rest [IHiff IHall]].
  - split; [split; [constructor | reflexivity] | constructor].
  - cbn [entry.start_services].
    destruct (ParsePrice maxPrice) as [[e x]|err] eqn:Hprice.
    + destruct (entry.find_service serviceName services) as [service|] eqn:Hfind.
      * destruct (entry.start_services ParsePrice rest services) as [entries end_].
        cbn [fst snd] in *. destruct (find_service_Some _ _ _ Hfind) as [Hin Hname].
        split; [split|].
        -- intros Hend. constructor; [|by apply IHiff].
           split; cbn [fst snd]; eauto.
        -- intros Hall. apply Forall_cons in Hall as [_ Hall]. by apply IHiff.
        -- intros Hend. constructor; [by repeat split | by apply IHall].
      * cbn [fst snd]. split; [split; [discriminate|] | discriminate].
        intros Hall. apply Forall_cons in Hall as [[_ (service & Hin & Hname)] _].
        exfalso. by apply (find_service_None _ _ Hfind service).
    + cbn [fst snd]. split; [split; [discriminate|] | discriminate].
      intros Hall. apply Forall_cons in Hall as [[[prices Hp] _] _]. cbn [snd] in Hp. congruence.
Qed.

(** X25. When the walk panics, the entries of the configured services that
    came before the failing one have been started already: the panic names
    the first service that cannot be started, after its predecessors were
    started each with its own service. *)
Theorem start_services_panics_late (configured : list (string * string))
    (services : list Service) (why : entry.stop) :
  (entry.start_services ParsePrice configured services).2 = Some why ->
  exists before bad after,
    configured = before ++ bad :: after
    /\ Forall2 (starts services) before (entry.start_services ParsePrice configured services).1
    /\ ~ can_start services bad
    /\ match why with
       | entry.PanicPrice err => ParsePrice bad.2 = Err err
       | entry.PanicNotFound serviceName =>
         serviceName = bad.1 /\ entry.find_service bad.1 services = None
       end.
Proof.
  induction configured as [|[serviceName maxPrice] rest IH]; [discriminate|].
  cbn [entry.start_services].
  destruct (ParsePrice maxPrice) as [[e x]|err] eqn:Hprice.
  - destruct (entry.find_service serviceName services) as [service|] eqn:Hfind.
    + destruct (entry.start_services ParsePrice rest services) as [entries end_].
      cbn [fst snd] in *. intros Hend.
      destruct (IH Hend) as (before & bad & after & -> & Hall & Hbad & Hwhy).
      exists ((serviceName, maxPrice) :: before), bad, after.
      split; [reflexivity|]. split; [|by split].
      constructor; [|assumption]. destruct (find_service_Some _ _ _ Hfind) as [_ Hname].
      by repeat split.
    + cbn [fst snd]. intros [= <-]. exists [], (serviceName, maxPrice), rest.
      split; [reflexivity|]. split; [constructor|]. split; [|by split].
      intros [_ (service & Hin & Hname)]. by apply (find_service_None _ _ Hfind service).
  - cbn [fst snd]. intros [= <-]. exists [], (serviceName, maxPrice), rest.
    split; [reflexivity|]. split; [constructor|]. split; [|assumption].
    intros [[prices Hp] _]. cbn [snd] in Hp. congruence.
Qed.

End Services.

(** X26. The accept loop goes on with a peer whatever its descriptor: the
    call never panics on the descriptor pointer, because [SetMetadata] has
    set it to a new record; the connection is handed to the session also when
    the descriptor did not decode; and the UDP channels are made exactly when
    the port that the decoder stored, before it stopped if it did, is above
    zero, which a text that is no JSON never gives. *)
Theorem accept_peer_goes_on (metadataRaw : list ascii) (tcpConn : NetConn) (ip : string)
    (udpReadChan udpWriteChan : chan) (st : State) :
  let md := (json_Unmarshal metadataRaw zero_Metadata).1 in
  exists st',
    entry.accept_peer metadataRaw tcpConn ip udpReadChan udpWriteChan st
    = (inl (if 0 <? UDPPort md then Some (ip, UDPPort md) else None), st')
    /\ Common.tcpConn (common st') = tcpConn
    /\ Common.Metadata (common st') = Some (fresh (dom (heap st)))
    /\ heap st' !! fresh (dom (heap st)) = Some md
    /\ (if 0 <? UDPPort md
        then Common.udpReadChan (common st') = Some udpReadChan
             /\ Common.udpWriteChan (common st') = Some udpWriteChan
        else Common.udpReadChan (common st') = Common.udpReadChan (common st)
             /\ Common.udpWriteChan (common st') = Common.udpWriteChan (common st))
    /\ (json.parse metadataRaw = None -> UDPPort md = 0).
Proof.
  intros md. subst md. unfold entry.accept_peer. run_M. rewrite SetMetadata_eq. cbn zeta.
  rewrite list_ascii_of_string_of_list_ascii.
  assert (Hsyntax : json.parse metadataRaw = None ->
                    UDPPort (json_Unmarshal metadataRaw zero_Metadata).1 = 0).
  { intros Hp. unfold json_Unmarshal. by rewrite Hp. }
  revert Hsyntax. generalize (json_Unmarshal metadataRaw zero_Metadata). intros [md err] Hsyntax.
  cbn [fst snd] in *.
  destruct err as [e|]; unfold SetServerTCPConn, SetServerUDPReadChan, SetServerUDPWriteChan,
    deref; run_M; cbn; rewrite lookup_insert_eq;
    destruct (0 <? UDPPort md); eexists; (split; [reflexivity|]); cbn;
    rewrite ?lookup_insert_eq; by repeat split.
Qed.

Definition ssh_only : list Service := [{| Name := "ssh"; TCP := [22]; UDP := [] |}].

Lemma start_services_panics_late_witness :
  exists before bad after,
    [("ssh"%string, "0.001,0.002"%string); ("web"%string, "0.001,0.002"%string)]
    = before ++ bad :: after
    /\ Forall2 (starts price.ParsePrice ssh_only) before
         (entry.start_services price.ParsePrice
            [("ssh"%string, "0.001,0.002"%string); ("web"%string, "0.001,0.002"%string)]
            ssh_only).1
    /\ ~ can_start price.ParsePrice ssh_only bad
    /\ ("web"%string = bad.1 /\ entry.find_service bad.1 ssh_only = None).
Proof.
  apply (start_services_panics_late price.ParsePrice
           [("ssh"%string, "0.001,0.002"%string); ("web"%string, "0.001,0.002"%string)]
           ssh_only (entry.PanicNotFound "web")).
  vm_compute. reflexivity.
Defined.

(** ** The pumps while the socket is open *)

(** X27. In the reverse entry program, which binds one UDP socket, starts
    one reader task on it and one writer pump for each accepted peer that
    declares a UDP port: as long as that socket has not been closed the
    reader has not left its loop and no writer pump has returned, whatever
    the tasks did and however many pumps were started since.  A writer pump
    returns only after the close of the socket. *)
Theorem pumps_run_while_socket_open (n : nat) (s : pumps.system) :
  pumps.steps (pumps.start n) s ->
  pumps.socket_open s = true ->
  pumps.reader s = pumps.Reading /\ pumps.finished s = 0%nat.
Proof.
  intros Hsteps Hopen.
  assert (Hgen : forall s0 s1, pumps.steps s0 s1 ->
            (pumps.socket_open s0 = true -> pumps.reader s0 = pumps.Reading) ->
            pumps.socket_open s1 = true -> pumps.reader s1 = pumps.Reading).
  { induction 1 as [s0 | s1 s2 s3 Hstep _ IH]; intros Hinv; [exact Hinv|].
    apply IH. destruct Hstep; cbn in *; try assumption; try discriminate.
    intros Ho. rewrite (Hinv Ho) in *. discriminate. }
  assert (Hreading : pumps.reader s = pumps.Reading)
    by (by apply (Hgen _ _ Hsteps)).
  split; [exact Hreading|].
  destruct (start_counts n) as [Hf _].
  assert (Hstart : signal_accounted (pumps.start n))
    by (unfold signal_accounted; by rewrite Hf).
  destruct (steps_signal_accounted _ _ Hsteps Hstart) as [Hs _].
  unfold signal_accounted in Hs. by rewrite Hreading in Hs.
Qed.

(** Two peers were accepted, a datagram went out to the second and one came
    in. *)
Definition after_two_accepts : pumps.system :=
  {| pumps.socket_open := true; pumps.reader := pumps.Reading;
     pumps.writers := [pumps.Selecting; pumps.Selecting] |}.

Lemma pumps_run_while_socket_open_witness :
  pumps.steps (pumps.start 0) after_two_accepts
  /\ pumps.reader after_two_accepts = pumps.Reading
  /\ pumps.finished after_two_accepts = 0%nat.
Proof.
  assert (Hsteps : pumps.steps (pumps.start 0) after_two_accepts).
  { eapply pumps.steps_step; [apply pumps.spawn_writer|].
    eapply pumps.steps_step; [apply pumps.spawn_writer|].
    eapply pumps.steps_step; [apply (pumps.write_datagram _ 1); reflexivity|].
    eapply pumps.steps_step; [apply pumps.read_datagram; reflexivity|].
    apply pumps.steps_refl. }
  split; [exact Hsteps|].
  exact (pumps_run_while_socket_open 0 after_two_accepts Hsteps eq_refl).
Defined.

(** ** The mark [connected] *)

Section Mark.

Variable E : Env.

(** A block that leaves the mark alone. *)
Definition keeps_mark {A : Type} (m : M A) : Prop :=
  forall st, Common.connected (common (m st).2) = Common.connected (common st).

Lemma keeps_mark_bind {A B : Type} (m : M A) (f : A -> M B) :
  keeps_mark m -> (forall a, keeps_mark (f a)) -> keeps_mark (m ≫= f).
Proof.
  intros Hm Hf st. unfold mbind, M_bind. specialize (Hm st).
  destruct (m st) as [[a|x] st1]; cbn [snd] in *; [|assumption].
  by rewrite Hf.
Qed.

Lemma keeps_mark_quiet {A : Type} (m : M A) : quiet m -> keeps_mark m.
Proof.
  intros Hq st. destruct (Hq st) as [Hl _]. unfold links in Hl.
  apply (f_equal fst) in Hl. apply (f_equal snd) in Hl. exact Hl.
Qed.

Lemma keeps_mark_dial_TCP : keeps_mark (dial_TCP E).
Proof.
  intros st. unfold dial_TCP. run_M. rewrite Close_NetConn. unfold deref.
  pose proof (after_Close_common (Common.tcpConn (common st)) st) as Hc.
  revert Hc. generalize (after_Close (Common.tcpConn (common st)) st). intros st1 Hc.
  rewrite Hc.
  destruct (Common.Metadata (common st)) as [l|]; [destruct (heap st1 !! l) as [md|]|];
    [destruct (DialTimeout E _ _ _ _)|..]; cbn; by rewrite Hc.
Qed.

Lemma keeps_mark_dial_UDP : keeps_mark (dial_UDP E).
Proof.
  intros st. unfold dial_UDP. run_M.
  change (Closer_of_UDPConn (Common.udpConn (common st)))
    with (Closer_of_NetConn (conn_ptr (Common.udpConn (common st)))).
  rewrite Close_NetConn. unfold deref.
  pose proof (after_Close_common (conn_ptr (Common.udpConn (common st))) st) as Hc.
  revert Hc. generalize (after_Close (conn_ptr (Common.udpConn (common st))) st). intros st1 Hc.
  rewrite Hc. unfold StartUDPReaderWriter. run_M.
  destruct (Common.Metadata (common st)) as [l|]; [destruct (heap st1 !! l) as [md|]|];
    [destruct (DialUDP E _ _ _ _)|..]; cbn; by rewrite Hc.
Qed.

(** [UpdateServerConn] sets the mark or leaves it. *)
Lemma UpdateServerConn_mark (st : State) :
  Common.connected (common st) = true ->
  Common.connected (common (UpdateServerConn E st).2) = true.
Proof.
  intros Hn. unfold UpdateServerConn. run_M.
  assert (HT : Common.connected (common (dial_TCP E st).2) = true)
    by (by rewrite keeps_mark_dial_TCP).
  assert (HU : forall st1, Common.connected (common st1) = true ->
                 Common.connected
                   (common (match (if (0 <? length (UDP (Common.Service (common st))))%nat
                                      || is_set (Common.ReverseMetadata (common st))
                                   then dial_UDP E else (fun st0 => (inl true, st0))) st1 with
                            | (inl okUDP, st2) =>
                              (if negb okUDP then (fun st0 => (inl false, st0))
                               else (fun st0 =>
                                       (inl true, with_common (Common.set_connected true) st0)))
                                st2
                            | (inr x, st2) => (inr x, st2)
                            end).2) = true).
  { intros st1 Hn1.
    match goal with |- context [if ?b then dial_UDP E else _] => destruct b end.
    - pose proof (keeps_mark_dial_UDP st1) as H. rewrite Hn1 in H.
      destruct (dial_UDP E st1) as [[[]|x] st2]; cbn [snd negb] in *; [reflexivity|assumption..].
    - reflexivity. }
  match goal with |- context [if ?b then dial_TCP E else _] => destruct b end.
  - destruct (dial_TCP E st) as [[[]|x] st1]; cbn [snd negb] in *; [|assumption..].
    by apply HU.
  - cbn [negb]. by apply HU.
Qed.

Lemma candidate_mark (subscriber metadataString : string) (st : State) :
  Common.connected (common st) = true ->
  Common.connected (common (candidate E subscriber metadataString st).2) = true.
Proof.
  intros Hn. unfold candidate. run_M.
  pose proof (keeps_mark_quiet _ (quiet_SetMetadata metadataString) st) as H1.
  destruct (SetMetadata metadataString st) as [[ok|x] st1]; cbn [snd] in *; [|congruence].
  destruct ok; cbn [negb]; [|cbn; congruence].
  pose proof (keeps_mark_quiet _ (quiet_deref (Common.Metadata (common st1))) st1) as H2.
  destruct (deref (Common.Metadata (common st1)) st1) as [[md|x] st2]; cbn [snd] in *;
    [|congruence].
  pose proof (keeps_mark_quiet _ (quiet_choose_receiver E subscriber md) st2) as H3.
  destruct (choose_receiver E subscriber md st2) as [[[]|x] st3]; cbn [snd] in *; [|congruence].
  pose proof (keeps_mark_quiet _ (quiet_price_gate E md) st3) as H4.
  destruct (price_gate E md st3) as [[[]|x] st4]; cbn [snd] in *; [|congruence].
  pose proof (keeps_mark_quiet _ quiet_adopt_reverse_services st4) as H5.
  destruct (adopt_reverse_services st4) as [[[]|x] st5]; cbn [snd] in *; [|congruence].
  assert (Hn5 : Common.connected (common st5) = true) by congruence.
  pose proof (UpdateServerConn_mark st5 Hn5) as H6.
  destruct (UpdateServerConn E st5) as [[[]|x] st6]; cbn [snd negb] in *; assumption.
Qed.

Lemma round_mark (topic : string) (st : State) :
  Common.connected (common st) = true ->
  Common.connected (common (round E topic st).2) = true.
Proof.
  intros Hn. unfold round. run_M.
  destruct (GetSubscribersCount E _ topic) as [n|err]; [|assumption].
  destruct (n =? 0); [assumption|].
  destruct (GetSubscribers E _ topic _ 1 true false) as [[|[subscriber metadataString] rest]|err];
    cbn [snd]; [assumption| |assumption].
  by apply candidate_mark.
Qed.

Lemma negotiate_mark (fuel : nat) (topic : string) :
  forall st : State,
    Common.connected (common st) = true ->
    Common.connected (common (negotiate E fuel topic st).2) = true.
Proof.
  induction fuel as [|fuel IH]; intros st Hn; [assumption|]. cbn [negotiate].
  pose proof (round_mark topic st Hn) as H1.
  destruct (round E topic st) as [r st1]. cbn [snd] in H1.
  destruct r as [[]|[]]; cbn [snd]; first [by apply IH | assumption].
Qed.

End Mark.

(** X28. [CreateServerConn] never clears the mark [connected]: a session
    that was connected stays marked so however a later negotiation ends, a
    forced one that closed the connection and could not dial another
    included.  The getters of a client session then answer an unforced call
    from the fields as they are, without a new negotiation and without an
    error. *)
Theorem connected_mark_is_never_cleared (E E' : Env) (fuel fuel' : nat) (force : bool)
    (st : State) :
  Common.connected (common st) = true ->
  let st' := (CreateServerConn E fuel force st).2 in
  Common.connected (common st') = true
  /\ GetServerTCPConn E' fuel' false st' = (Got (Common.tcpConn (common st')), st')
  /\ GetServerUDPConn E' fuel' false st' = (Got (Common.udpConn (common st')), st').
Proof.
  intros Hn st'.
  assert (Hn' : Common.connected (common st') = true).
  { subst st'. unfold CreateServerConn. destruct (negb _ && _); [|assumption].
    by apply negotiate_mark. }
  split; [exact Hn'|].
  unfold GetServerTCPConn, GetServerUDPConn, getter, CreateServerConn.
  rewrite Hn'. cbn [negb orb]. by rewrite andb_false_r.
Qed.

(** The directory answers the first round and fails in the second; the
    dialler refuses. *)
Definition flaky_world : Env :=
  {| GetSubscribersCount := fun round _ =>
       if (round =? 0)%nat then Ok 1 else Err example.unavailable;
     GetSubscribers := fun _ _ _ _ _ _ => Ok [("client"%string, example.descriptor)];
     rand_source := fun _ => 0;
     ParseClientAddress := fun subscriber => Ok (list_ascii_of_string subscriber);
     NewPubKeyFromBytes := fun publicKey => Ok publicKey;
     CreateProgramHash := fun pubKey => Ok pubKey;
     ToAddress := fun programHash => Ok (string_of_list_ascii programHash);
     ParsePrice := price.ParsePrice;
     DialTimeout := fun _ _ _ _ => Some example.refused;
     DialUDP := fun _ _ _ _ => Some example.refused |}.

(** A connected session that holds the open connection 1. *)
Definition connected_session : State :=
  with_conns (fun _ => {[ 1%positive := true ]})
    (example.initial
       (Common.set_tcpConn (conn_ptr (Some 1%positive))
          (Common.set_connected true (example.session 1000000 1000000)))).

(** After the forced negotiation failed, the session is marked connected and
    holds no connection; the getter answers with the nil connection and no
    error. *)
Lemma connected_mark_is_never_cleared_witness :
  (CreateServerConn flaky_world 2 true connected_session).1 = Returned (Some example.unavailable)
  /\ GetServerTCPConn lone_provider 1 false (CreateServerConn flaky_world 2 true connected_session).2
     = (Got no_conn, (CreateServerConn flaky_world 2 true connected_session).2).
Proof.
  split; [vm_compute; reflexivity|].
  destruct (connected_mark_is_never_cleared flaky_world lone_provider 2 1 true
              connected_session eq_refl) as (_ & Hget & _).
  assert (Hconn : Common.tcpConn (common (CreateServerConn flaky_world 2 true connected_session).2)
                  = no_conn) by (vm_compute; reflexivity).
  rewrite Hget, Hconn. reflexivity.
Defined.
